(** * Quick File Hasher: the hashing engine of [quick-file-hasher-app.py]

    A shallow embedding of the parts of [MainWindow] that compute digests
    ([start_job], [calculate_hash], its nested [hash_task], [results_to_txt])
    and of [HashResultRow.__str__], followed by the properties of the
    engine that the specification states.

    Conventions.
    - Python [int] is [Z]; [bytes] is [list byte]; [str] is [string];
      a [pathlib.Path] is the string [str(path)] (on POSIX [as_posix()] is
      the same string).
    - A call that may raise returns a [result]; [except Exception] is a
      match on it.
    - The progress fraction, a Python [float], is the exact rational
      quotient.  True division of two ints rounds the exact quotient to the
      nearest float, which is monotone and sends 1 to 1.0, so every
      comparison proved below on the rationals ([<=], [== 1]) carries over
      to the floats.
    - [hashlib], the file system and [concurrent.futures] are not part of
      the repository: [hashlib] is an interface (class [Hashlib]), the file
      system is a finite description of what [stat], [iterdir], [open] and
      [read] answer, and the thread pool is an interleaving machine whose
      atomic steps are the accesses to the state the threads share. *)

From Stdlib Require Import ZArith QArith Qminmax List String Ascii Bool Lia.
From Stdlib Require Import Permutation Sorted.
From Stdlib Require Import Strings.Byte.
From stdpp Require Import base list.
Import ListNotations.

Local Open Scope Z_scope.
Local Open Scope string_scope.

(** ** Exceptions and results *)

Inductive exn : Type :=
| OSError (msg : string)
| ValueError (msg : string)
| TypeError (msg : string)
| ZeroDivisionError
| UnboundLocalError (var : string).

(** [str(e)] *)
Definition exn_str (e : exn) : string :=
  match e with
  | OSError msg | ValueError msg | TypeError msg => msg
  | ZeroDivisionError => "division by zero"
  | UnboundLocalError var =>
      "cannot access local variable '" ++ var
      ++ "' where it is not associated with a value"
  end.

Inductive result (A : Type) : Type :=
| Ok (a : A)
| Raise (e : exn).
Arguments Ok {A} a.
Arguments Raise {A} e.

#[global] Instance result_ret : MRet result := @Ok.
#[global] Instance result_bind : MBind result :=
  fun A B (k : A -> result B) (r : result A) =>
    match r with
    | Ok a => k a
    | Raise e => Raise e
    end.

(** ** Strings *)

Definition nl : string := String "010"%char EmptyString.

(** [s * n] *)
Fixpoint str_mul (s : string) (n : nat) : string :=
  match n with
  | O => ""
  | S n' => s ++ str_mul s n'
  end.

(** Truth value of a [str]: non-empty. *)
Definition str_truthy (s : string) : bool :=
  match s with
  | EmptyString => false
  | String _ _ => true
  end.

(** [sub in s] *)
Definition str_contains (sub s : string) : bool :=
  match String.index 0 sub s with
  | Some _ => true
  | None => false
  end.

(** ** Result rows and the exported report *)

Record HashResultRow : Type := mkRow {
  file_name : string;
  hash_value : string;
  algo : string
}.

(** [HashResultRow.__str__] *)
Definition HashResultRow_str (r : HashResultRow) : string :=
  file_name r ++ ":" ++ hash_value r ++ ":" ++ algo r.

(** [MainWindow.results_to_txt].  [now] is the formatted time stamp.  The
    local variable [output] is assigned only under [if results_text:], so
    it is an [option]: [None] is the unbound local, and reading it raises
    [UnboundLocalError]. *)
Definition results_to_txt (now : string) (ui_results ui_errors : list HashResultRow)
  : result string :=
  let results_text := String.concat nl (map HashResultRow_str ui_results) in
  let errors_text := String.concat nl (map HashResultRow_str ui_errors) in
  let output : option string :=
    if str_truthy results_text then
      Some ("Results - Saved on " ++ now ++ ":" ++ nl ++ str_mul "-" 40 ++ nl
            ++ results_text ++ " "
            ++ (if str_truthy errors_text then nl ++ nl else nl))
    else None in
  output ← (if str_truthy errors_text then
                match output with
                | Some o =>
                    Ok (Some (o ++ "Errors - Saved on " ++ now ++ ":" ++ nl
                              ++ str_mul "-" 40 ++ nl ++ errors_text ++ nl))
                | None => Raise (UnboundLocalError "output")
                end
              else Ok output);
  match output with
  | Some o => Ok o
  | None => Raise (UnboundLocalError "output")
  end.

(** ** The file system

    What the operating system answers.  A [file] is what [stat], [open]
    and [read] give for one path; a [node] is what a path resolves to.
    [Absent] is a path [stat] fails on with an error that [is_dir] and
    [is_file] swallow (ENOENT and the like); [Forbidden] is one they raise
    (EACCES); [Special] is a FIFO, socket or device node. *)

Definition path : Type := string.
Definition bytes : Type := list byte.

Record file : Type := mkFile {
  st_size : Z;
  content : bytes;
  open_error : option exn;
  read_error : option (nat * exn)
}.

Inductive node : Type :=
| Absent (e : exn)
| Forbidden (e : exn)
| Regular (f : file)
| Special (f : file)
| Directory (size : Z) (listing : result (list string)).

Definition filesystem : Type := path -> node.

(** [Path.is_dir], [Path.is_file], [Path.stat().st_size], [path / name],
    [Path.iterdir], [open(path, "rb")]. *)
Definition is_dir (fs : filesystem) (p : path) : result bool :=
  match fs p with
  | Absent _ => Ok false
  | Forbidden e => Raise e
  | Directory _ _ => Ok true
  | Regular _ | Special _ => Ok false
  end.

Definition is_file (fs : filesystem) (p : path) : result bool :=
  match fs p with
  | Absent _ => Ok false
  | Forbidden e => Raise e
  | Regular _ => Ok true
  | Special _ | Directory _ _ => Ok false
  end.

Definition stat_size (fs : filesystem) (p : path) : result Z :=
  match fs p with
  | Absent e | Forbidden e => Raise e
  | Regular f | Special f => Ok (st_size f)
  | Directory size _ => Ok size
  end.

(** [path / name] as [iterdir] builds it.  A path is held by its [str()]:
    a directory with no component after its anchor reads ["."], ["/"] or
    ["//"], and its entries read [name], ["/name"] and ["//name"]; the
    entries of any other directory read [dir/name]. *)
Definition joinpath (p : path) (name : string) : path :=
  if String.eqb p "." then name
  else if orb (String.eqb p "/") (String.eqb p "//") then p ++ name
  else p ++ "/" ++ name.

Definition iterdir (fs : filesystem) (p : path) : result (list path) :=
  match fs p with
  | Directory _ listing => names ← listing; Ok (map (joinpath p) names)
  | Absent e | Forbidden e => Raise e
  | Regular _ | Special _ => Raise (OSError "Not a directory")
  end.

Definition open_rb (fs : filesystem) (p : path) : result file :=
  match fs p with
  | Absent e | Forbidden e => Raise e
  | Directory _ _ => Raise (OSError "Is a directory")
  | Regular f | Special f =>
      match open_error f with
      | Some e => Raise e
      | None => Ok f
      end
  end.

(** ** Queue items

    The tuples put on [update_queue]: [("progress", fraction)],
    [("result", fname, hash_value, algo)], [("error", fname, err, algo)]. *)
Inductive update : Type :=
| Progress (fraction : Q)
| Result (fname hash_value algo : string)
| Error (fname err algo : string).

Definition is_result (u : update) : bool :=
  match u with Result _ _ _ => true | _ => false end.
Definition is_error (u : update) : bool :=
  match u with Error _ _ _ => true | _ => false end.
Definition is_progress (u : update) : bool :=
  match u with Progress _ => true | _ => false end.
(** An Outcome is a Digest or a Failure. *)
Definition is_outcome (u : update) : bool := is_result u || is_error u.

(** ** Enumeration: the first loop of [calculate_hash] *)

Record enumeration : Type := mkEnum {
  total_bytes : Z;
  jobs : list path;
  queued : list update
}.

Definition add_job (f : path) (size : Z) (st : enumeration) : enumeration :=
  {| total_bytes := total_bytes st + size;
     jobs := jobs st ++ [f];
     queued := queued st |}.

Definition put_error (p : path) (e : exn) (algo : string) (st : enumeration)
  : enumeration :=
  {| total_bytes := total_bytes st;
     jobs := jobs st;
     queued := queued st ++ [Error p (exn_str e) algo] |}.

(** [for f in path.iterdir(): if f.is_file(): ...]; the exception, if any,
    leaves the loop with what was added so far. *)
Fixpoint scan_entries (fs : filesystem) (entries : list path) (st : enumeration)
  : enumeration * option exn :=
  match entries with
  | [] => (st, None)
  | f :: rest =>
      match is_file fs f with
      | Raise e => (st, Some e)
      | Ok false => scan_entries fs rest st
      | Ok true =>
          match stat_size fs f with
          | Raise e => (st, Some e)
          | Ok size => scan_entries fs rest (add_job f size st)
          end
      end
  end.

(** The body of the [try] for one input path. *)
Definition scan_path (fs : filesystem) (p : path) (st : enumeration)
  : enumeration * option exn :=
  match is_dir fs p with
  | Raise e => (st, Some e)
  | Ok true =>
      match iterdir fs p with
      | Raise e => (st, Some e)
      | Ok entries => scan_entries fs entries st
      end
  | Ok false =>
      match stat_size fs p with
      | Raise e => (st, Some e)
      | Ok size => (add_job p size st, None)
      end
  end.

(** [for path in paths: try: ... except Exception as e: put(("error", ...))] *)
Fixpoint enumerate (fs : filesystem) (algo : string) (paths : list path)
  (st : enumeration) : enumeration :=
  match paths with
  | [] => st
  | p :: rest =>
      let (st', raised) := scan_path fs p st in
      enumerate fs algo rest
        match raised with
        | Some e => put_error p e algo st'
        | None => st'
        end
  end.

(** ** hashlib

    The interface [hash_task] uses: [hashlib.new(name)] raises [ValueError]
    for an unsupported name; [hexdigest] takes the output length of an
    extendable-output object ([Some length]) or nothing ([None]) and raises
    [TypeError] when called the other way. *)
Class Hashlib : Type := {
  HASH : Type;
  hashlib_new : string -> result HASH;
  hash_update : HASH -> bytes -> HASH;
  hash_hexdigest : HASH -> option Z -> result string
}.

(** What the library documents: feeding the data in pieces is feeding their
    concatenation, and an extendable-output digest of [length] bytes is
    [2 * length] hexadecimal characters. *)
Class HashlibSpec (H : Hashlib) : Prop := {
  hash_update_nil : forall h, hash_update h [] = h;
  hash_update_app : forall h a b,
    hash_update (hash_update h a) b = hash_update h (a ++ b)%list;
  hash_hexdigest_length : forall h n d,
    0 <= n -> hash_hexdigest h (Some n) = Ok d ->
    Z.of_nat (String.length d) = 2 * n
}.

(** [hashlib.algorithms_guaranteed]: a set, its names listed here. *)
Definition algorithms_guaranteed : list string :=
  [ "blake2b"; "blake2s"; "md5"; "sha1"; "sha224"; "sha256"; "sha384";
    "sha3_224"; "sha3_256"; "sha3_384"; "sha3_512"; "sha512";
    "shake_128"; "shake_256" ].

(** [sorted] on strings: Python orders [str] by code point. *)
Definition str_lt (a b : string) : Prop := String.compare a b = Lt.

Fixpoint insort (a : string) (l : list string) : list string :=
  match l with
  | [] => [a]
  | b :: l' =>
      match String.compare a b with
      | Gt => b :: insort a l'
      | _ => a :: l
      end
  end.

Definition sorted (l : list string) : list string := fold_right insort [] l.

(** [self.available_algorithms = sorted(hashlib.algorithms_guaranteed)] *)
Definition available_algorithms : list string := sorted algorithms_guaranteed.

(** ** Reading a file in chunks *)

Fixpoint take (n : Z) (l : bytes) : bytes :=
  match l with
  | [] => []
  | b :: l' => if (n <=? 0)%Z then [] else b :: take (n - 1) l'
  end.

Fixpoint drop (n : Z) (l : bytes) : bytes :=
  match l with
  | [] => []
  | b :: l' => if (n <=? 0)%Z then l else drop (n - 1) l'
  end.

(** The non-empty chunks successive [read(n)] calls return before the empty
    one. *)
Fixpoint chunks_upto (fuel : nat) (n : Z) (l : bytes) : list bytes :=
  match fuel with
  | O => []
  | S fuel' =>
      match take n l with
      | [] => []
      | chunk => chunk :: chunks_upto fuel' n (drop n l)
      end
  end.

Definition chunks (n : Z) (l : bytes) : list bytes :=
  chunks_upto (length l) n l.

(** What the calls [f.read(chunk_size)] answer, in order, up to and without
    the empty chunk that ends the loop: the chunks of the content, cut
    short by the exception of the failing call, if there is one. *)
Definition read_calls (f : file) (chunk_size : Z) : list (result bytes) :=
  let cs := chunks chunk_size (content f) in
  match read_error f with
  | Some (k, e) =>
      if (k <=? length cs)%nat then (map Ok (firstn k cs) ++ [Raise e])%list
      else map Ok cs
  | None => map Ok cs
  end.

(** ** Programs over the state the threads share

    [hash_task] touches three things other threads touch too: the
    [cancel_event], the counter [hash_task.bytes_read] and the
    [update_queue].  A [prog] is the tree of these accesses, one node per
    access; everything else ([stat], [open], [read], hashing) is local to
    the task and is computed inside the tree. *)
Inductive prog (A : Type) : Type :=
| Ret (a : A)
| Throw (e : exn)
| IsSet (k : bool -> prog A)
| Load (k : Z -> prog A)
| Store (v : Z) (k : prog A)
| Put (u : update) (k : prog A).
Arguments Ret {A} a.
Arguments Throw {A} e.
Arguments IsSet {A} k.
Arguments Load {A} k.
Arguments Store {A} v k.
Arguments Put {A} u k.

Fixpoint prog_bind_def {A B} (f : A -> prog B) (p : prog A) : prog B :=
  match p with
  | Ret a => f a
  | Throw e => Throw e
  | IsSet k => IsSet (fun b => prog_bind_def f (k b))
  | Load k => Load (fun z => prog_bind_def f (k z))
  | Store v k => Store v (prog_bind_def f k)
  | Put u k => Put u (prog_bind_def f k)
  end.

#[global] Instance prog_ret : MRet prog := @Ret.
#[global] Instance prog_bind : MBind prog := @prog_bind_def.

(** [try: p except Exception as e: handler(e)] *)
Fixpoint try_except {A} (p : prog A) (handler : exn -> prog A) : prog A :=
  match p with
  | Ret a => Ret a
  | Throw e => handler e
  | IsSet k => IsSet (fun b => try_except (k b) handler)
  | Load k => Load (fun z => try_except (k z) handler)
  | Store v k => Store v (try_except k handler)
  | Put u k => Put u (try_except k handler)
  end.

Definition lift {A} (r : result A) : prog A :=
  match r with
  | Ok a => Ret a
  | Raise e => Throw e
  end.

Definition is_set : prog bool := IsSet Ret.
Definition load_bytes_read : prog Z := Load Ret.
Definition store_bytes_read (v : Z) : prog unit := Store v (Ret tt).
Definition put (u : update) : prog unit := Put u (Ret tt).

(** [a / b] on ints *)
Definition true_div (a b : Z) : result Q :=
  if (b =? 0)%Z then Raise ZeroDivisionError else Ok (inject_Z a / inject_Z b)%Q.

(** ** [hash_task] *)

(** [chunk_size]: 4 MiB for a file of more than 100 MiB, 1 MiB otherwise. *)
Definition chunk_size_of (size : Z) : Z :=
  if (size >? 1024 * 1024 * 100)%Z then 1024 * 1024 * 4 else 1024 * 1024.

Section HashTask.
Context {H : Hashlib}.
(** The file system as it is while the pool runs, and the two variables
    of [calculate_hash] the closure captures. *)
Variable fs : filesystem.
Variable algo : string.
Variable total_bytes : Z.

(** [while chunk := f.read(chunk_size): ...].  The answer is [None] when
    the body executed [return], and the accumulator when the loop ended. *)
Fixpoint read_loop (reads : list (result bytes)) (hash_obj : HASH)
  : prog (option HASH) :=
  match reads with
  | [] => mret (Some hash_obj)
  | Raise e :: _ => Throw e
  | Ok chunk :: reads' =>
      cancelled ← is_set;
      if cancelled : bool then mret None
      else
        let hash_obj := hash_update hash_obj chunk in
        bytes_read ← load_bytes_read;
        store_bytes_read (bytes_read + Z.of_nat (length chunk));;
        bytes_read ← load_bytes_read;
        fraction ← lift (true_div bytes_read total_bytes);
        put (Progress (Qmin fraction 1));;
        read_loop reads' hash_obj
  end.

Definition hash_task (file : path) (shake_length : Z) : prog unit :=
  cancelled ← is_set;
  if cancelled : bool then mret tt
  else
    size ← lift (stat_size fs file);
    let chunk_size := chunk_size_of size in
    hash_obj ← lift (hashlib_new algo);
    try_except
      (f ← lift (open_rb fs file);
       finished ← read_loop (read_calls f chunk_size) hash_obj;
       match finished with
       | None => mret tt
       | Some hash_obj =>
           digest ← lift (if str_contains "shake" algo
                          then hash_hexdigest hash_obj (Some shake_length)
                          else hash_hexdigest hash_obj None);
           put (Result file digest algo)
       end)
      (fun e => put (Error file (exn_str e) algo)).
End HashTask.

(** ** One task against its environment

    [runs p tr r]: the program [p] performs the accesses [tr] and ends with
    [r], for some answers of the environment: what [is_set()] returns and
    what the counter holds depend on the other threads, so every answer is
    a possible one. *)
Inductive action : Type :=
| AIsSet (b : bool)
| ALoad (z : Z)
| AStore (v : Z)
| APut (u : update).

Inductive runs {A : Type} : prog A -> list action -> result A -> Prop :=
| runs_Ret a : runs (Ret a) [] (Ok a)
| runs_Throw e : runs (Throw e) [] (Raise e)
| runs_IsSet k b tr r : runs (k b) tr r -> runs (IsSet k) (AIsSet b :: tr) r
| runs_Load k z tr r : runs (k z) tr r -> runs (Load k) (ALoad z :: tr) r
| runs_Store v k tr r : runs k tr r -> runs (Store v k) (AStore v :: tr) r
| runs_Put u k tr r : runs k tr r -> runs (Put u k) (APut u :: tr) r.

(** The items a sequence of accesses puts on the queue. *)
Fixpoint puts (tr : list action) : list update :=
  match tr with
  | [] => []
  | APut u :: tr' => u :: puts tr'
  | _ :: tr' => puts tr'
  end.

(** [observed_cancel tr]: some [is_set()] of the task returned [True]. *)
Definition observed_cancel (tr : list action) : Prop := In (AIsSet true) tr.

(** A run in which the environment always answers [flag] and [counter]. *)
Fixpoint run_with {A} (flag : bool) (counter : Z) (p : prog A)
  : list action * result A :=
  match p with
  | Ret a => ([], Ok a)
  | Throw e => ([], Raise e)
  | IsSet k =>
      let (tr, r) := run_with flag counter (k flag) in (AIsSet flag :: tr, r)
  | Load k =>
      let (tr, r) := run_with flag counter (k counter) in (ALoad counter :: tr, r)
  | Store v k =>
      let (tr, r) := run_with flag counter k in (AStore v :: tr, r)
  | Put u k =>
      let (tr, r) := run_with flag counter k in (APut u :: tr, r)
  end.

(** ** The window and the pool *)

(** The attributes of [MainWindow] the engine and the timers touch:
    [update_queue], [cancel_event], the fraction of [progress_bar],
    [algo], and the rows of the list boxes [ui_results] and [ui_errors].
    [Gtk.ProgressBar.set_fraction] clamps its argument to [0, 1]; every
    fraction written below is at most one, and clamping a negative one to
    zero does not change whether the bar reads one, so the fraction is
    kept as written. *)
Record MainWindow : Type := mkWindow {
  update_queue : list update;
  cancel_event : bool;
  progress_bar_fraction : Q;
  window_algo : string;
  ui_results : list HashResultRow;
  ui_errors : list HashResultRow
}.

(** A future of [executor.map]: queued, running ([p] is what is left of its
    [hash_task]), finished, or cancelled before it started. *)
Inductive task : Type :=
| Pending (file : path)
| Running (p : prog unit)
| Done (r : result unit)
| Cancelled.

(** [history] is a ghost: the accesses performed so far, each with the
    index of the task that performed it.  Nothing reads it. *)
Record pool : Type := mkPool {
  window : MainWindow;
  bytes_read : Z;
  tasks : list task;
  history : list (nat * action)
}.

(** What the environment of the pool does: a worker thread advances task
    [i] by one access ([Worker i], which also stands for a worker taking a
    queued task); the user clicks "Cancel Job" ([CancelClicked]); the
    thread of [calculate_hash], iterating over the results of
    [executor.map], meets a future that raised and cancels the futures not
    yet started ([Reraise]). *)
Inductive event : Type :=
| Worker (i : nat)
| CancelClicked
| Reraise.

Definition is_pending (t : task) : bool :=
  match t with Pending _ => true | _ => false end.
Definition is_running (t : task) : bool :=
  match t with Running _ => true | _ => false end.
Definition is_done (t : task) : bool :=
  match t with Done _ => true | _ => false end.

(** A worker takes task [i] from the FIFO work queue: every earlier task
    has been taken and fewer than [max_workers] tasks are running. *)
Definition may_start (max_workers : Z) (ts : list task) (i : nat) : bool :=
  forallb (fun t => negb (is_pending t)) (firstn i ts)
  && (Z.of_nat (length (List.filter is_running ts)) <? max_workers)%Z.

(** The first future, in submission order, that is not a normal return is
    one that raised. *)
Fixpoint first_failure_raised (ts : list task) : bool :=
  match ts with
  | Done (Ok _) :: ts' => first_failure_raised ts'
  | Done (Raise _) :: _ => true
  | _ => false
  end.

Definition cancel_pending (t : task) : task :=
  match t with
  | Pending _ => Cancelled
  | _ => t
  end.

Definition set_task (i : nat) (t : task) (c : pool) : pool :=
  {| window := window c; bytes_read := bytes_read c;
     tasks := <[i := t]> (tasks c); history := history c |}.

Definition log (i : nat) (a : action) (c : pool) : pool :=
  {| window := window c; bytes_read := bytes_read c;
     tasks := tasks c; history := (history c ++ [(i, a)])%list |}.

Definition set_bytes_read (v : Z) (c : pool) : pool :=
  {| window := window c; bytes_read := v;
     tasks := tasks c; history := history c |}.

Definition queue_put (u : update) (c : pool) : pool :=
  {| window :=
       {| update_queue := (update_queue (window c) ++ [u])%list;
          cancel_event := cancel_event (window c);
          progress_bar_fraction := progress_bar_fraction (window c);
          window_algo := window_algo (window c);
          ui_results := ui_results (window c);
          ui_errors := ui_errors (window c) |};
     bytes_read := bytes_read c; tasks := tasks c; history := history c |}.

Definition set_cancel_event (b : bool) (w : MainWindow) : MainWindow :=
  {| update_queue := update_queue w;
     cancel_event := b;
     progress_bar_fraction := progress_bar_fraction w;
     window_algo := window_algo w;
     ui_results := ui_results w;
     ui_errors := ui_errors w |}.

Section Pool.
Context {H : Hashlib}.
Variable fs : filesystem.
Variable algo : string.
Variable total_bytes : Z.
Variable max_workers : Z.

(** One access of the running program [p] of task [i]. *)
Definition access (i : nat) (p : prog unit) (c : pool) : pool :=
  match p with
  | Ret a => set_task i (Done (Ok a)) c
  | Throw e => set_task i (Done (Raise e)) c
  | IsSet k =>
      let b := cancel_event (window c) in
      set_task i (Running (k b)) (log i (AIsSet b) c)
  | Load k =>
      let z := bytes_read c in
      set_task i (Running (k z)) (log i (ALoad z) c)
  | Store v k =>
      set_task i (Running k) (log i (AStore v) (set_bytes_read v c))
  | Put u k =>
      set_task i (Running k) (log i (APut u) (queue_put u c))
  end.

Definition step (ev : event) (c : pool) : pool :=
  match ev with
  | Worker i =>
      match tasks c !! i with
      | Some (Pending file) =>
          if may_start max_workers (tasks c) i
          then set_task i (Running (hash_task fs algo total_bytes file 32)) c
          else c
      | Some (Running p) => access i p c
      | _ => c
      end
  | CancelClicked =>
      {| window := set_cancel_event true (window c);
         bytes_read := bytes_read c; tasks := tasks c; history := history c |}
  | Reraise =>
      if first_failure_raised (tasks c)
      then {| window := window c; bytes_read := bytes_read c;
              tasks := map cancel_pending (tasks c); history := history c |}
      else c
  end.

Fixpoint exec (schedule : list event) (c : pool) : pool :=
  match schedule with
  | [] => c
  | ev :: schedule' => exec schedule' (step ev c)
  end.
End Pool.

(** The accesses of task [i] in a history. *)
Fixpoint trace_of (i : nat) (h : list (nat * action)) : list action :=
  match h with
  | [] => []
  | (j, a) :: h' => if (j =? i)%nat then a :: trace_of i h' else trace_of i h'
  end.

(** ** [calculate_hash] and [start_job] *)

(** The machine the job runs on: the file system while the paths are
    enumerated, the file system while the pool hashes (files may have
    changed in between), and [os.cpu_count()]. *)
Record world : Type := mkWorld {
  fs_enum : filesystem;
  fs_hash : filesystem;
  cpu_count : Z
}.

(** [algo or self.algo]: [self.algo] for [None] and for the empty string. *)
Definition chosen_algo (self : MainWindow) (algo : option string) : string :=
  match algo with
  | Some a => if str_truthy a then a else window_algo self
  | None => window_algo self
  end.

Section Engine.
Context {H : Hashlib}.
Variable w : world.

(** [calculate_hash] up to the [with ThreadPoolExecutor(...)] statement:
    enumeration, [if total_bytes == 0: set_fraction(1.0)],
    [hash_task.bytes_read = 0], and the futures of
    [executor.map(hash_task, jobs)], all queued. *)
Definition submitted (self : MainWindow) (paths : list path) (algo : string)
  : enumeration * pool :=
  let e := enumerate (fs_enum w) algo paths
             {| total_bytes := 0; jobs := []; queued := update_queue self |} in
  let self :=
    {| update_queue := queued e;
       cancel_event := cancel_event self;
       progress_bar_fraction :=
         if (total_bytes e =? 0)%Z then 1%Q else progress_bar_fraction self;
       window_algo := window_algo self;
       ui_results := ui_results self;
       ui_errors := ui_errors self |} in
  (e, {| window := self; bytes_read := 0;
         tasks := map Pending (jobs e); history := [] |}).

(** [calculate_hash] under a schedule of the pool. *)
Definition calculate_hash (self : MainWindow) (paths : list path)
  (algo : string) (schedule : list event) : pool :=
  let (e, c) := submitted self paths algo in
  exec (fs_hash w) algo (total_bytes e) (Z.max 1 (cpu_count w - 1)) schedule c.

(** [start_job]: the part that touches the engine's state, then the
    thread of [calculate_hash]. *)
Definition start_job (self : MainWindow) (paths : list path)
  (algo : option string) (schedule : list event) : pool :=
  let self :=
    {| update_queue := update_queue self;
       cancel_event := false;
       progress_bar_fraction := 0%Q;
       window_algo := window_algo self;
       ui_results := ui_results self;
       ui_errors := ui_errors self |} in
  calculate_hash self paths (chosen_algo self algo) schedule.
End Engine.

(** ** The timers of the main loop

    [start_job] registers three callbacks with [GLib.timeout_add]; each is
    called every 100 ms for as long as it returns [True].  A call runs on
    the main thread from beginning to end.  The worker threads may put
    items while [process_queue] runs; an item it takes was put before it
    was taken and the queue is first-in first-out, so a call behaves as
    on the queue that holds what it finds. *)

Definition set_update_queue (q : list update) (self : MainWindow) : MainWindow :=
  {| update_queue := q;
     cancel_event := cancel_event self;
     progress_bar_fraction := progress_bar_fraction self;
     window_algo := window_algo self;
     ui_results := ui_results self;
     ui_errors := ui_errors self |}.

(** [self.progress_bar.set_fraction(fraction)] *)
Definition set_fraction (fraction : Q) (self : MainWindow) : MainWindow :=
  {| update_queue := update_queue self;
     cancel_event := cancel_event self;
     progress_bar_fraction := fraction;
     window_algo := window_algo self;
     ui_results := ui_results self;
     ui_errors := ui_errors self |}.

(** [MainWindow.add_result]: the row goes to the end of [ui_errors] when
    [is_error], of [ui_results] otherwise. *)
Definition add_result (fname value algorithm : string) (is_error : bool)
  (self : MainWindow) : MainWindow :=
  let row := {| file_name := fname; hash_value := value; algo := algorithm |} in
  {| update_queue := update_queue self;
     cancel_event := cancel_event self;
     progress_bar_fraction := progress_bar_fraction self;
     window_algo := window_algo self;
     ui_results := if is_error then ui_results self
                   else (ui_results self ++ [row])%list;
     ui_errors := if is_error then (ui_errors self ++ [row])%list
                  else ui_errors self |}.

(** The [while] loop of [process_queue] on the items [pending] of the
    queue.  The last [else: return False] of the source is the branch of a
    tag other than the three of [update]: there is none. *)
Fixpoint process_updates (pending : list update) (iterations : Z)
  (self : MainWindow) : MainWindow :=
  match pending with
  | [] => set_update_queue [] self
  | update :: rest =>
      if (iterations <? 8)%Z then
        match update with
        | Progress progress =>
            process_updates rest iterations (set_fraction progress self)
        | Result fname hash_value algo =>
            process_updates rest (iterations + 1)
              (add_result fname hash_value algo false self)
        | Error fname err algo =>
            process_updates rest (iterations + 1)
              (add_result fname err algo true self)
        end
      else set_update_queue pending self
  end.

(** [MainWindow.process_queue]; the boolean is the value returned:
    [True] keeps the timer. *)
Definition process_queue (self : MainWindow) : MainWindow * bool :=
  if cancel_event self then (set_update_queue [] self, false)
  else (process_updates (update_queue self) 0 self, true).

(** [self.progress_bar.get_fraction() == 1.0 or self.cancel_event.is_set()] *)
Definition job_is_over (self : MainWindow) : bool :=
  Qeq_bool (progress_bar_fraction self) 1 || cancel_event self.

(** [MainWindow.hide_progress] and [MainWindow.check_processing_complete],
    as the value returned ([True] keeps the timer).  Only the call that
    returns [False] fades the bar and the spinner out, makes the "Open"
    button and the drop-down of algorithms sensitive again and hides
    "Cancel Job". *)
Definition hide_progress (self : MainWindow) : bool :=
  if job_is_over self then false else true.

Definition check_processing_complete (self : MainWindow) : bool :=
  if job_is_over self then false else true.

(** Up to [n] calls of [process_queue] by its timer, with nothing else in
    between; the call that returns [False] is the last one. *)
Fixpoint timer_rounds (n : nat) (self : MainWindow) : MainWindow :=
  match n with
  | O => self
  | S n' =>
      let (self', keep) := process_queue self in
      if keep then timer_rounds n' self' else self'
  end.

(** ** Buttons *)

(** What [MainWindow.has_results] sets: which widgets are sensitive, and
    the two badge numbers. *)
Record sensitivity : Type := mkSensitivity {
  view_switcher : bool;
  button_save : bool;
  button_copy_all : bool;
  button_sort : bool;
  button_clear : bool;
  results_badge : nat;
  errors_badge : nat
}.

Definition has_results (self : MainWindow) : sensitivity :=
  let has_results := match ui_results self with [] => false | _ => true end in
  let has_errors := match ui_errors self with [] => false | _ => true end in
  {| view_switcher := has_results || has_errors;
     button_save := has_results || has_errors;
     button_copy_all := has_results || has_errors;
     button_sort := has_results;
     button_clear := has_results || has_errors;
     results_badge := if has_results then length (ui_results self) else O;
     errors_badge := if has_errors then length (ui_errors self) else O |}.

(** [MainWindow.on_copy_all_clicked]: what is set on the clipboard. *)
Definition on_copy_all_clicked (now : string) (self : MainWindow) : result string :=
  results_to_txt now (ui_results self) (ui_errors self).

(** The outcome of [on_file_dialog_dismissed] in [on_save_clicked]: what
    the file at the chosen path holds afterwards ([None]: it was not
    opened) and the toast. *)
Inductive toast : Type :=
| Saved
| FailedToSave (message : string).

(** [open(path, "w")] creates or empties the file before anything is
    written; [open_w] is the exception it raises, if any. *)
Definition on_save_clicked (open_w : option exn) (now : string)
  (self : MainWindow) : option string * toast :=
  match open_w with
  | Some e => (None, FailedToSave (exn_str e))
  | None =>
      match results_to_txt now (ui_results self) (ui_errors self) with
      | Ok output => (Some output, Saved)
      | Raise e => (Some "", FailedToSave (exn_str e))
      end
  end.

(** [HashResultRow.on_click_make_hashes]: the calls of [start_job], in
    order, each with its list of paths and its algorithm. *)
Definition on_click_make_hashes (available_algorithms : list string)
  (row : HashResultRow) : list (list path * option string) :=
  map (fun a => ([file_name row], Some a))
    (List.filter (fun a => negb (String.eqb a (algo row))) available_algorithms).

(** ** A reference [hashlib]

    SHA-256 (FIPS 180-4) and SHAKE128 (FIPS 202) on [Z], enough of
    [hashlib] to run the engine on concrete files. *)
Module Reference.

Definition Z_of_byte (b : byte) : Z := Z.of_N (Byte.to_N b).

Definition hex_digit (n : Z) : ascii :=
  nth (Z.to_nat n)
    ["0"; "1"; "2"; "3"; "4"; "5"; "6"; "7";
     "8"; "9"; "a"; "b"; "c"; "d"; "e"; "f"]%char "0"%char.

(** [bytes.hex()] of a list of octets *)
Fixpoint hex (octets : list Z) : string :=
  match octets with
  | [] => EmptyString
  | o :: rest => String (hex_digit (o / 16)) (String (hex_digit (o mod 16)) (hex rest))
  end.

(** Big-endian and little-endian octets of a word. *)
Fixpoint be_octets (n : nat) (x : Z) : list Z :=
  match n with
  | O => []
  | S n' => (be_octets n' (x / 256) ++ [x mod 256])%list
  end.
Fixpoint le_octets (n : nat) (x : Z) : list Z :=
  match n with
  | O => []
  | S n' => x mod 256 :: le_octets n' (x / 256)
  end.
Definition be_word (octets : list Z) : Z :=
  fold_left (fun acc o => acc * 256 + o) octets 0.
Definition le_word (octets : list Z) : Z :=
  fold_right (fun o acc => o + 256 * acc) 0 octets.

(** Cut a list into pieces of [n] elements. *)
Fixpoint pieces_upto {A} (fuel n : nat) (l : list A) : list (list A) :=
  match fuel, l with
  | O, _ | _, [] => []
  | S fuel', _ => firstn n l :: pieces_upto fuel' n (skipn n l)
  end.
Definition pieces {A} (n : nat) (l : list A) : list (list A) :=
  pieces_upto (length l) n l.

(** *** SHA-256 *)
Definition w32 (x : Z) : Z := x mod 2 ^ 32.
Definition rotr32 (n x : Z) : Z :=
  w32 (Z.lor (Z.shiftr x n) (Z.shiftl x (32 - n))).

(** The first primes. *)
Definition is_prime (p : nat) : bool :=
  forallb (fun d => negb (p mod d =? 0)%nat) (seq 2 (p - 2)).
Definition primes (n : nat) : list Z :=
  map Z.of_nat (firstn n (List.filter is_prime (seq 2 400))).

(** The integer cube root, bit by bit from bit [bits - 1] down. *)
Fixpoint icbrt_bits (bits : nat) (n r : Z) : Z :=
  match bits with
  | O => r
  | S b =>
      let r' := r + 2 ^ Z.of_nat b in
      icbrt_bits b n (if (r' * r' * r' <=? n)%Z then r' else r)
  end.
Definition icbrt (n : Z) : Z := icbrt_bits 40 n 0.

(** The round constants: the first 32 bits of the fractional parts of the
    cube roots of the first 64 primes; the initial hash value: those of
    the square roots of the first 8 primes. *)
Definition sha256_K : list Z :=
  Eval vm_compute in map (fun p => w32 (icbrt (p * 2 ^ 96))) (primes 64).

Definition sha256_H0 : list Z :=
  Eval vm_compute in map (fun p => w32 (Z.sqrt (p * 2 ^ 64))) (primes 8).

Definition sha256_pad (msg : list Z) : list Z :=
  let len := Z.of_nat (length msg) in
  (msg ++ [0x80] ++ repeat 0 (Z.to_nat ((55 - len) mod 64))
       ++ be_octets 8 (8 * len))%list.

(** The message schedule, most recent word first. *)
Fixpoint sha256_extend (n : nat) (rev_w : list Z) : list Z :=
  match n with
  | O => rev_w
  | S n' =>
      let w i := nth i rev_w 0 in
      let s0 := Z.lxor (Z.lxor (rotr32 7 (w 14%nat)) (rotr32 18 (w 14%nat)))
                       (Z.shiftr (w 14%nat) 3) in
      let s1 := Z.lxor (Z.lxor (rotr32 17 (w 1%nat)) (rotr32 19 (w 1%nat)))
                       (Z.shiftr (w 1%nat) 10) in
      sha256_extend n' (w32 (w 15%nat + s0 + w 6%nat + s1) :: rev_w)
  end.

Definition sha256_round (s : list Z) (kw : Z * Z) : list Z :=
  match s with
  | [a; b; c; d; e; f; g; h] =>
      let S1 := Z.lxor (Z.lxor (rotr32 6 e) (rotr32 11 e)) (rotr32 25 e) in
      let ch := Z.lxor (Z.land e f) (Z.land (w32 (Z.lnot e)) g) in
      let t1 := h + S1 + ch + fst kw + snd kw in
      let S0 := Z.lxor (Z.lxor (rotr32 2 a) (rotr32 13 a)) (rotr32 22 a) in
      let maj := Z.lxor (Z.lxor (Z.land a b) (Z.land a c)) (Z.land b c) in
      [w32 (t1 + S0 + maj); a; b; c; w32 (d + t1); e; f; g]
  | _ => s
  end.

Definition sha256_block (s : list Z) (block : list Z) : list Z :=
  let w := rev (sha256_extend 48 (rev (map be_word (pieces 4 block)))) in
  let s' := fold_left sha256_round (combine sha256_K w) s in
  map (fun p => w32 (fst p + snd p)) (combine s s').

Definition sha256 (msg : bytes) : list Z :=
  let blocks := pieces 64 (sha256_pad (map Z_of_byte msg)) in
  concat (map (be_octets 4) (fold_left sha256_block blocks sha256_H0)).

(** *** SHAKE128 *)
Definition w64 (x : Z) : Z := x mod 2 ^ 64.
Definition rotl64 (n x : Z) : Z :=
  w64 (Z.lor (Z.shiftl x n) (Z.shiftr x (64 - n))).

Definition keccak_RC : list Z :=
  [ 0x0000000000000001; 0x0000000000008082; 0x800000000000808A;
    0x8000000080008000; 0x000000000000808B; 0x0000000080000001;
    0x8000000080008081; 0x8000000000008009; 0x000000000000008A;
    0x0000000000000088; 0x0000000080008009; 0x000000008000000A;
    0x000000008000808B; 0x800000000000008B; 0x8000000000008089;
    0x8000000000008003; 0x8000000000008002; 0x8000000000000080;
    0x000000000000800A; 0x800000008000000A; 0x8000000080008081;
    0x8000000000008080; 0x0000000080000001; 0x8000000080008008 ].

(** Rotation offsets, lane [(x, y)] at index [x + 5 * y]. *)
Definition keccak_rot : list Z :=
  [ 0; 1; 62; 28; 27;
    36; 44; 6; 55; 20;
    3; 10; 43; 25; 39;
    41; 45; 15; 21; 8;
    18; 2; 61; 56; 14 ].

Definition lane (a : list Z) (x y : nat) : Z :=
  nth (x mod 5 + 5 * (y mod 5)) a 0.

Definition coords : list (nat * nat) :=
  flat_map (fun y => map (fun x => (x, y)) (seq 0 5)) (seq 0 5).

Definition keccak_round (a : list Z) (rc : Z) : list Z :=
  let c := map (fun x => fold_left Z.lxor (map (lane a x) (seq 0 5)) 0) (seq 0 5) in
  let d := map (fun x => Z.lxor (nth ((x + 4) mod 5) c 0)
                                (rotl64 1 (nth ((x + 1) mod 5) c 0))) (seq 0 5) in
  let theta :=
    map (fun xy => Z.lxor (lane a (fst xy) (snd xy)) (nth (fst xy) d 0)) coords in
  (* B[y, 2x + 3y] = rot(A[x, y]), that is B[x, y] = rot(A[x + 3y, x]) *)
  let b :=
    map (fun xy =>
           let x' := ((fst xy + 3 * snd xy) mod 5)%nat in
           rotl64 (lane keccak_rot x' (fst xy)) (lane theta x' (fst xy)))
        coords in
  let chi :=
    map (fun xy =>
           Z.lxor (lane b (fst xy) (snd xy))
                  (Z.land (w64 (Z.lnot (lane b (fst xy + 1) (snd xy))))
                          (lane b (fst xy + 2) (snd xy))))
        coords in
  match chi with
  | a0 :: rest => Z.lxor a0 rc :: rest
  | [] => []
  end.

Definition keccak_f (a : list Z) : list Z := fold_left keccak_round keccak_RC a.

Definition shake128_rate : nat := 168.

Definition shake128_pad (msg : list Z) : list Z :=
  let r := Z.of_nat shake128_rate in
  let fill := Z.to_nat ((r - 1 - Z.of_nat (length msg)) mod r) in
  match fill with
  | O => (msg ++ [0x9F])%list
  | S n => (msg ++ [0x1F] ++ repeat 0 n ++ [0x80])%list
  end.

Definition keccak_absorb (a : list Z) (block : list Z) : list Z :=
  let lanes := (map le_word (pieces 8 block) ++ repeat 0 4)%list in
  keccak_f (map (fun p => Z.lxor (fst p) (snd p)) (combine a lanes)).

Fixpoint keccak_squeeze (blocks : nat) (a : list Z) : list Z :=
  match blocks with
  | O => []
  | S n =>
      (firstn shake128_rate (concat (map (le_octets 8) a))
         ++ keccak_squeeze n (keccak_f a))%list
  end.

Definition shake128 (msg : bytes) (n : nat) : list Z :=
  let a := fold_left keccak_absorb
             (pieces shake128_rate (shake128_pad (map Z_of_byte msg)))
             (repeat 0 25) in
  firstn n (keccak_squeeze (S (n / shake128_rate)) a).

(** The accumulator is the algorithm and the bytes absorbed so far. *)
Inductive algorithm : Type := SHA256 | SHAKE128.

Record state : Type := mkState {
  alg : algorithm;
  absorbed : bytes
}.

Definition new (name : string) : result state :=
  if String.eqb name "sha256" then Ok {| alg := SHA256; absorbed := [] |}
  else if String.eqb name "shake_128" then Ok {| alg := SHAKE128; absorbed := [] |}
  else Raise (ValueError ("unsupported hash type " ++ name)).

Definition update (st : state) (data : bytes) : state :=
  {| alg := alg st; absorbed := (absorbed st ++ data)%list |}.

Definition hexdigest (st : state) (length : option Z) : result string :=
  match alg st, length with
  | SHA256, None => Ok (hex (sha256 (absorbed st)))
  | SHA256, Some _ =>
      Raise (TypeError "HASH.hexdigest() takes no arguments (1 given)")
  | SHAKE128, Some n =>
      if (n <? 0)%Z then Raise (ValueError "negative digest length")
      else Ok (hex (shake128 (absorbed st) (Z.to_nat n)))
  | SHAKE128, None =>
      Raise (TypeError "hexdigest() missing required argument 'length' (pos 1)")
  end.

Definition hashlib : Hashlib :=
  {| HASH := state;
     hashlib_new := new;
     hash_update := update;
     hash_hexdigest := hexdigest |}.
End Reference.

(** ** Concrete machines

    A small file system and two machines, on which the engine is run in
    the examples below. *)

Definition plain (data : bytes) : file :=
  {| st_size := Z.of_nat (length data); content := data;
     open_error := None; read_error := None |}.

(** [str(e)] of the [FileNotFoundError] of [stat] and [open]. *)
Definition enoent (p : path) : exn :=
  OSError ("[Errno 2] No such file or directory: '" ++ p ++ "'").

(** [str(e)] of a [PermissionError]. *)
Definition eacces (p : path) : exn :=
  OSError ("[Errno 13] Permission denied: '" ++ p ++ "'").

Definition home : filesystem := fun p =>
  if String.eqb p "/d" then Directory 4096 (Ok ["a"; "sub"; "b"])
  else if String.eqb p "/d/a" then Regular (plain (list_byte_of_string "x"))
  else if String.eqb p "/d/b" then Regular (plain (list_byte_of_string "y"))
  else if String.eqb p "/d/sub" then Directory 4096 (Ok ["c"])
  else if String.eqb p "/d/sub/c" then Regular (plain (list_byte_of_string "z"))
  else if String.eqb p "/hello" then Regular (plain (list_byte_of_string "helloworld"))
  else if String.eqb p "/fifo" then Special (plain [])
  else if String.eqb p "/empty" then Regular (plain [])
  else if String.eqb p "/void" then Regular (plain [])
  else if String.eqb p "/locked" then Directory 4096 (Ok ["a"; "secret"; "b"])
  else if String.eqb p "/locked/a" then Regular (plain (list_byte_of_string "x"))
  else if String.eqb p "/locked/secret" then Forbidden (eacces p)
  else if String.eqb p "/locked/b" then Regular (plain (list_byte_of_string "y"))
  else if String.eqb p "/noperm" then
    Regular {| st_size := 3; content := list_byte_of_string "abc";
               open_error := Some (eacces p); read_error := None |}
  else if String.eqb p "/bad" then
    Regular {| st_size := 3; content := list_byte_of_string "abc";
               open_error := None;
               read_error := Some (O, OSError "[Errno 5] Input/output error") |}
  else if String.eqb p "/private" then Directory 4096 (Raise (eacces p))
  else if String.eqb p "/" then
    Directory 4096
      (Ok ["bad"; "d"; "empty"; "fifo"; "hello"; "locked"; "noperm"; "private";
           "void"])
  else if String.eqb p "." then Directory 4096 (Ok ["notes"])
  else if String.eqb p "notes" then Regular (plain (list_byte_of_string "todo"))
  else Absent (enoent p).

(** [home] after [rm /d/a]. *)
Definition home_without_a : filesystem := fun p =>
  if String.eqb p "/d/a" then Absent (enoent p) else home p.

(** [home] after bytes were appended to [/empty]. *)
Definition home_grown : filesystem := fun p =>
  if String.eqb p "/empty" then Regular (plain (list_byte_of_string "late"))
  else home p.

(** A machine with three CPUs, hence two workers. *)
Definition desktop : world :=
  {| fs_enum := home; fs_hash := home; cpu_count := 3 |}.

(** A machine with two CPUs, hence one worker. *)
Definition laptop : world :=
  {| fs_enum := home; fs_hash := home; cpu_count := 2 |}.

(** The same machine when [/d/a] is removed after the enumeration. *)
Definition desktop_rm : world :=
  {| fs_enum := home; fs_hash := home_without_a; cpu_count := 3 |}.

(** A window that has just been built. *)
Definition fresh_window : MainWindow :=
  {| update_queue := []; cancel_event := false; progress_bar_fraction := 0;
     window_algo := "sha256"; ui_results := []; ui_errors := [] |}.

(** [n] steps of the worker of task [i]. *)
Definition serial (i n : nat) : list event := repeat (Worker i) n.

(** ** Vocabulary of the properties *)

(** The Outcomes (Digests and Failures) among the items a task puts. *)
Definition outcomes (tr : list action) : list update :=
  List.filter is_outcome (puts tr).

(** The fractions of the progress items of a queue, in order. *)
Fixpoint progress_fractions (q : list update) : list Q :=
  match q with
  | [] => []
  | Progress fraction :: q' => fraction :: progress_fractions q'
  | _ :: q' => progress_fractions q'
  end.

(** The progress items [hash_task] puts: a fraction capped at one. *)
Definition progress_event (u : update) : Prop :=
  exists q, u = Progress (Qmin q 1).

(** The row [process_queue] adds for an Outcome. *)
Definition row_of (u : update) : list HashResultRow :=
  match u with
  | Progress _ => []
  | Result fname value algorithm | Error fname value algorithm =>
      [{| file_name := fname; hash_value := value; algo := algorithm |}]
  end.

(** The rows a list of queue items adds to [ui_results] and to
    [ui_errors]. *)
Definition result_rows (q : list update) : list HashResultRow :=
  flat_map row_of (List.filter is_result q).
Definition error_rows (q : list update) : list HashResultRow :=
  flat_map row_of (List.filter is_error q).

(** What [stat] reports for a node, and the jobs a list of files adds. *)
Definition is_regular (n : node) : bool :=
  match n with Regular _ => true | _ => false end.

Definition node_size (n : node) : Z :=
  match n with
  | Regular f | Special f => st_size f
  | Directory size _ => size
  | Absent _ | Forbidden _ => 0
  end.

Definition add_jobs (fs : filesystem) (files : list path) (st : enumeration)
  : enumeration :=
  fold_left (fun st f => add_job f (node_size (fs f)) st) files st.

(** [is_file] answers on [p] without raising. *)
Definition inspectable (fs : filesystem) (p : path) : Prop :=
  forall e, fs p <> Forbidden e.

(** A file that opens and reads to its end without an error. *)
Definition readable (fs : filesystem) (p : path) (data : bytes) : Prop :=
  exists f, open_rb fs p = Ok f /\ read_error f = None /\ content f = data.

Section Vocabulary.
Context {H : Hashlib}.
Variable fs : filesystem.
Variable algo : string.
Variable total_bytes : Z.

(** What a task puts after its loop: nothing if the loop returned, the
    Digest (or the Failure of [hexdigest]) if it ended, the Failure of
    the exception if it raised. *)
Definition finish (file : path) (shake_length : Z)
  (loop : result (option HASH)) : list action :=
  match loop with
  | Ok None => []
  | Ok (Some hash_obj) =>
      match (if str_contains "shake" algo
             then hash_hexdigest hash_obj (Some shake_length)
             else hash_hexdigest hash_obj None) with
      | Ok digest => [APut (Result file digest algo)]
      | Raise e => [APut (Error file (exn_str e) algo)]
      end
  | Raise e => [APut (Error file (exn_str e) algo)]
  end.

(** [hexdigest] as [hash_task] calls it on the accumulator. *)
Definition hexdigest_of (hash_obj : HASH) (shake_length : Z) : result string :=
  if str_contains "shake" algo
  then hash_hexdigest hash_obj (Some shake_length)
  else hash_hexdigest hash_obj None.

(** The jobs submitted and the queue as it was when they were. *)
Variable submitted_jobs : list path.
Variable queue0 : list update.

(** Task [t] of job [file], having performed the accesses [tr], is
    somewhere on a run of [hash_task file]. *)
Definition task_ok (file : path) (tr : list action) (t : task) : Prop :=
  match t with
  | Pending file' => file' = file /\ tr = []
  | Cancelled => tr = []
  | Running p =>
      forall tr' r, runs p tr' r ->
        runs (hash_task fs algo total_bytes file 32) (tr ++ tr') r
  | Done r => runs (hash_task fs algo total_bytes file 32) tr r
  end.

Record pool_inv (c : pool) : Prop := mkPoolInv {
  inv_tasks : forall i file, submitted_jobs !! i = Some file ->
    exists t, tasks c !! i = Some t /\ task_ok file (trace_of i (history c)) t;
  inv_length : length (tasks c) = length submitted_jobs;
  inv_queue :
    update_queue (window c) = (queue0 ++ puts (map snd (history c)))%list;
  inv_bound : Forall (fun x => (fst x < length submitted_jobs)%nat) (history c)
}.
End Vocabulary.

(** Task [i], of job [file], had not started when the flag was set: it
    is still queued, or cancelled, or it has made its first [is_set()]
    call, seen the flag set and returned. *)
Definition stopped_at_start {H : Hashlib} (fs : filesystem) (algo : string)
  (total_bytes : Z) (i : nat) (file : path) (c : pool) : Prop :=
  cancel_event (window c) = true
  /\ match tasks c !! i with
     | Some (Pending file') => file' = file /\ trace_of i (history c) = []
     | Some Cancelled => trace_of i (history c) = []
     | Some (Running p) =>
         (p = hash_task fs algo total_bytes file 32
          /\ trace_of i (history c) = [])
         \/ (p = Ret tt /\ trace_of i (history c) = [AIsSet true])
     | Some (Done r) => r = Ok tt /\ trace_of i (history c) = [AIsSet true]
     | None => False
     end.

(** A run of [p] alone: the flag is never set and the counter holds what
    the task itself stored last.  The answer is what [p] puts, the counter
    at the end and the result. *)
Fixpoint run_alone {A} (counter : Z) (p : prog A) : list update * Z * result A :=
  match p with
  | Ret a => ([], counter, Ok a)
  | Throw e => ([], counter, Raise e)
  | IsSet k => run_alone counter (k false)
  | Load k => run_alone counter (k counter)
  | Store v k => run_alone v k
  | Put u k =>
      let '(us, counter', r) := run_alone counter k in (u :: us, counter', r)
  end.

(** The accesses of the same run, and its result. *)
Fixpoint trace_alone {A} (counter : Z) (p : prog A) : list action * result A :=
  match p with
  | Ret a => ([], Ok a)
  | Throw e => ([], Raise e)
  | IsSet k =>
      let (tr, r) := trace_alone counter (k false) in (AIsSet false :: tr, r)
  | Load k =>
      let (tr, r) := trace_alone counter (k counter) in (ALoad counter :: tr, r)
  | Store v k => let (tr, r) := trace_alone v k in (AStore v :: tr, r)
  | Put u k => let (tr, r) := trace_alone counter k in (APut u :: tr, r)
  end.

(** [rising lo l]: the fractions [l] never decrease and start at [lo] or
    above. *)
Fixpoint rising (lo : Q) (l : list Q) : Prop :=
  match l with
  | [] => True
  | q :: l' => (lo <= q)%Q /\ rising q l'
  end.

(** The fraction [hash_task] puts when the counter holds [counter]. *)
Definition fraction_of (total_bytes counter : Z) : Q :=
  Qmin (inject_Z counter / inject_Z total_bytes) 1.

(** The progress items among [us] never decrease from [lo] on, and the
    last of them is at most the fraction of [counter]. *)
Definition steady (total_bytes : Z) (lo : Q) (us : list update) (counter : Z)
  : Prop :=
  rising lo (progress_fractions us)
  /\ (List.last (progress_fractions us) lo <= fraction_of total_bytes counter)%Q.

(** [good total_bytes lo c p]: alone, from the counter [c], the program
    [p] puts fractions that never decrease from [lo] on and stay at or
    below the fraction of the counter it ends with. *)
Definition good {A} (total_bytes : Z) (lo : Q) (c : Z) (p : prog A) : Prop :=
  steady total_bytes lo (fst (fst (run_alone c p))) (snd (fst (run_alone c p))).

(** The pool with one worker and no cancellation: at most one task is
    running, and what has been put so far followed by what the running
    task would put alone (or what has been put, when no task is running)
    never decreases. *)
Definition alone_inv (total_bytes : Z) (lo : Q) (c : pool) : Prop :=
  cancel_event (window c) = false
  /\ (forall i j p q, tasks c !! i = Some (Running p) ->
        tasks c !! j = Some (Running q) -> i = j)
  /\ (forall i p, tasks c !! i = Some (Running p) ->
        steady total_bytes lo
          (puts (map snd (history c)) ++ fst (fst (run_alone (bytes_read c) p)))
          (snd (fst (run_alone (bytes_read c) p))))
  /\ (Forall (fun t => is_running t = false) (tasks c) ->
      steady total_bytes lo (puts (map snd (history c))) (bytes_read c)).

(** The number of bytes [open] and [read] give for a file, and the bytes
    of the files of the tasks still queued. *)
Definition content_length (fs : filesystem) (p : path) : Z :=
  match open_rb fs p with
  | Ok f => Z.of_nat (length (content f))
  | Raise _ => 0
  end.

Definition task_bytes (fs : filesystem) (t : task) : Z :=
  match t with
  | Pending file => content_length fs file
  | _ => 0
  end.

Definition pending_bytes (fs : filesystem) (ts : list task) : Z :=
  fold_right Z.add 0 (map (task_bytes fs) ts).

(** The pool with one worker, no cancellation and files that read to
    their end: no task raises, the counter at the end of the running task
    and the bytes of the queued tasks add up to [total_bytes], and the last
    fraction, once the running task has finished, is the fraction of the
    counter. *)
Definition exact_inv (fs : filesystem) (total_bytes : Z) (c : pool) : Prop :=
  cancel_event (window c) = false
  /\ (forall i j p q, tasks c !! i = Some (Running p) ->
        tasks c !! j = Some (Running q) -> i = j)
  /\ (forall i p, tasks c !! i = Some (Running p) ->
        snd (run_alone (bytes_read c) p) = Ok tt
        /\ (List.last
              (progress_fractions
                 (puts (map snd (history c))
                  ++ fst (fst (run_alone (bytes_read c) p)))) 0
            == fraction_of total_bytes (snd (fst (run_alone (bytes_read c) p))))%Q
        /\ snd (fst (run_alone (bytes_read c) p)) + pending_bytes fs (tasks c)
           = total_bytes)
  /\ (Forall (fun t => is_running t = false) (tasks c) ->
      (List.last (progress_fractions (puts (map snd (history c)))) 0
       == fraction_of total_bytes (bytes_read c))%Q
      /\ bytes_read c + pending_bytes fs (tasks c) = total_bytes)
  /\ (forall i file, tasks c !! i = Some (Pending file) ->
        exists data, readable fs file data)
  /\ (forall i r, tasks c !! i = Some (Done r) -> r = Ok tt).

(** One turn of the read loop that does not see the flag set, for the
    chunk [chunk]: [is_set()], [bytes_read += len(chunk)] (the counter is
    read, [z], and written), and the progress item computed from the
    counter read again, [z']. *)
Definition chunk_accesses (total_bytes : Z) (turn : bytes * (Z * Z))
  : list action :=
  let '(chunk, (z, z')) := turn in
  [AIsSet false; ALoad z; AStore (z + Z.of_nat (length chunk)); ALoad z';
   APut (Progress (Qmin (inject_Z z' / inject_Z total_bytes) 1))].

(** The sum of the sizes [stat] reports for a list of files. *)
Definition sizes (fs : filesystem) (files : list path) : Z :=
  fold_right Z.add 0 (map (fun f => node_size (fs f)) files).

(** The user clicks "Cancel Job". *)
Definition is_click (ev : event) : bool :=
  match ev with CancelClicked => true | _ => false end.

(** Without a click, no task ever sees the flag set. *)
Definition unclicked (c : pool) : Prop :=
  cancel_event (window c) = false
  /\ Forall (fun x => snd x <> AIsSet true) (history c).


(** * Properties *)

(** ** The exported report *)

Lemma str_truthy_app_r (a b : string) :
  str_truthy b = true -> str_truthy (a ++ b) = true.
Proof. destruct a; simpl; auto. Qed.

Lemma HashResultRow_str_truthy (r : HashResultRow) :
  str_truthy (HashResultRow_str r) = true.
Proof. unfold HashResultRow_str. apply str_truthy_app_r. reflexivity. Qed.

Lemma str_truthy_app_l (a b : string) :
  str_truthy a = true -> str_truthy (a ++ b) = true.
Proof. destruct a; simpl; [discriminate | reflexivity]. Qed.

Lemma str_app_assoc (a b c : string) : (a ++ b) ++ c = a ++ (b ++ c).
Proof. induction a as [|ch a IH]; simpl; [reflexivity | now rewrite IH]. Qed.

(** The joined text of a non-empty list of rows is a non-empty string. *)
Lemma rows_text_truthy (r : HashResultRow) (rs : list HashResultRow) :
  str_truthy (String.concat nl (map HashResultRow_str (r :: rs))) = true.
Proof.
  simpl. destruct (map HashResultRow_str rs).
  - apply HashResultRow_str_truthy.
  - apply str_truthy_app_l, HashResultRow_str_truthy.
Qed.

(** With at least one Digest the report is returned: the Results section,
    whose last line carries a trailing blank, then the Errors section if
    there is a Failure. *)
Lemma results_to_txt_with_results_eq (now : string) (r : HashResultRow)
  (rs errors : list HashResultRow) :
  results_to_txt now (r :: rs) errors =
  Ok ("Results - Saved on " ++ now ++ ":" ++ nl ++ str_mul "-" 40 ++ nl
      ++ String.concat nl (map HashResultRow_str (r :: rs)) ++ " "
      ++ match errors with
         | [] => nl
         | _ :: _ =>
             nl ++ nl ++ "Errors - Saved on " ++ now ++ ":" ++ nl
             ++ str_mul "-" 40 ++ nl
             ++ String.concat nl (map HashResultRow_str errors) ++ nl
         end).
Proof.
  unfold results_to_txt. rewrite rows_text_truthy.
  destruct errors as [|e es].
  - reflexivity.
  - rewrite rows_text_truthy. cbn [mbind result_bind]. f_equal.
    rewrite !str_app_assoc. reflexivity.
Qed.

(** C4 (code defect).  With no Digest and at least one Failure,
    [results_to_txt] does not return the report made of the Errors section
    alone: the local [output] was never assigned and reading it raises
    [UnboundLocalError]. *)
Theorem results_to_txt_errors_only (now : string) (e : HashResultRow)
  (es : list HashResultRow) :
  results_to_txt now [] (e :: es) = Raise (UnboundLocalError "output").
Proof.
  unfold results_to_txt. rewrite rows_text_truthy. reflexivity.
Qed.

(** With neither Digest nor Failure the function raises as well. *)
Lemma results_to_txt_empty (now : string) :
  results_to_txt now [] [] = Raise (UnboundLocalError "output").
Proof. reflexivity. Qed.

(** ** Enumeration *)

Lemma enumerate_app (fs : filesystem) (algo : string) (ps qs : list path)
  (st : enumeration) :
  enumerate fs algo (ps ++ qs) st = enumerate fs algo qs (enumerate fs algo ps st).
Proof.
  revert st. induction ps as [|p ps IH]; intros st; simpl; [reflexivity|].
  destruct (scan_path fs p st) as [st' [e|]]; apply IH.
Qed.

Lemma enumerate_one (fs : filesystem) (algo : string) (before after : list path)
  (p : path) (st : enumeration) :
  enumerate fs algo (before ++ p :: after) st =
  enumerate fs algo after
    (let (st', raised) := scan_path fs p (enumerate fs algo before st) in
     match raised with
     | Some e => put_error p e algo st'
     | None => st'
     end).
Proof.
  rewrite enumerate_app. simpl.
  destruct (scan_path fs p (enumerate fs algo before st)) as [st' [e|]]; reflexivity.
Qed.

(** Enumeration only appends to the queue, and only Failures. *)
Lemma scan_entries_queued (fs : filesystem) (entries : list path)
  (st : enumeration) :
  queued (fst (scan_entries fs entries st)) = queued st.
Proof.
  revert st. induction entries as [|f rest IH]; intros st; simpl; [reflexivity|].
  destruct (is_file fs f) as [[|]|e]; simpl; auto.
  destruct (stat_size fs f) as [size|e]; simpl; auto.
  rewrite IH. reflexivity.
Qed.

Lemma scan_path_queued (fs : filesystem) (p : path) (st : enumeration) :
  queued (fst (scan_path fs p st)) = queued st.
Proof.
  unfold scan_path.
  destruct (is_dir fs p) as [[|]|e]; simpl; auto.
  - destruct (iterdir fs p) as [entries|e]; simpl; auto using scan_entries_queued.
  - destruct (stat_size fs p) as [size|e]; reflexivity.
Qed.

Lemma enumerate_queued (fs : filesystem) (algo : string) (paths : list path)
  (st : enumeration) :
  exists errors,
    queued (enumerate fs algo paths st) = (queued st ++ errors)%list
    /\ Forall (fun u => is_error u = true) errors.
Proof.
  revert st. induction paths as [|p rest IH]; intros st; simpl.
  - exists []. split; [symmetry; apply app_nil_r | constructor].
  - pose proof (scan_path_queued fs p st) as Hq.
    destruct (scan_path fs p st) as [st' [e|]]; simpl in Hq.
    + destruct (IH (put_error p e algo st')) as (errors & -> & Herr).
      exists (Error p (exn_str e) algo :: errors). simpl. rewrite Hq.
      split; [rewrite <- app_assoc; reflexivity | constructor; auto].
    + destruct (IH st') as (errors & -> & Herr).
      exists errors. rewrite Hq. auto.
Qed.

(** C6 (as amended).  An input path that cannot be statted (a missing path)
    adds no Job and puts exactly one Failure keyed on that path, and the
    paths that follow are enumerated as usual.  An input path that is a
    special file is statted and added as a Job, like a regular file: the
    [else] branch has no [is_file] test. *)
Theorem enumerate_non_directory (fs : filesystem) (algo : string)
  (before after : list path) (p : path) (st : enumeration) :
  (forall e, stat_size fs p = Raise e ->
     enumerate fs algo (before ++ p :: after) st =
     enumerate fs algo after (put_error p e algo (enumerate fs algo before st)))
  /\ (forall f, fs p = Special f ->
        enumerate fs algo (before ++ p :: after) st =
        enumerate fs algo after (add_job p (st_size f) (enumerate fs algo before st))).
Proof.
  split.
  - intros e He. rewrite enumerate_one. f_equal.
    unfold scan_path, is_dir. unfold stat_size in He.
    destruct (fs p) eqn:E; try discriminate; simpl.
    + unfold stat_size. rewrite E. congruence.
    + congruence.
  - intros f E. rewrite enumerate_one. f_equal.
    unfold scan_path, is_dir, stat_size. rewrite E. reflexivity.
Qed.

Lemma add_jobs_eq (fs : filesystem) (files : list path) (st : enumeration) :
  add_jobs fs files st
  = {| total_bytes := total_bytes st + sizes fs files;
       jobs := jobs st ++ files;
       queued := queued st |}.
Proof.
  unfold add_jobs, sizes. revert st.
  induction files as [|f files IH]; intros st; simpl.
  - destruct st; simpl. rewrite Z.add_0_r, app_nil_r. reflexivity.
  - rewrite IH. unfold add_job. simpl. f_equal; [lia|].
    rewrite <- app_assoc. reflexivity.
Qed.

(** The loop over the entries, as far as [is_file] answers. *)
Lemma scan_entries_seen (fs : filesystem) (seen rest : list path)
  (st : enumeration) :
  Forall (inspectable fs) seen ->
  scan_entries fs (seen ++ rest) st
  = scan_entries fs rest
      (add_jobs fs (List.filter (fun f => is_regular (fs f)) seen) st).
Proof.
  intros Hall. revert st.
  induction Hall as [|f seen Hf _ IH]; intros st; simpl; [reflexivity|].
  unfold is_file, stat_size. destruct (fs f) as [e|e|file|file|size listing] eqn:E;
    simpl; rewrite ?E; simpl; try apply IH.
  exfalso. exact (Hf e E).
Qed.


(** ** Runs of a program *)

Lemma runs_bind_inv {A B} (p : prog A) (f : A -> prog B) tr r :
  runs (p ≫= f) tr r ->
  (exists tr1 a tr2,
      runs p tr1 (Ok a) /\ runs (f a) tr2 r /\ tr = (tr1 ++ tr2)%list)
  \/ (exists e, runs p tr (Raise e) /\ r = Raise e).
Proof.
  revert tr. induction p as [a|e|k IH|k IH|v k IH|u k IH]; intros tr Hr;
    cbn in Hr.
  - left. exists [], a, tr. repeat split; [constructor | assumption].
  - inversion Hr; subst. right. exists e. split; constructor.
  - inversion Hr as [| |k' b tr' r' Hk| | |]; subst.
    destruct (IH b tr' Hk) as [(tr1 & a & tr2 & H1 & H2 & ->)|(e & H1 & ->)].
    + left. exists (AIsSet b :: tr1), a, tr2. repeat split; [constructor|..]; assumption.
    + right. exists e. split; [constructor; assumption | reflexivity].
  - inversion Hr as [| | |k' z tr' r' Hk| |]; subst.
    destruct (IH z tr' Hk) as [(tr1 & a & tr2 & H1 & H2 & ->)|(e & H1 & ->)].
    + left. exists (ALoad z :: tr1), a, tr2. repeat split; [constructor|..]; assumption.
    + right. exists e. split; [constructor; assumption | reflexivity].
  - inversion Hr as [| | | |v' k' tr' r' Hk|]; subst.
    destruct (IH tr' Hk) as [(tr1 & a & tr2 & H1 & H2 & ->)|(e & H1 & ->)].
    + left. exists (AStore v :: tr1), a, tr2. repeat split; [constructor|..]; assumption.
    + right. exists e. split; [constructor; assumption | reflexivity].
  - inversion Hr as [| | | | |u' k' tr' r' Hk]; subst.
    destruct (IH tr' Hk) as [(tr1 & a & tr2 & H1 & H2 & ->)|(e & H1 & ->)].
    + left. exists (APut u :: tr1), a, tr2. repeat split; [constructor|..]; assumption.
    + right. exists e. split; [constructor; assumption | reflexivity].
Qed.

Lemma runs_try_except_inv {A} (p : prog A) (handler : exn -> prog A) tr r :
  runs (try_except p handler) tr r ->
  (exists a, runs p tr (Ok a) /\ r = Ok a)
  \/ (exists tr1 e tr2,
         runs p tr1 (Raise e) /\ runs (handler e) tr2 r /\ tr = (tr1 ++ tr2)%list).
Proof.
  revert tr. induction p as [a|e|k IH|k IH|v k IH|u k IH]; intros tr Hr;
    cbn in Hr.
  - inversion Hr; subst. left. exists a. split; constructor.
  - right. exists [], e, tr. repeat split; [constructor | assumption].
  - inversion Hr as [| |k' b tr' r' Hk| | |]; subst.
    destruct (IH b tr' Hk) as [(a & H1 & ->)|(tr1 & e & tr2 & H1 & H2 & ->)].
    + left. exists a. split; [constructor; assumption | reflexivity].
    + right. exists (AIsSet b :: tr1), e, tr2. repeat split; [constructor|..]; assumption.
  - inversion Hr as [| | |k' z tr' r' Hk| |]; subst.
    destruct (IH z tr' Hk) as [(a & H1 & ->)|(tr1 & e & tr2 & H1 & H2 & ->)].
    + left. exists a. split; [constructor; assumption | reflexivity].
    + right. exists (ALoad z :: tr1), e, tr2. repeat split; [constructor|..]; assumption.
  - inversion Hr as [| | | |v' k' tr' r' Hk|]; subst.
    destruct (IH tr' Hk) as [(a & H1 & ->)|(tr1 & e & tr2 & H1 & H2 & ->)].
    + left. exists a. split; [constructor; assumption | reflexivity].
    + right. exists (AStore v :: tr1), e, tr2. repeat split; [constructor|..]; assumption.
  - inversion Hr as [| | | | |u' k' tr' r' Hk]; subst.
    destruct (IH tr' Hk) as [(a & H1 & ->)|(tr1 & e & tr2 & H1 & H2 & ->)].
    + left. exists a. split; [constructor; assumption | reflexivity].
    + right. exists (APut u :: tr1), e, tr2. repeat split; [constructor|..]; assumption.
Qed.

Lemma runs_mret_inv {A} (a : A) tr r :
  runs (mret a) tr r -> tr = [] /\ r = Ok a.
Proof. intros Hr. inversion Hr; subst. split; reflexivity. Qed.

Lemma runs_lift_inv {A} (x : result A) tr r :
  runs (lift x) tr r -> tr = [] /\ r = x.
Proof. destruct x; intros Hr; inversion Hr; subst; split; reflexivity. Qed.

Lemma runs_is_set_inv tr r :
  runs is_set tr r -> exists b, tr = [AIsSet b] /\ r = Ok b.
Proof.
  intros Hr. inversion Hr as [| |k b tr' r' Hk| | |]; subst.
  inversion Hk; subst. exists b. split; reflexivity.
Qed.

Lemma runs_load_inv tr r :
  runs load_bytes_read tr r -> exists z, tr = [ALoad z] /\ r = Ok z.
Proof.
  intros Hr. inversion Hr as [| | |k z tr' r' Hk| |]; subst.
  inversion Hk; subst. exists z. split; reflexivity.
Qed.

Lemma runs_store_inv v tr r :
  runs (store_bytes_read v) tr r -> tr = [AStore v] /\ r = Ok tt.
Proof.
  intros Hr. inversion Hr as [| | | |v' k tr' r' Hk|]; subst.
  inversion Hk; subst. split; reflexivity.
Qed.

Lemma runs_put_inv u tr r :
  runs (put u) tr r -> tr = [APut u] /\ r = Ok tt.
Proof.
  intros Hr. inversion Hr as [| | | | |u' k tr' r' Hk]; subst.
  inversion Hk; subst. split; reflexivity.
Qed.

(** Every program has a run, whatever the environment answers. *)
Lemma runs_run_with {A} (flag : bool) (counter : Z) (p : prog A) :
  runs p (fst (run_with flag counter p)) (snd (run_with flag counter p)).
Proof.
  induction p as [a|e|k IH|k IH|v k IH|u k IH]; simpl.
  - constructor.
  - constructor.
  - specialize (IH flag). destruct (run_with flag counter (k flag)). constructor. exact IH.
  - specialize (IH counter). destruct (run_with flag counter (k counter)). constructor. exact IH.
  - destruct (run_with flag counter k). constructor. exact IH.
  - destruct (run_with flag counter k). constructor. exact IH.
Qed.

Lemma puts_app (tr1 tr2 : list action) :
  puts (tr1 ++ tr2) = (puts tr1 ++ puts tr2)%list.
Proof.
  induction tr1 as [|[b|z|v|u] tr1 IH]; simpl; rewrite ?IH; reflexivity.
Qed.

Lemma In_puts (u : update) (tr : list action) :
  In u (puts tr) <-> In (APut u) tr.
Proof.
  induction tr as [|[b|z|v|u'] tr IH]; simpl; [tauto|..]; rewrite IH;
    intuition (try discriminate; try congruence).
Qed.

(** ** Runs of [hash_task] *)

Ltac runs_inv :=
  repeat match goal with
    | H : runs (Ret _) _ _ |- _ => inversion H; subst; clear H
    | H : runs (Throw _) _ _ |- _ => inversion H; subst; clear H
    | H : runs (IsSet _) _ _ |- _ => inversion H; subst; clear H
    | H : runs (Load _) _ _ |- _ => inversion H; subst; clear H
    | H : runs (Store _ _) _ _ |- _ => inversion H; subst; clear H
    | H : runs (Put _ _) _ _ |- _ => inversion H; subst; clear H
    | H : runs (mret _) _ _ |- _ => apply runs_mret_inv in H as (-> & ?)
    | H : runs (lift _) _ _ |- _ => apply runs_lift_inv in H as (-> & ?)
    | H : runs is_set _ _ |- _ => apply runs_is_set_inv in H as (? & -> & ?)
    | H : runs (put _) _ _ |- _ => apply runs_put_inv in H as (-> & ?)
    | H : runs (_ ≫= _) _ _ |- _ =>
        apply runs_bind_inv in H as [(? & ? & ? & ? & H & ->)|(? & ? & ->)]
    | H : runs (try_except _ _) _ _ |- _ =>
        apply runs_try_except_inv in H as [(? & H & ->)|(? & ? & ? & ? & H & ->)]
    | H : ?r = Ok _ |- _ => is_var r; subst r
    | H : ?r = Raise _ |- _ => is_var r; subst r
    | H : @Ok _ _ = Raise _ |- _ => discriminate H
    | H : @Raise _ _ = Ok _ |- _ => discriminate H
    | H : @Ok _ ?a = Ok ?b |- _ =>
        first [is_var a | is_var b]; injection H as H; first [subst a | subst b]
    | H : @Raise _ ?a = Raise ?b |- _ =>
        first [is_var a | is_var b]; injection H as H; first [subst a | subst b]
    end.

Section HashTaskRuns.
Context {H : Hashlib}.
Variable fs : filesystem.
Variable algo : string.
Variable total_bytes : Z.

Lemma read_loop_runs (reads : list (result bytes)) (h : HASH) tr r :
  runs (read_loop total_bytes reads h) tr r ->
  Forall progress_event (puts tr)
  /\ match r with
     | Ok None => observed_cancel tr
     | Ok (Some h') =>
         ~ observed_cancel tr
         /\ exists cs, reads = map Ok cs /\ h' = fold_left hash_update cs h
     | Raise e => ~ observed_cancel tr
     end.
Proof.
  revert h tr r. induction reads as [|[chunk|e] reads IH]; intros h tr r Hr.
  - cbn in Hr. runs_inv. split; [constructor|]. split.
    + unfold observed_cancel; simpl; tauto.
    + exists []. split; reflexivity.
  - cbn in Hr. inversion Hr as [| |k b tr' r' Hk| | |]; subst; clear Hr.
    destruct b.
    + runs_inv. split; [constructor|]. unfold observed_cancel; simpl. tauto.
    + runs_inv.
      * apply IH in H6 as (HF & Hr). split.
        { simpl. constructor; [eexists; reflexivity | exact HF]. }
        assert (Hobs : observed_cancel
                  (AIsSet false :: ALoad z
                     :: AStore (z + Z.of_nat (length chunk))
                     :: ALoad z0 :: [] ++ APut (Progress (Qmin x0 1)) :: tr)
                <-> observed_cancel tr).
        { unfold observed_cancel; simpl.
          intuition (try discriminate; try congruence). }
        destruct r as [[h'|]|e].
        -- destruct Hr as (Hn & cs & -> & ->). rewrite Hobs. split; [exact Hn|].
           exists (chunk :: cs). split; reflexivity.
        -- rewrite Hobs. exact Hr.
        -- rewrite Hobs. exact Hr.
      * split; [constructor|]. unfold observed_cancel; simpl.
        intuition (try discriminate; try congruence).
  - cbn in Hr. runs_inv. split; [constructor|]. unfold observed_cancel; simpl. tauto.
Qed.

(** A loop whose reads all succeed, that never sees the flag set and
    never divides by zero, ends at end-of-file with every chunk hashed. *)
Lemma read_loop_reaches_eof (cs : list bytes) (h : HASH) tr r :
  runs (read_loop total_bytes (map Ok cs) h) tr r ->
  ~ observed_cancel tr ->
  total_bytes <> 0 \/ cs = [] ->
  r = Ok (Some (fold_left hash_update cs h)).
Proof.
  revert h tr r. induction cs as [|chunk cs IH]; intros h tr r Hr Hn Hz.
  - cbn in Hr. runs_inv. reflexivity.
  - destruct Hz as [Hz|Hz]; [|discriminate Hz].
    cbn in Hr. inversion Hr as [| |k b tr' r' Hk| | |]; subst; clear Hr.
    destruct b.
    + exfalso. apply Hn. left. reflexivity.
    + runs_inv.
      * apply IH in H6; [exact H6| |left; exact Hz].
        intros Hc. apply Hn. unfold observed_cancel in *. simpl. tauto.
      * unfold true_div in H0.
        destruct (Z.eqb_spec total_bytes 0); [contradiction|discriminate].
Qed.

Lemma hash_task_inv (file : path) (shake_length : Z) tr r :
  runs (hash_task fs algo total_bytes file shake_length) tr r ->
  (tr = [AIsSet true] /\ r = Ok tt)
  \/ (exists e,
        tr = [AIsSet false] /\ r = Raise e
        /\ (stat_size fs file = Raise e \/ hashlib_new algo = Raise e))
  \/ (exists size h0,
        stat_size fs file = Ok size /\ hashlib_new algo = Ok h0 /\ r = Ok tt
        /\ ((exists e,
                open_rb fs file = Raise e
                /\ tr = [AIsSet false; APut (Error file (exn_str e) algo)])
            \/ (exists f trl loop,
                   open_rb fs file = Ok f
                   /\ runs (read_loop total_bytes
                              (read_calls f (chunk_size_of size)) h0) trl loop
                   /\ tr = (AIsSet false :: trl ++ finish algo file shake_length loop)%list))).
Proof.
  intros Hr. unfold hash_task in Hr.
  apply runs_bind_inv in Hr as [(tr1 & b & tr2 & H1 & Hr & ->)|(e & H1 & ->)];
    [|runs_inv].
  apply runs_is_set_inv in H1 as (b' & -> & Hb). injection Hb as <-.
  destruct b; [left; runs_inv; split; reflexivity | right].
  apply runs_bind_inv in Hr as [(tr1 & size & tr3 & H1 & Hr & ->)|(e & H1 & ->)].
  2:{ left. apply runs_lift_inv in H1 as (-> & H1). exists e. auto. }
  apply runs_lift_inv in H1 as (-> & Hsize).
  apply runs_bind_inv in Hr as [(tr1 & h0 & tr4 & H1 & Hr & ->)|(e & H1 & ->)].
  2:{ left. apply runs_lift_inv in H1 as (-> & H1). exists e. auto. }
  apply runs_lift_inv in H1 as (-> & Hnew).
  right. exists size, h0. split; [auto|]. split; [auto|].
  fold (chunk_size_of size) in Hr. simpl app.
  apply runs_try_except_inv in Hr
    as [(a & Hr & ->)|(tr1 & e & tr2 & Hr & Hh & ->)].
  - split; [destruct a; reflexivity|]. right.
    apply runs_bind_inv in Hr as [(tr1 & f & tr2 & H1 & Hr & ->)|(e & H1 & He)];
      [|discriminate He].
    apply runs_lift_inv in H1 as (-> & Hopen).
    apply runs_bind_inv in Hr as [(trl & fin & tr3 & Hl & Hr & ->)|(e & H1 & He)];
      [|discriminate He].
    exists f, trl, (Ok fin). split; [auto|]. split; [exact Hl|].
    simpl. f_equal. f_equal. destruct fin as [hash_obj|]; simpl.
    + apply runs_bind_inv in Hr as [(tr1 & d & tr2 & H1 & Hr & ->)|(e & H1 & He)];
        [|discriminate He].
      apply runs_lift_inv in H1 as (-> & <-).
      apply runs_put_inv in Hr as (-> & _). reflexivity.
    + apply runs_mret_inv in Hr as (-> & _). reflexivity.
  - apply runs_put_inv in Hh as (-> & ->). split; [reflexivity|].
    apply runs_bind_inv in Hr as [(tr0 & f & tr2 & H1 & Hr & ->)|(e' & H1 & He)].
    2:{ left. injection He as <-. apply runs_lift_inv in H1 as (-> & Hopen).
        exists e. auto. }
    right. apply runs_lift_inv in H1 as (-> & Hopen).
    apply runs_bind_inv in Hr as [(trl & fin & tr3 & Hl & Hr & ->)|(e' & Hl & He)].
    2:{ injection He as <-. exists f, tr2, (Raise e). auto. }
    exists f, trl, (Ok fin). split; [auto|]. split; [exact Hl|].
    simpl. f_equal. rewrite <- app_assoc. f_equal.
    destruct fin as [hash_obj|]; simpl.
    + apply runs_bind_inv in Hr as [(tr1 & d & tr2 & H1 & Hr & ->)|(e' & H1 & He)].
      * apply runs_put_inv in Hr as (-> & Hr). discriminate Hr.
      * injection He as <-. apply runs_lift_inv in H1 as (-> & <-). reflexivity.
    + apply runs_mret_inv in Hr as (_ & Hr). discriminate Hr.
Qed.
End HashTaskRuns.

(** ** The pool: every task runs its own [hash_task] *)

Lemma trace_of_app (i : nat) (h1 h2 : list (nat * action)) :
  trace_of i (h1 ++ h2) = (trace_of i h1 ++ trace_of i h2)%list.
Proof.
  induction h1 as [|[j a] h1 IH]; simpl; [reflexivity|].
  destruct (j =? i)%nat; simpl; rewrite IH; reflexivity.
Qed.

Lemma trace_of_In (i : nat) (a : action) (h : list (nat * action)) :
  In a (trace_of i h) <-> In (i, a) h.
Proof.
  induction h as [|[j b] h IH]; simpl; [tauto|].
  destruct (Nat.eqb_spec j i) as [->|Hne]; simpl; rewrite IH.
  - intuition congruence.
  - intuition congruence.
Qed.

Section PoolInvariant.
Context {H : Hashlib}.
Variable fs : filesystem.
Variable algo : string.
Variable total_bytes : Z.
Variable max_workers : Z.
Variable submitted_jobs : list path.
Variable queue0 : list update.

Lemma pool_inv_submitted (w : MainWindow) :
  update_queue w = queue0 ->
  pool_inv fs algo total_bytes submitted_jobs queue0 {| window := w; bytes_read := 0;
              tasks := map Pending submitted_jobs; history := [] |}.
Proof.
  intros Hq. split; simpl.
  - intros i file Hi. exists (Pending file). split; [|split; reflexivity].
    change (map Pending submitted_jobs) with (Pending <$> submitted_jobs).
    rewrite list_lookup_fmap, Hi. reflexivity.
  - apply length_map.
  - rewrite Hq, app_nil_r. reflexivity.
  - constructor.
Qed.

(** A task that is somewhere on a run stays on it when it performs its
    next access. *)
Lemma pool_inv_access (c c' : pool) (i : nat) (p k : prog unit) (a : action) :
  pool_inv fs algo total_bytes submitted_jobs queue0 c ->
  tasks c !! i = Some (Running p) ->
  (forall tr r, runs k tr r -> runs p (a :: tr) r) ->
  tasks c' = <[i := Running k]> (tasks c) ->
  history c' = (history c ++ [(i, a)])%list ->
  update_queue (window c') = (update_queue (window c) ++ puts [a])%list ->
  pool_inv fs algo total_bytes submitted_jobs queue0 c'.
Proof.
  intros [Ht Hl Hq Hb] Hi Hk Etasks Ehist Equeue.
  pose proof (lookup_lt_Some _ _ _ Hi) as Hlt.
  split.
  - intros j file Hj. rewrite Etasks, Ehist, trace_of_app. simpl.
    destruct (Ht j file Hj) as (t & Hjt & Hok).
    destruct (Nat.eqb_spec i j) as [<-|Hne].
    + rewrite list_lookup_insert_eq by exact Hlt.
      eexists; split; [reflexivity|].
      rewrite Hi in Hjt. injection Hjt as <-. simpl in Hok |- *.
      intros tr' r Hr. rewrite <- app_assoc. apply Hok, Hk, Hr.
    + rewrite list_lookup_insert_ne by exact Hne.
      exists t. rewrite app_nil_r. auto.
  - rewrite Etasks, length_insert. exact Hl.
  - rewrite Equeue, Hq, Ehist, map_app, puts_app, app_assoc. reflexivity.
  - rewrite Ehist. apply Forall_app. split; [exact Hb|].
    constructor; [simpl; lia | constructor].
Qed.

(** ... and when it stops. *)
Lemma pool_inv_stop (c c' : pool) (i : nat) (p : prog unit) (r : result unit) :
  pool_inv fs algo total_bytes submitted_jobs queue0 c ->
  tasks c !! i = Some (Running p) ->
  runs p [] r ->
  tasks c' = <[i := Done r]> (tasks c) ->
  history c' = history c ->
  update_queue (window c') = update_queue (window c) ->
  pool_inv fs algo total_bytes submitted_jobs queue0 c'.
Proof.
  intros [Ht Hl Hq Hb] Hi Hp Etasks Ehist Equeue.
  pose proof (lookup_lt_Some _ _ _ Hi) as Hlt.
  split.
  - intros j file Hj. rewrite Etasks, Ehist.
    destruct (Ht j file Hj) as (t & Hjt & Hok).
    destruct (Nat.eqb_spec i j) as [<-|Hne].
    + rewrite list_lookup_insert_eq by exact Hlt.
      eexists; split; [reflexivity|].
      rewrite Hi in Hjt. injection Hjt as <-. simpl in Hok |- *.
      specialize (Hok [] r Hp). rewrite app_nil_r in Hok. exact Hok.
    + rewrite list_lookup_insert_ne by exact Hne. exists t. auto.
  - rewrite Etasks, length_insert. exact Hl.
  - rewrite Equeue, Ehist. exact Hq.
  - rewrite Ehist. exact Hb.
Qed.

Lemma pool_inv_step (ev : event) (c : pool) :
  pool_inv fs algo total_bytes submitted_jobs queue0 c -> pool_inv fs algo total_bytes submitted_jobs queue0 (step fs algo total_bytes max_workers ev c).
Proof.
  intros Hc. destruct ev as [i| |]; simpl.
  - destruct (tasks c !! i) as [[file|p|r|]|] eqn:Hi; try exact Hc.
    + destruct (may_start max_workers (tasks c) i); [|exact Hc].
      destruct Hc as [Ht Hl Hq Hb].
      pose proof (lookup_lt_Some _ _ _ Hi) as Hlt.
      split; simpl; [|rewrite length_insert; exact Hl|exact Hq|exact Hb].
      intros j file' Hj. destruct (Ht j file' Hj) as (t & Hjt & Hok).
      destruct (Nat.eqb_spec i j) as [<-|Hne].
      * rewrite list_lookup_insert_eq by exact Hlt.
        eexists; split; [reflexivity|].
        rewrite Hi in Hjt. injection Hjt as <-. destruct Hok as [-> ->].
        simpl. auto.
      * rewrite list_lookup_insert_ne by exact Hne. exists t. auto.
    + destruct p as [a|e|k|k|v k|u k]; simpl.
      * eapply pool_inv_stop; eauto; constructor.
      * eapply pool_inv_stop; eauto; constructor.
      * eapply pool_inv_access; eauto; simpl; rewrite ?app_nil_r; auto.
        intros tr r Hr. constructor. exact Hr.
      * eapply pool_inv_access; eauto; simpl; rewrite ?app_nil_r; auto.
        intros tr r Hr. constructor. exact Hr.
      * eapply pool_inv_access; eauto; simpl; rewrite ?app_nil_r; auto.
        intros tr r Hr. constructor. exact Hr.
      * eapply pool_inv_access; eauto; simpl; auto.
        intros tr r Hr. constructor. exact Hr.
  - destruct Hc as [Ht Hl Hq Hb]. split; auto.
  - destruct (first_failure_raised (tasks c)); [|exact Hc].
    destruct Hc as [Ht Hl Hq Hb]. split; simpl; auto.
    + intros j file Hj. destruct (Ht j file Hj) as (t & Hjt & Hok).
      exists (cancel_pending t). split.
      * change (map cancel_pending (tasks c)) with (cancel_pending <$> tasks c).
        rewrite list_lookup_fmap, Hjt. reflexivity.
      * destruct t; simpl in *; auto. tauto.
    + rewrite length_map. exact Hl.
Qed.

Lemma pool_inv_exec (schedule : list event) (c : pool) :
  pool_inv fs algo total_bytes submitted_jobs queue0 c -> pool_inv fs algo total_bytes submitted_jobs queue0 (exec fs algo total_bytes max_workers schedule c).
Proof.
  revert c. induction schedule as [|ev schedule IH]; intros c Hc; simpl.
  - exact Hc.
  - apply IH, pool_inv_step, Hc.
Qed.
End PoolInvariant.

(** ** Chunks *)

Lemma take_drop (n : Z) (l : bytes) : (take n l ++ drop n l)%list = l.
Proof.
  revert n. induction l as [|b l IH]; intros n; simpl; [reflexivity|].
  destruct (n <=? 0)%Z; simpl; [reflexivity | rewrite IH; reflexivity].
Qed.

Lemma drop_length (n : Z) (l : bytes) : (length (drop n l) <= length l)%nat.
Proof.
  revert n. induction l as [|b l IH]; intros n; simpl; [lia|].
  destruct (n <=? 0)%Z; simpl; [lia | specialize (IH (n - 1)); lia].
Qed.

Lemma take_cons (n : Z) (b : byte) (l : bytes) :
  0 < n -> take n (b :: l) = b :: take (n - 1) l.
Proof. intros Hn. simpl. destruct (Z.leb_spec n 0); [lia | reflexivity]. Qed.

Lemma drop_cons (n : Z) (b : byte) (l : bytes) :
  0 < n -> drop n (b :: l) = drop (n - 1) l.
Proof. intros Hn. simpl. destruct (Z.leb_spec n 0); [lia | reflexivity]. Qed.

Lemma chunks_upto_concat (fuel : nat) (n : Z) (l : bytes) :
  0 < n -> (length l <= fuel)%nat -> concat (chunks_upto fuel n l) = l.
Proof.
  intros Hn. revert l. induction fuel as [|fuel IH]; intros l Hl.
  - destruct l; [reflexivity | simpl in Hl; lia].
  - destruct l as [|b l]; [reflexivity|].
    cbn [chunks_upto]. rewrite take_cons by exact Hn. cbn [concat].
    rewrite IH.
    + rewrite <- take_cons by exact Hn. apply take_drop.
    + rewrite drop_cons by exact Hn.
      pose proof (drop_length (n - 1) l). simpl in Hl. lia.
Qed.

Lemma chunks_concat (n : Z) (l : bytes) : 0 < n -> concat (chunks n l) = l.
Proof. intros Hn. apply chunks_upto_concat; [exact Hn | lia]. Qed.

Lemma chunks_nil (n : Z) : chunks n [] = [].
Proof. reflexivity. Qed.

Lemma chunk_size_of_pos (size : Z) : 0 < chunk_size_of size.
Proof. unfold chunk_size_of. destruct (size >? 1024 * 1024 * 100)%Z; lia. Qed.

Lemma read_calls_no_error (f : file) (n : Z) :
  read_error f = None -> read_calls f n = map Ok (chunks n (content f)).
Proof. unfold read_calls. intros ->. reflexivity. Qed.

(** Feeding the chunks one after the other is feeding the content. *)
Lemma hash_update_chunks {H : Hashlib} {HS : HashlibSpec H}
  (cs : list bytes) (h : HASH) :
  fold_left hash_update cs h = hash_update h (concat cs).
Proof.
  revert h. induction cs as [|c cs IH]; intros h; simpl.
  - symmetry. apply hash_update_nil.
  - rewrite IH. apply hash_update_app.
Qed.

(** ** One job *)

Lemma outcomes_app (tr1 tr2 : list action) :
  outcomes (tr1 ++ tr2) = (outcomes tr1 ++ outcomes tr2)%list.
Proof. unfold outcomes. rewrite puts_app. apply List.filter_app. Qed.

Lemma progress_events_no_outcome (us : list update) :
  Forall progress_event us -> List.filter is_outcome us = [].
Proof.
  induction 1 as [|u us [q ->] _ IH]; simpl; [reflexivity | exact IH].
Qed.

Section OneJob.
Context {H : Hashlib}.
Variable fs : filesystem.
Variable algo : string.
Variable total_bytes : Z.

Lemma finish_no_is_set (file : path) (shake_length : Z)
  (loop : result (option HASH)) :
  ~ observed_cancel (finish algo file shake_length loop).
Proof.
  unfold observed_cancel, finish.
  destruct loop as [[h|]|e]; simpl; [|tauto|intuition discriminate].
  destruct (if str_contains "shake" algo then _ else _); simpl;
    intuition discriminate.
Qed.

Lemma observed_cancel_task (trl fin : list action) :
  ~ observed_cancel fin ->
  observed_cancel (AIsSet false :: trl ++ fin) <-> observed_cancel trl.
Proof.
  unfold observed_cancel. intros Hfin. simpl. rewrite in_app_iff.
  intuition discriminate.
Qed.

(** The loop over reads that succeed up to one that raises, when the
    flag is never seen set and no division by zero comes first, raises
    that exception. *)
Lemma read_loop_raises (cs : list bytes) (e : exn) (rest : list (result bytes))
  (h : HASH) tr r :
  runs (read_loop total_bytes (map Ok cs ++ Raise e :: rest) h) tr r ->
  ~ observed_cancel tr ->
  total_bytes <> 0 \/ cs = [] ->
  r = Raise e.
Proof.
  revert h tr r. induction cs as [|chunk cs IH]; intros h tr r Hr Hn Hz.
  - cbn in Hr. runs_inv. reflexivity.
  - destruct Hz as [Hz|Hz]; [|discriminate Hz].
    cbn in Hr. inversion Hr as [| |k b tr' r' Hk| | |]; subst; clear Hr.
    destruct b.
    + exfalso. apply Hn. left. reflexivity.
    + runs_inv.
      * apply IH in H6; [exact H6| |left; exact Hz].
        intros Hc. apply Hn. unfold observed_cancel in *. simpl. tauto.
      * unfold true_div in H0.
        destruct (Z.eqb_spec total_bytes 0); [contradiction|discriminate].
Qed.

(** A task that saw the flag set has put no Outcome and returned. *)
Lemma hash_task_cancelled (file : path) (shake_length : Z)
  (tr : list action) (r : result unit) :
  runs (hash_task fs algo total_bytes file shake_length) tr r ->
  observed_cancel tr ->
  outcomes tr = [] /\ r = Ok tt.
Proof.
  intros Hr Hc.
  apply hash_task_inv in Hr
    as [(-> & ->)|[(e & -> & -> & He)|(size & h0 & Hs & Hn & -> & Hr)]].
  - split; reflexivity.
  - exfalso. unfold observed_cancel in Hc. simpl in Hc. intuition discriminate.
  - destruct Hr as [(e & Ho & ->)|(f & trl & loop & Ho & Hl & ->)].
    + exfalso. unfold observed_cancel in Hc. simpl in Hc. intuition discriminate.
    + pose proof (finish_no_is_set file shake_length loop) as Hfin.
      pose proof (read_loop_runs _ _ _ _ _ Hl) as (HF & Hloop).
      apply (observed_cancel_task trl _ Hfin) in Hc.
      change (AIsSet false :: trl ++ finish algo file shake_length loop)%list
        with ([AIsSet false] ++ trl ++ finish algo file shake_length loop)%list.
      assert (Htrl : outcomes trl = []) by exact (progress_events_no_outcome _ HF).
      rewrite !outcomes_app, Htrl. simpl. split; [|reflexivity].
      destruct loop as [[h'|]|e]; [tauto|reflexivity|tauto].
Qed.

(** A task that did not, on a file that opens and reads to its end, has
    put the Digest of the chunks read, and no other Outcome. *)
Lemma hash_task_digest (file : path) (shake_length : Z)
  (tr : list action) (r : result unit) size h0 f digest :
  runs (hash_task fs algo total_bytes file shake_length) tr r ->
  ~ observed_cancel tr ->
  stat_size fs file = Ok size ->
  hashlib_new algo = Ok h0 ->
  open_rb fs file = Ok f ->
  read_error f = None ->
  total_bytes <> 0 \/ content f = [] ->
  hexdigest_of algo
    (fold_left hash_update (chunks (chunk_size_of size) (content f)) h0)
    shake_length = Ok digest ->
  outcomes tr = [Result file digest algo] /\ r = Ok tt.
Proof.
  intros Hr Hc Hs' Hn' Ho' He Hz Hd.
  apply hash_task_inv in Hr
    as [(-> & ->)|[(e & -> & -> & Hraise)|(size' & h0' & Hs & Hn & -> & Hr)]].
  - exfalso. apply Hc. left. reflexivity.
  - destruct Hraise; congruence.
  - assert (size' = size) as -> by congruence.
    assert (h0' = h0) as -> by congruence.
    destruct Hr as [(e & Ho & ->)|(f' & trl & loop & Ho & Hl & ->)];
      [congruence|].
    assert (f' = f) as -> by congruence.
    pose proof (finish_no_is_set file shake_length loop) as Hfin.
    pose proof (read_loop_runs _ _ _ _ _ Hl) as (HF & _).
    rewrite (observed_cancel_task trl _ Hfin) in Hc.
    change (AIsSet false :: trl ++ finish algo file shake_length loop)%list
      with ([AIsSet false] ++ trl ++ finish algo file shake_length loop)%list.
    assert (Htrl : outcomes trl = []) by exact (progress_events_no_outcome _ HF).
    rewrite !outcomes_app, Htrl. simpl.
    rewrite (read_calls_no_error f _ He) in Hl.
    assert (Hz' : total_bytes <> 0 \/ chunks (chunk_size_of size) (content f) = []).
    { destruct Hz as [Hz | ->]; [left; exact Hz | right; reflexivity]. }
    rewrite (read_loop_reaches_eof _ _ _ _ _ Hl Hc Hz').
    unfold finish. unfold hexdigest_of in Hd. rewrite Hd. split; reflexivity.
Qed.

(** C2.  A task that saw the cancellation flag set, before it started or
    in its read loop, has put no Outcome, neither Digest nor Failure; a
    task that did not, and whose reads went to end-of-file, has put its
    Digest, and nothing else as Outcome. *)
Theorem cancellation_abandons_silently (file : path) (shake_length : Z)
  (tr : list action) (r : result unit) :
  runs (hash_task fs algo total_bytes file shake_length) tr r ->
  (observed_cancel tr -> outcomes tr = [] /\ r = Ok tt)
  /\ (~ observed_cancel tr ->
      forall size h0 f digest,
        stat_size fs file = Ok size ->
        hashlib_new algo = Ok h0 ->
        open_rb fs file = Ok f ->
        read_error f = None ->
        total_bytes <> 0 \/ content f = [] ->
        hexdigest_of algo
          (fold_left hash_update (chunks (chunk_size_of size) (content f)) h0)
          shake_length = Ok digest ->
        outcomes tr = [Result file digest algo] /\ r = Ok tt).
Proof.
  intros Hr. split.
  - intros Hc. exact (hash_task_cancelled file shake_length tr r Hr Hc).
  - intros Hc size h0 f digest Hs Hn Ho He Hz Hd.
    exact (hash_task_digest file shake_length tr r size h0 f digest
             Hr Hc Hs Hn Ho He Hz Hd).
Qed.

(** The part of failure isolation that holds: an exception of [open] or
    of a [read] is caught in the task, which puts exactly one Failure for
    its file and returns. *)
Lemma open_or_read_failure_is_isolated (file : path) (shake_length : Z)
  (tr : list action) (r : result unit) (size : Z) (h0 : HASH) (e : exn) :
  runs (hash_task fs algo total_bytes file shake_length) tr r ->
  ~ observed_cancel tr ->
  stat_size fs file = Ok size ->
  hashlib_new algo = Ok h0 ->
  open_rb fs file = Raise e
  \/ (exists f k,
        open_rb fs file = Ok f /\ read_error f = Some (k, e)
        /\ (k <= length (chunks (chunk_size_of size) (content f)))%nat
        /\ (total_bytes <> 0 \/ k = O)) ->
  outcomes tr = [Error file (exn_str e) algo] /\ r = Ok tt.
Proof.
  intros Hr Hc Hs Hn Hfail.
  apply hash_task_inv in Hr
    as [(-> & ->)|[(e' & -> & -> & He)|(size' & h0' & Hs' & Hn' & -> & Hr)]].
  - exfalso. apply Hc. left. reflexivity.
  - destruct He; congruence.
  - assert (size' = size) as -> by congruence.
    assert (h0' = h0) as -> by congruence.
    destruct Hr as [(e' & Ho & ->)|(f & trl & loop & Ho & Hl & ->)].
    + destruct Hfail as [Ho'|(f & k & Ho' & _)]; [|congruence].
      assert (e' = e) as -> by congruence. split; reflexivity.
    + destruct Hfail as [Ho'|(f' & k & Ho' & He & Hk & Hz)]; [congruence|].
      assert (f' = f) as -> by congruence.
      pose proof (finish_no_is_set file shake_length loop) as Hfin.
      rewrite (observed_cancel_task trl _ Hfin) in Hc.
      pose proof (read_loop_runs _ _ _ _ _ Hl) as (HF & _).
      unfold read_calls in Hl. rewrite He in Hl.
      destruct (Nat.leb_spec k (length (chunks (chunk_size_of size) (content f))))
        as [_|?]; [|lia].
      assert (Hz' : total_bytes <> 0
                    \/ firstn k (chunks (chunk_size_of size) (content f)) = []).
      { destruct Hz as [Hz | ->]; [left; exact Hz | right; reflexivity]. }
      rewrite (read_loop_raises _ _ _ _ _ _ Hl Hc Hz').
      change (AIsSet false :: trl ++ finish algo file shake_length (Raise e))%list
        with ([AIsSet false] ++ trl ++ finish algo file shake_length (Raise e))%list.
      assert (Htrl : outcomes trl = []) by exact (progress_events_no_outcome _ HF).
      rewrite !outcomes_app, Htrl.
      split; reflexivity.
Qed.
End OneJob.

Lemma open_rb_stat_size (fs : filesystem) (p : path) (f : file) :
  open_rb fs p = Ok f -> stat_size fs p = Ok (st_size f).
Proof.
  unfold open_rb, stat_size. destruct (fs p) as [e|e|g|g|size listing];
    try discriminate; destruct (open_error g); congruence.
Qed.

(** The names of the drop-down on which [hash_task] asks for an output
    length are the two extendable-output algorithms. *)
Lemma shake_algorithms :
  List.filter (str_contains "shake") algorithms_guaranteed
  = ["shake_128"; "shake_256"].
Proof. reflexivity. Qed.

Section Digests.
Context {H : Hashlib}.
Variable fs : filesystem.
Variable algo : string.
Variable total_bytes : Z.

(** C9.  For a name that contains "shake" the Digest is the hexadecimal
    digest of the file's bytes of output length 32, a string of 64
    characters; for any other name the output length is not used, whatever
    it is, and the Digest is the plain [hexdigest()] of the file's
    bytes. *)
Theorem digest_is_hexdigest_of_content {HS : HashlibSpec H}
  (f : file) (file : path) (size : Z) (h0 : HASH)
  (tr : list action) (r : result unit) :
  stat_size fs file = Ok size ->
  hashlib_new algo = Ok h0 ->
  open_rb fs file = Ok f ->
  read_error f = None ->
  total_bytes <> 0 \/ content f = [] ->
  (str_contains "shake" algo = true ->
   forall digest,
     hash_hexdigest (hash_update h0 (content f)) (Some 32) = Ok digest ->
     runs (hash_task fs algo total_bytes file 32) tr r ->
     ~ observed_cancel tr ->
     outcomes tr = [Result file digest algo] /\ String.length digest = 64%nat)
  /\ (str_contains "shake" algo = false ->
      forall shake_length digest,
        hash_hexdigest (hash_update h0 (content f)) None = Ok digest ->
        runs (hash_task fs algo total_bytes file shake_length) tr r ->
        ~ observed_cancel tr ->
        outcomes tr = [Result file digest algo]).
Proof.
  intros Hs Hn Ho He Hz.
  assert (Hfold : fold_left hash_update (chunks (chunk_size_of size) (content f)) h0
                  = hash_update h0 (content f)).
  { rewrite hash_update_chunks, chunks_concat by apply chunk_size_of_pos.
    reflexivity. }
  split.
  - intros Hshake digest Hd Hr Hc.
    split.
    + apply (hash_task_digest fs algo total_bytes file 32 tr r size h0 f digest
               Hr Hc Hs Hn Ho He Hz).
      unfold hexdigest_of. rewrite Hshake, Hfold. exact Hd.
    + apply hash_hexdigest_length in Hd; lia.
  - intros Hshake shake_length digest Hd Hr Hc.
    apply (hash_task_digest fs algo total_bytes file shake_length tr r size h0 f
             digest Hr Hc Hs Hn Ho He Hz).
    unfold hexdigest_of. rewrite Hshake, Hfold. exact Hd.
Qed.


(** Whatever a task puts is a capped progress fraction, or a Digest or a
    Failure of its own file under the algorithm of the job. *)
Lemma hash_task_puts (file : path) (shake_length : Z)
  (tr : list action) (r : result unit) :
  runs (hash_task fs algo total_bytes file shake_length) tr r ->
  Forall (fun u => progress_event u
                   \/ (exists digest, u = Result file digest algo)
                   \/ (exists err, u = Error file err algo)) (puts tr).
Proof.
  intros Hr.
  apply hash_task_inv in Hr
    as [(-> & ->)|[(e & -> & -> & He)|(size & h0 & Hs & Hn & -> & Hr)]].
  - constructor.
  - constructor.
  - destruct Hr as [(e & Ho & ->)|(f & trl & loop & Ho & Hl & ->)].
    + simpl. constructor; [eauto | constructor].
    + apply read_loop_runs in Hl as (HF & _).
      simpl. rewrite puts_app. apply Forall_app. split.
      * eapply Forall_impl; [exact HF|]. simpl. auto.
      * unfold finish. destruct loop as [[h|]|e]; simpl.
        -- destruct (if str_contains "shake" algo then _ else _); simpl;
             (constructor; [eauto | constructor]).
        -- constructor.
        -- constructor; [eauto | constructor].
Qed.

(** With an algorithm [hashlib.new] refuses, a task puts nothing, and it
    returns only if it saw the cancellation flag set. *)
Lemma unsupported_algorithm_run (file : path) (shake_length : Z) (e : exn)
  (tr : list action) (r : result unit) :
  hashlib_new algo = Raise e ->
  runs (hash_task fs algo total_bytes file shake_length) tr r ->
  puts tr = [] /\ (r = Ok tt -> observed_cancel tr).
Proof.
  intros Hn Hr.
  apply hash_task_inv in Hr
    as [(-> & ->)|[(e' & -> & -> & He)|(size & h0 & Hs & Hn' & -> & Hr)]].
  - split; [reflexivity|]. intros _. left. reflexivity.
  - split; [reflexivity|]. discriminate.
  - congruence.
Qed.
End Digests.

(** ** The queue of a pool *)

Lemma concat_map_cons_at (F G : nat -> list update) (u : update) (j : nat)
  (l : list nat) :
  List.NoDup l -> In j l -> F j = u :: G j -> (forall i, i <> j -> F i = G i) ->
  Permutation (concat (map F l)) (u :: concat (map G l)).
Proof.
  intros Hnd Hj HFj HF. induction l as [|i l IH]; [destruct Hj|].
  apply List.NoDup_cons_iff in Hnd as [Hi Hnd]. simpl.
  destruct (Nat.eq_dec i j) as [->|Hne].
  - rewrite HFj. simpl. constructor.
    assert (Heq : map F l = map G l).
    { apply map_ext_in. intros i Hil. apply HF. intros ->. contradiction. }
    rewrite Heq. reflexivity.
  - rewrite (HF i Hne). destruct Hj as [->|Hj]; [contradiction|].
    rewrite (IH Hnd Hj). symmetry. apply Permutation_middle.
Qed.

(** The items put on the queue are those the tasks put, task by task. *)
Lemma puts_history_perm (n : nat) (h : list (nat * action)) :
  Forall (fun x => (fst x < n)%nat) h ->
  Permutation (puts (map snd h))
    (concat (map (fun i => puts (trace_of i h)) (seq 0 n))).
Proof.
  induction 1 as [|[j a] h Hj _ IH].
  - simpl. induction (seq 0 n) as [|i l IHl]; simpl; [constructor | exact IHl].
  - simpl in Hj.
    assert (Hsame : forall i, i <> j ->
              puts (trace_of i ((j, a) :: h)) = puts (trace_of i h)).
    { intros i Hne. simpl. destruct (Nat.eqb_spec j i); [congruence | reflexivity]. }
    assert (Hat : trace_of j ((j, a) :: h) = a :: trace_of j h).
    { simpl. rewrite Nat.eqb_refl. reflexivity. }
    destruct a as [b|z|v|u]; cbn [map snd puts].
    1-3: rewrite IH; apply Permutation_refl';
         f_equal; apply map_ext; intros i;
         destruct (Nat.eq_dec i j) as [->|Hne];
         [rewrite Hat; reflexivity | symmetry; apply Hsame; exact Hne].
    rewrite IH. symmetry.
    apply concat_map_cons_at with (j := j).
    + apply List.seq_NoDup.
    + apply List.in_seq. lia.
    + rewrite Hat. reflexivity.
    + exact Hsame.
Qed.

Lemma puts_no_put (h : list (nat * action)) :
  (forall i u, ~ In (i, APut u) h) -> puts (map snd h) = [].
Proof.
  induction h as [|[j a] h IH]; intros Hno; [reflexivity|].
  simpl. destruct a as [b|z|v|u].
  1-3: apply IH; intros i u Hin; apply (Hno i u); right; exact Hin.
  exfalso. apply (Hno j u). left. reflexivity.
Qed.

Section PoolFacts.
Context {H : Hashlib}.
Variable fs : filesystem.
Variable algo : string.
Variable total_bytes : Z.
Variable max_workers : Z.
Variable submitted_jobs : list path.
Variable queue0 : list update.

(** Every access in the history lies on a run of the [hash_task] of the
    job of its task. *)
Lemma pool_history_runs (c : pool) (i : nat) (a : action) :
  pool_inv fs algo total_bytes submitted_jobs queue0 c -> In (i, a) (history c) ->
  exists file tr r,
    submitted_jobs !! i = Some file
    /\ runs (hash_task fs algo total_bytes file 32) tr r
    /\ In a tr.
Proof.
  intros [Ht Hl Hq Hb] Hin.
  assert (Hlt : (i < length submitted_jobs)%nat).
  { rewrite Forall_forall in Hb. apply list_elem_of_In in Hin.
    exact (Hb _ Hin). }
  destruct (lookup_lt_is_Some_2 _ _ Hlt) as [file Hfile].
  destruct (Ht i file Hfile) as (t & _ & Hok).
  apply trace_of_In in Hin.
  exists file. destruct t as [file'|p|r|]; simpl in Hok.
  - destruct Hok as [_ Hnil]. rewrite Hnil in Hin. destruct Hin.
  - pose proof (runs_run_with false 0 p) as Hp.
    eexists _, _. split; [exact Hfile|]. split; [exact (Hok _ _ Hp)|].
    apply in_or_app. left. exact Hin.
  - eexists _, _. split; [exact Hfile|]. split; [exact Hok | exact Hin].
  - rewrite Hok in Hin. destruct Hin.
Qed.

(** The queue is what it was at submission followed by items that each
    concern a submitted job: a capped progress fraction, or a Digest or a
    Failure of the file of a job, under the job's algorithm. *)
Lemma pool_queue_items (c : pool) :
  pool_inv fs algo total_bytes submitted_jobs queue0 c ->
  exists new,
    update_queue (window c) = (queue0 ++ new)%list
    /\ Forall (fun u =>
                 progress_event u
                 \/ exists file, In file submitted_jobs
                      /\ ((exists digest, u = Result file digest algo)
                          \/ (exists err, u = Error file err algo))) new.
Proof.
  intros Hc. exists (puts (map snd (history c))).
  split; [apply (inv_queue _ _ _ _ _ _ Hc)|].
  apply Forall_forall. intros u Hu.
  apply list_elem_of_In, In_puts, in_map_iff in Hu as ([i a] & Ha & Hin).
  simpl in Ha. subst a.
  destruct (pool_history_runs c i (APut u) Hc Hin) as (file & tr & r & Hf & Hr & Hu).
  apply hash_task_puts in Hr. rewrite Forall_forall in Hr.
  apply In_puts, list_elem_of_In in Hu.
  destruct (Hr u Hu) as [Hp|Ho]; [left; exact Hp | right].
  exists file. split; [|exact Ho].
  apply list_elem_of_In. eapply list_elem_of_lookup_2. exact Hf.
Qed.

(** A finished task has performed a whole run of its [hash_task]. *)
Lemma pool_done_runs (c : pool) (i : nat) (file : path) (r : result unit) :
  pool_inv fs algo total_bytes submitted_jobs queue0 c ->
  submitted_jobs !! i = Some file ->
  tasks c !! i = Some (Done r) ->
  runs (hash_task fs algo total_bytes file 32) (trace_of i (history c)) r.
Proof.
  intros [Ht _ _ _] Hfile Hi.
  destruct (Ht i file Hfile) as (t & Hjt & Hok).
  rewrite Hi in Hjt. injection Hjt as <-. exact Hok.
Qed.

(** The pool touches neither the progress bar nor the algorithm of the
    window, and only a click sets the cancellation flag. *)
Lemma step_window (ev : event) (c : pool) :
  progress_bar_fraction (window (step fs algo total_bytes max_workers ev c))
  = progress_bar_fraction (window c)
  /\ (ev <> CancelClicked ->
      cancel_event (window (step fs algo total_bytes max_workers ev c))
      = cancel_event (window c)).
Proof.
  destruct ev as [i| |]; simpl.
  - destruct (tasks c !! i) as [[file|p|r|]|]; try (split; reflexivity).
    + destruct (may_start max_workers (tasks c) i); split; reflexivity.
    + destruct p; split; reflexivity.
  - split; [reflexivity | congruence].
  - destruct (first_failure_raised (tasks c)); split; reflexivity.
Qed.

Lemma exec_progress_bar (schedule : list event) (c : pool) :
  progress_bar_fraction (window (exec fs algo total_bytes max_workers schedule c))
  = progress_bar_fraction (window c).
Proof.
  revert c. induction schedule as [|ev schedule IH]; intros c; simpl.
  - reflexivity.
  - rewrite IH. apply step_window.
Qed.

Lemma step_unclicked (ev : event) (c : pool) :
  ev <> CancelClicked -> unclicked c ->
  unclicked (step fs algo total_bytes max_workers ev c).
Proof.
  intros Hev [Hflag Hh]. destruct ev as [i| |]; [|congruence|]; simpl.
  - destruct (tasks c !! i) as [[file|p|r|]|]; try (split; assumption).
    + destruct (may_start max_workers (tasks c) i); split; assumption.
    + destruct p as [a|e|k|k|v k|u k]; simpl.
      * split; assumption.
      * split; assumption.
      * split; [assumption|]. simpl. apply Forall_app. split; [assumption|].
        constructor; [simpl; rewrite Hflag; discriminate | constructor].
      * split; [assumption|]. simpl. apply Forall_app. split; [assumption|].
        constructor; [simpl; discriminate | constructor].
      * split; [assumption|]. simpl. apply Forall_app. split; [assumption|].
        constructor; [simpl; discriminate | constructor].
      * split; [assumption|]. simpl. apply Forall_app. split; [assumption|].
        constructor; [simpl; discriminate | constructor].
  - destruct (first_failure_raised (tasks c)); split; assumption.
Qed.

Lemma exec_unclicked (schedule : list event) (c : pool) :
  Forall (fun ev => ev <> CancelClicked) schedule -> unclicked c ->
  unclicked (exec fs algo total_bytes max_workers schedule c).
Proof.
  intros Hs. revert c. induction Hs as [|ev schedule Hev _ IH]; intros c Hc; simpl.
  - exact Hc.
  - apply IH, step_unclicked; assumption.
Qed.

Lemma unclicked_trace (c : pool) (i : nat) :
  unclicked c -> ~ observed_cancel (trace_of i (history c)).
Proof.
  intros [_ Hh] Hobs. unfold observed_cancel in Hobs.
  apply trace_of_In in Hobs. rewrite Forall_forall in Hh.
  apply list_elem_of_In in Hobs. exact (Hh _ Hobs eq_refl).
Qed.

End PoolFacts.

(** ** The reference [hashlib] keeps what the library documents *)

Module ReferenceFacts.
Import Reference.

Lemma hex_length (octets : list Z) :
  String.length (hex octets) = (2 * length octets)%nat.
Proof.
  induction octets as [|o rest IH]; simpl; [reflexivity | rewrite IH; lia].
Qed.

Lemma le_octets_length (n : nat) (x : Z) : length (le_octets n x) = n.
Proof.
  revert x. induction n as [|n IH]; intros x; simpl; [reflexivity|].
  rewrite IH. reflexivity.
Qed.

Lemma keccak_round_length (a : list Z) (rc : Z) :
  length (keccak_round a rc) = 25%nat.
Proof.
  unfold keccak_round.
  match goal with
  | |- length (match map ?f coords with _ => _ end) = _ =>
      pose proof (length_map f coords) as Hlen;
      destruct (map f coords) as [|a0 rest]
  end.
  - discriminate Hlen.
  - simpl in *. exact Hlen.
Qed.

Lemma fold_keccak_round_length (rcs : list Z) (a : list Z) :
  length a = 25%nat -> length (fold_left keccak_round rcs a) = 25%nat.
Proof.
  revert a. induction rcs as [|rc rcs IH]; intros a Ha; simpl; [exact Ha|].
  apply IH, keccak_round_length.
Qed.

Lemma keccak_f_length (a : list Z) : length (keccak_f a) = 25%nat.
Proof.
  unfold keccak_f, keccak_RC. cbn [fold_left].
  apply keccak_round_length.
Qed.

Lemma keccak_absorb_all_length (blocks : list (list Z)) (a : list Z) :
  length a = 25%nat -> length (fold_left keccak_absorb blocks a) = 25%nat.
Proof.
  revert a. induction blocks as [|block blocks IH]; intros a Ha;
    cbn [fold_left]; [exact Ha|].
  apply IH. unfold keccak_absorb. apply keccak_f_length.
Qed.

Lemma state_octets_length (a : list Z) :
  length (concat (map (le_octets 8) a)) = (8 * length a)%nat.
Proof.
  induction a as [|x a IH]; cbn [map concat]; [reflexivity|].
  rewrite length_app, le_octets_length, IH. simpl. lia.
Qed.

Lemma keccak_squeeze_length (blocks : nat) (a : list Z) :
  length a = 25%nat ->
  length (keccak_squeeze blocks a) = (shake128_rate * blocks)%nat.
Proof.
  revert a. induction blocks as [|n IH]; intros a Ha; cbn [keccak_squeeze].
  - rewrite Nat.mul_0_r. reflexivity.
  - rewrite length_app, (IH _ (keccak_f_length a)), length_firstn,
      state_octets_length, Ha.
    unfold shake128_rate. lia.
Qed.

Lemma shake128_length (msg : bytes) (n : nat) : length (shake128 msg n) = n.
Proof.
  unfold shake128. rewrite length_firstn, keccak_squeeze_length.
  - unfold shake128_rate.
    pose proof (Nat.div_mod_eq n 168). pose proof (Nat.mod_upper_bound n 168).
    lia.
  - apply keccak_absorb_all_length. reflexivity.
Qed.

Lemma hashlib_spec : HashlibSpec hashlib.
Proof.
  split.
  - intros [a m]. cbn. unfold update. cbn. rewrite app_nil_r. reflexivity.
  - intros [a m] x y. cbn. unfold update. cbn. rewrite app_assoc. reflexivity.
  - intros [a m] n d Hn. cbn. unfold hexdigest. cbn [alg absorbed].
    destruct a; [discriminate|].
    destruct (Z.ltb_spec n 0) as [?|_]; [lia|].
    intros Hd. injection Hd as <-.
    rewrite hex_length, shake128_length. lia.
Qed.
End ReferenceFacts.

(** ** The job set *)

(** With [total_bytes = 0] every division raises before anything is put:
    the loop puts no progress item. *)
Lemma read_loop_zero_total {H : Hashlib} (reads : list (result bytes))
  (h : HASH) tr r :
  runs (read_loop 0 reads h) tr r -> puts tr = [].
Proof.
  revert h tr r. induction reads as [|[chunk|e] reads IH]; intros h tr r Hr.
  - cbn in Hr. runs_inv. reflexivity.
  - cbn in Hr. inversion Hr as [| |k b tr' r' Hk| | |]; subst; clear Hr.
    destruct b.
    + runs_inv. reflexivity.
    + runs_inv. reflexivity.
  - cbn in Hr. runs_inv. reflexivity.
Qed.


(** A path [stat] fails on leaves its [try] with that exception. *)
Lemma scan_path_stat_raises (fs : filesystem) (p : path) (st : enumeration)
  (e : exn) :
  stat_size fs p = Raise e -> scan_path fs p st = (st, Some e).
Proof.
  intros He. unfold scan_path, is_dir. unfold stat_size in He.
  destruct (fs p) eqn:E; try discriminate He; injection He as ->.
  - unfold stat_size. rewrite E. reflexivity.
  - reflexivity.
Qed.

Lemma enumerate_queued_In (fs : filesystem) (algo : string) (paths : list path)
  (st : enumeration) (u : update) :
  In u (queued st) -> In u (queued (enumerate fs algo paths st)).
Proof.
  intros Hu. destruct (enumerate_queued fs algo paths st) as (errors & -> & _).
  apply in_or_app. left. exact Hu.
Qed.

(** Every input path [stat] fails on gets its Failure. *)
Lemma enumerate_stat_raises (fs : filesystem) (algo : string)
  (paths : list path) (st : enumeration) (p : path) (e : exn) :
  In p paths -> stat_size fs p = Raise e ->
  In (Error p (exn_str e) algo) (queued (enumerate fs algo paths st)).
Proof.
  revert st. induction paths as [|q rest IH]; intros st Hin He; [destruct Hin|].
  simpl. destruct Hin as [->|Hin].
  - rewrite (scan_path_stat_raises fs p st e He).
    apply enumerate_queued_In. simpl. apply in_or_app. right. left. reflexivity.
  - destruct (scan_path fs q st) as [st' [e'|]]; apply IH; assumption.
Qed.

Section JobSet.
Context {H : Hashlib}.
Variable w : world.

(** Whatever the schedule, every task of [calculate_hash] is somewhere on
    a run of the [hash_task] of its job. *)
Lemma calculate_hash_inv (self : MainWindow) (paths : list path)
  (algo : string) (schedule : list event) :
  pool_inv (fs_hash w) algo
    (total_bytes (fst (submitted w self paths algo)))
    (jobs (fst (submitted w self paths algo)))
    (queued (fst (submitted w self paths algo)))
    (calculate_hash w self paths algo schedule).
Proof.
  unfold calculate_hash, submitted. cbn [fst].
  apply pool_inv_exec, pool_inv_submitted. reflexivity.
Qed.

Lemma calculate_hash_unclicked (self : MainWindow) (paths : list path)
  (algo : string) (schedule : list event) :
  cancel_event self = false ->
  Forall (fun ev => ev <> CancelClicked) schedule ->
  unclicked (calculate_hash w self paths algo schedule).
Proof.
  intros Hflag Hs. unfold calculate_hash, submitted.
  apply exec_unclicked; [exact Hs|]. split; [exact Hflag | constructor].
Qed.

(** A finished task is the task of a job. *)
Lemma done_task_job (self : MainWindow) (paths : list path) (algo : string)
  (schedule : list event) (i : nat) (r : result unit) :
  tasks (calculate_hash w self paths algo schedule) !! i = Some (Done r) ->
  exists file,
    jobs (fst (submitted w self paths algo)) !! i = Some file
    /\ runs (hash_task (fs_hash w) algo
               (total_bytes (fst (submitted w self paths algo))) file 32)
         (trace_of i (history (calculate_hash w self paths algo schedule))) r.
Proof.
  intros Hi. pose proof (calculate_hash_inv self paths algo schedule) as Hc.
  assert (Hlt : (i < length (jobs (fst (submitted w self paths algo))))%nat).
  { rewrite <- (inv_length _ _ _ _ _ _ Hc). eapply lookup_lt_Some. exact Hi. }
  destruct (lookup_lt_is_Some_2 _ _ Hlt) as [file Hfile].
  exists file. split; [exact Hfile|].
  eapply pool_done_runs; eauto.
Qed.
End JobSet.

Section JobSetClaims.
Context {H : Hashlib}.
Variable w : world.

(** C3 (as amended).  [start_job] does not look at the algorithm.  With a
    name [hashlib.new] refuses, the paths are enumerated as usual and the
    Failures of the enumeration are delivered, under the refused name: the
    queue ends as the enumeration left it, so an input path [stat] fails on
    has its Failure there.  The refusal shows only in the worker threads:
    a task never returns unless it saw the cancellation flag set, a task
    that raised has raised the exception of [hashlib.new] or that of
    [stat] on its file, and no task puts anything. *)
Theorem unsupported_algorithm_is_not_validated (self : MainWindow)
  (paths : list path) (algo : option string) (schedule : list event) (e : exn) :
  hashlib_new (chosen_algo self algo) = Raise e ->
  let a := chosen_algo self algo in
  let en := enumerate (fs_enum w) a paths
              {| total_bytes := 0; jobs := []; queued := update_queue self |} in
  let c := start_job w self paths algo schedule in
  update_queue (window c) = queued en
  /\ (forall p err, In p paths -> stat_size (fs_enum w) p = Raise err ->
        In (Error p (exn_str err) a) (update_queue (window c)))
  /\ (forall i, tasks c !! i = Some (Done (Ok tt)) ->
        observed_cancel (trace_of i (history c)))
  /\ (forall i e', tasks c !! i = Some (Done (Raise e')) ->
        e' = e
        \/ exists file, jobs en !! i = Some file
                        /\ stat_size (fs_hash w) file = Raise e').
Proof.
  intros Hnew a en c.
  set (self0 := {| update_queue := update_queue self;
                   cancel_event := false;
                   progress_bar_fraction := 0%Q;
                   window_algo := window_algo self;
                   ui_results := ui_results self;
                   ui_errors := ui_errors self |}).
  assert (Hc : c = calculate_hash w self0 paths a schedule) by reflexivity.
  assert (Hen : en = fst (submitted w self0 paths a)) by reflexivity.
  pose proof (calculate_hash_inv w self0 paths a schedule) as Hinv.
  rewrite <- Hc, <- Hen in Hinv.
  assert (Hputs : forall i r, tasks c !! i = Some (Done r) ->
            exists file, jobs en !! i = Some file
              /\ puts (trace_of i (history c)) = []
              /\ (r = Ok tt -> observed_cancel (trace_of i (history c)))
              /\ (forall e', r = Raise e' ->
                    e' = e \/ stat_size (fs_hash w) file = Raise e')).
  { intros i r Hi. rewrite Hc in Hi.
    destruct (done_task_job w self0 paths a schedule i r Hi) as (file & Hfile & Hr).
    rewrite <- Hc, <- Hen in *. exists file. split; [exact Hfile|].
    destruct (unsupported_algorithm_run _ _ _ _ _ _ _ _ Hnew Hr) as [Hp Hok].
    split; [exact Hp|]. split; [exact Hok|].
    intros e' ->.
    apply hash_task_inv in Hr
      as [(_ & Hr)|[(e1 & _ & Hr & He)|(size & h0 & _ & Hn' & _)]].
    - discriminate Hr.
    - injection Hr as ->. destruct He as [He|He]; [right; exact He|].
      left. unfold a in He. congruence.
    - unfold a in Hn'. congruence. }
  assert (Hqueue : update_queue (window c) = queued en).
  { rewrite (inv_queue _ _ _ _ _ _ Hinv).
    rewrite puts_no_put; [apply app_nil_r|].
    intros i u Hin.
    destruct (pool_history_runs _ _ _ _ _ c i (APut u) Hinv Hin)
      as (file & tr & r & _ & Hr & Hu).
    destruct (unsupported_algorithm_run _ _ _ _ _ _ _ _ Hnew Hr) as [Hp _].
    apply In_puts in Hu. rewrite Hp in Hu. destruct Hu. }
  split; [exact Hqueue|]. split; [|split].
  - intros p err Hin Hstat. rewrite Hqueue.
    apply enumerate_stat_raises; assumption.
  - intros i Hi. destruct (Hputs i _ Hi) as (file & _ & _ & Hok & _).
    apply Hok. reflexivity.
  - intros i e' Hi. destruct (Hputs i _ Hi) as (file & Hfile & _ & _ & Hraise).
    destruct (Hraise e' eq_refl) as [He|He]; [left; exact He|].
    right. exists file. auto.
Qed.


End JobSetClaims.

(** ** The engine on a concrete machine *)

(** C1 (code defect).  [file.stat()] is called before the [try] of
    [hash_task].  On [desktop_rm] the directory [/d] is enumerated into the
    jobs [/d/a] and [/d/b], then [/d/a] is removed.  The task of [/d/a]
    raises the error of [stat] out of [hash_task]; the thread of
    [calculate_hash] meets it in [list(executor.map(...))], which cancels
    the task of [/d/b] before a worker takes it.  The queue stays empty:
    no Failure for [/d/a], and [/d/b] is never attempted. *)
Theorem stat_failure_aborts_the_job_set :
  let c := start_job (H := Reference.hashlib) desktop_rm fresh_window ["/d"] None
             (serial 0 3 ++ [Reraise] ++ serial 1 3) in
  jobs (fst (submitted desktop_rm fresh_window ["/d"] "sha256")) = ["/d/a"; "/d/b"]
  /\ tasks c = [Done (Raise (enoent "/d/a")); Cancelled]
  /\ update_queue (window c) = [].
Proof. vm_compute. repeat split; reflexivity. Qed.

(** C8 (code defect).  Two workers hash [/d/a] and [/d/b], one byte each,
    [total_bytes = 2].  Worker 0 adds its byte to the counter and reads it
    back (1); before it puts its progress item, worker 1 adds its byte,
    reads the counter back (2) and puts the fraction 2/2; then worker 0
    puts 1/2.  No error, no cancellation, both Digests delivered: the
    fractions put are 1, then 1/2, so they decrease and the last one is
    not 1. *)
Theorem progress_can_go_backwards :
  let c := start_job (H := Reference.hashlib) desktop fresh_window ["/d"] None
             (serial 0 6 ++ serial 1 7 ++ [Worker 0] ++ serial 1 3 ++ serial 0 3) in
  total_bytes (fst (submitted desktop fresh_window ["/d"] "sha256")) = 2
  /\ tasks c = [Done (Ok tt); Done (Ok tt)]
  /\ cancel_event (window c) = false
  /\ progress_fractions (update_queue (window c)) = [2 # 2; 1 # 2]%Q
  /\ List.filter is_outcome (update_queue (window c))
     = [Result "/d/b"
          "a1fce4363854ff888cff4b8e7875d600c2682390412a8cf79b37d0b11148b0fa"
          "sha256";
        Result "/d/a"
          "2d711642b726b04401627ca9fbac32f5c8530fb1903cc4db02258717921a4881"
          "sha256"].
Proof. vm_compute. repeat split; reflexivity. Qed.

(** C3, counterexample: a job set started with the name [crc32], which is
    not an algorithm of [hashlib], on a missing path and a file.  The
    Failure of the enumeration is delivered, and the refusal of the name
    is raised in the worker, after the job set has started. *)
Lemma unsupported_algorithm_counterexample :
  let c := start_job (H := Reference.hashlib) desktop fresh_window
             ["/nope"; "/hello"] (Some "crc32") (serial 0 3) in
  ~ In "crc32" algorithms_guaranteed
  /\ update_queue (window c)
     = [Error "/nope" "[Errno 2] No such file or directory: '/nope'" "crc32"]
  /\ tasks c = [Done (Raise (ValueError "unsupported hash type crc32"))].
Proof.
  split.
  - simpl. intuition discriminate.
  - vm_compute. split; reflexivity.
Qed.

(** C3, witness: the same job set. *)
Lemma unsupported_algorithm_is_not_validated_witness :
  let c := start_job (H := Reference.hashlib) desktop fresh_window
             ["/nope"; "/hello"] (Some "crc32") (serial 0 3) in
  hashlib_new (Hashlib := Reference.hashlib) "crc32"
  = Raise (ValueError "unsupported hash type crc32")
  /\ In (Error "/nope" (exn_str (enoent "/nope")) "crc32") (update_queue (window c))
  /\ (tasks c !! 0%nat = Some (Done (Ok tt)) ->
      observed_cancel (trace_of 0 (history c))).
Proof.
  intros c.
  pose proof (unsupported_algorithm_is_not_validated (H := Reference.hashlib)
                desktop fresh_window ["/nope"; "/hello"] (Some "crc32") (serial 0 3)
                (ValueError "unsupported hash type crc32") eq_refl)
    as (_ & Hfail & Hok & _).
  split; [reflexivity|]. split.
  - apply Hfail; [left; reflexivity | reflexivity].
  - apply Hok.
Defined.



(** C6, counterexample: a FIFO given as an input path is neither a
    directory nor a regular file, and it becomes a Job without a Failure. *)
Lemma special_file_counterexample :
  is_dir home "/fifo" = Ok false
  /\ is_file home "/fifo" = Ok false
  /\ enumerate home "sha256" ["/fifo"] {| total_bytes := 0; jobs := []; queued := [] |}
     = {| total_bytes := 0; jobs := ["/fifo"]; queued := [] |}.
Proof. repeat split; reflexivity. Qed.

(** C6, witness: a missing path between two files, and a FIFO. *)
Lemma enumerate_non_directory_witness :
  enumerate home "sha256" ["/hello"; "/nope"; "/empty"]
    {| total_bytes := 0; jobs := []; queued := [] |}
  = {| total_bytes := 10; jobs := ["/hello"; "/empty"];
       queued := [Error "/nope" "[Errno 2] No such file or directory: '/nope'"
                    "sha256"] |}
  /\ enumerate home "sha256" ["/fifo"] {| total_bytes := 0; jobs := []; queued := [] |}
     = {| total_bytes := 0; jobs := ["/fifo"]; queued := [] |}.
Proof.
  split.
  - refine (eq_trans
              (proj1 (enumerate_non_directory home "sha256" ["/hello"] ["/empty"]
                        "/nope" {| total_bytes := 0; jobs := []; queued := [] |})
                 (enoent "/nope") eq_refl) _).
    reflexivity.
  - refine (eq_trans
              (proj2 (enumerate_non_directory home "sha256" [] [] "/fifo"
                        {| total_bytes := 0; jobs := []; queued := [] |})
                 (plain []) eq_refl) _).
    reflexivity.
Defined.



(** C2, witness: "Cancel Job" is clicked between the [is_set()] call at
    the start of the task of [/hello] and the one in its read loop; and
    the same job set run without a click. *)
Lemma cancellation_abandons_silently_witness :
  (let c := calculate_hash (H := Reference.hashlib) desktop fresh_window
              ["/hello"] "sha256" (serial 0 2 ++ [CancelClicked] ++ serial 0 2) in
   trace_of 0 (history c) = [AIsSet false; AIsSet true]
   /\ outcomes (trace_of 0 (history c)) = []
   /\ update_queue (window c) = [])
  /\ (let c := calculate_hash (H := Reference.hashlib) desktop fresh_window
                 ["/hello"] "sha256" (serial 0 10) in
      outcomes (trace_of 0 (history c))
      = [Result "/hello"
           "936a185caaa266bb9cbe981e9e05cb78cd732b0b3280eb944412bb6f8f8f07af"
           "sha256"]).
Proof.
  split.
  - intros c.
    assert (Hdone : tasks c !! 0%nat = Some (Done (Ok tt))) by reflexivity.
    destruct (done_task_job (H := Reference.hashlib) desktop fresh_window
                ["/hello"] "sha256" _ 0 _ Hdone) as (file & _ & Hr).
    destruct (cancellation_abandons_silently _ _ _ _ _ _ _ Hr) as [Hcancel _].
    split; [reflexivity|]. split; [|reflexivity].
    apply Hcancel. right. left. reflexivity.
  - intros c.
    assert (Hdone : tasks c !! 0%nat = Some (Done (Ok tt))) by (vm_compute; reflexivity).
    destruct (done_task_job (H := Reference.hashlib) desktop fresh_window
                ["/hello"] "sha256" _ 0 _ Hdone) as (file & Hfile & Hr).
    injection Hfile as <-.
    destruct (cancellation_abandons_silently _ _ _ _ _ _ _ Hr) as [_ Hdigest].
    refine (proj1 (Hdigest _ 10 _ (plain (list_byte_of_string "helloworld")) _
                     eq_refl eq_refl eq_refl eq_refl _ _)).
    + vm_compute. intuition discriminate.
    + left. discriminate.
    + vm_compute. reflexivity.
Defined.

(** C9, witness: the file [/hello] holds the ten bytes of "helloworld". *)
Lemma digest_is_hexdigest_of_content_witness :
  outcomes (fst (run_with false 10
                   (hash_task (H := Reference.hashlib) home "sha256" 10 "/hello" 32)))
  = [Result "/hello"
       "936a185caaa266bb9cbe981e9e05cb78cd732b0b3280eb944412bb6f8f8f07af" "sha256"]
  /\ outcomes (fst (run_with false 10
                      (hash_task (H := Reference.hashlib) home "shake_128" 10
                         "/hello" 32)))
     = [Result "/hello"
          "c10fb3319e7b048b84ed8ead46abbb9f2305f595ced48174125064d734a07a3a"
          "shake_128"]
  /\ String.length "c10fb3319e7b048b84ed8ead46abbb9f2305f595ced48174125064d734a07a3a"
     = 64%nat.
Proof.
  assert (Hz : (10 <> 0)%Z \/ content (plain (list_byte_of_string "helloworld")) = [])
    by (left; discriminate).
  split.
  - refine (proj2 (digest_is_hexdigest_of_content (H := Reference.hashlib)
                     (HS := ReferenceFacts.hashlib_spec) home "sha256" 10
                     (plain (list_byte_of_string "helloworld")) "/hello" 10 _ _ _
                     eq_refl eq_refl eq_refl eq_refl Hz)
                  eq_refl 32 _ _ (runs_run_with false 10 _) _).
    + vm_compute. reflexivity.
    + vm_compute. intuition discriminate.
  - refine (proj1 (digest_is_hexdigest_of_content (H := Reference.hashlib)
                     (HS := ReferenceFacts.hashlib_spec) home "shake_128" 10
                     (plain (list_byte_of_string "helloworld")) "/hello" 10 _ _ _
                     eq_refl eq_refl eq_refl eq_refl Hz)
                  eq_refl _ _ (runs_run_with false 10 _) _).
    + vm_compute. reflexivity.
    + vm_compute. intuition discriminate.
Defined.


(** ** The timers: [process_queue], [hide_progress],
    [check_processing_complete] *)

Lemma last_cons_default {A} (a d : A) (l : list A) :
  List.last (a :: l) d = List.last l a.
Proof.
  revert a d. induction l as [|b l IH]; intros a d; [reflexivity|].
  change (List.last (a :: b :: l) d) with (List.last (b :: l) d).
  rewrite (IH b d), (IH b a). reflexivity.
Qed.

(** What one pass of the loop does with the queue: it takes a prefix,
    turns its Outcomes into rows, in order, and leaves the bar at the last
    fraction taken; it stops at the end of the queue or after the eighth
    row. *)
Lemma process_updates_spec (pending : list update) (iterations : Z)
  (self : MainWindow) :
  0 <= iterations <= 8 ->
  exists taken rest,
    pending = (taken ++ rest)%list
    /\ update_queue (process_updates pending iterations self) = rest
    /\ ui_results (process_updates pending iterations self)
       = (ui_results self ++ result_rows taken)%list
    /\ ui_errors (process_updates pending iterations self)
       = (ui_errors self ++ error_rows taken)%list
    /\ progress_bar_fraction (process_updates pending iterations self)
       = List.last (progress_fractions taken) (progress_bar_fraction self)
    /\ cancel_event (process_updates pending iterations self) = cancel_event self
    /\ window_algo (process_updates pending iterations self) = window_algo self
    /\ Z.of_nat (length (List.filter is_outcome taken)) <= 8 - iterations
    /\ (rest <> [] ->
        Z.of_nat (length (List.filter is_outcome taken)) = 8 - iterations).
Proof.
  revert iterations self.
  induction pending as [|u pending IH]; intros iterations self Hit.
  - exists [], []. simpl. rewrite !app_nil_r.
    repeat split; try reflexivity; [lia | congruence].
  - cbn [process_updates]. destruct (Z.ltb_spec iterations 8) as [Hlt|Hge].
    + destruct u as [q|fname value a|fname err a].
      * destruct (IH iterations (set_fraction q self) Hit)
          as (taken & rest & -> & Hq & Hr & He & Hb & Hc & Ha & Hn & Hfull).
        exists (Progress q :: taken), rest.
        rewrite Hq, Hr, He, Hb, Hc, Ha.
        cbn [progress_fractions]. rewrite last_cons_default.
        repeat split; try reflexivity; assumption.
      * destruct (IH (iterations + 1) (add_result fname value a false self)
                    ltac:(lia))
          as (taken & rest & -> & Hq & Hr & He & Hb & Hc & Ha & Hn & Hfull).
        exists (Result fname value a :: taken), rest.
        rewrite Hq, Hr, He, Hb, Hc, Ha. unfold result_rows, error_rows.
        cbn [List.filter is_result is_error is_outcome orb flat_map row_of
             progress_fractions length add_result ui_results ui_errors
             progress_bar_fraction cancel_event window_algo].
        rewrite <- !app_assoc.
        repeat split; try reflexivity; [lia|].
        intros Hrest. specialize (Hfull Hrest). lia.
      * destruct (IH (iterations + 1) (add_result fname err a true self)
                    ltac:(lia))
          as (taken & rest & -> & Hq & Hr & He & Hb & Hc & Ha & Hn & Hfull).
        exists (Error fname err a :: taken), rest.
        rewrite Hq, Hr, He, Hb, Hc, Ha. unfold result_rows, error_rows.
        cbn [List.filter is_result is_error is_outcome orb flat_map row_of
             progress_fractions length add_result ui_results ui_errors
             progress_bar_fraction cancel_event window_algo].
        rewrite <- !app_assoc.
        repeat split; try reflexivity; [lia|].
        intros Hrest. specialize (Hfull Hrest). lia.
    + exists [], (u :: pending). simpl. rewrite !app_nil_r.
      repeat split; try reflexivity; lia.
Qed.

Lemma result_rows_app (q1 q2 : list update) :
  result_rows (q1 ++ q2) = (result_rows q1 ++ result_rows q2)%list.
Proof. unfold result_rows. rewrite List.filter_app, flat_map_app. reflexivity. Qed.

Lemma error_rows_app (q1 q2 : list update) :
  error_rows (q1 ++ q2) = (error_rows q1 ++ error_rows q2)%list.
Proof. unfold error_rows. rewrite List.filter_app, flat_map_app. reflexivity. Qed.

Lemma progress_fractions_app (q1 q2 : list update) :
  progress_fractions (q1 ++ q2)
  = (progress_fractions q1 ++ progress_fractions q2)%list.
Proof.
  induction q1 as [|[q|f v a|f e a] q1 IH]; simpl; rewrite ?IH; reflexivity.
Qed.

Lemma last_app_default {A} (l1 l2 : list A) (d : A) :
  List.last (l1 ++ l2) d = List.last l2 (List.last l1 d).
Proof.
  revert d. induction l1 as [|a l1 IH]; intros d; [reflexivity|].
  rewrite <- app_comm_cons, !last_cons_default. apply IH.
Qed.

(** With an empty queue and no cancellation a round changes nothing. *)
Lemma timer_rounds_idle (n : nat) (self : MainWindow) :
  cancel_event self = false -> update_queue self = [] ->
  timer_rounds n self = self.
Proof.
  intros Hc Hq. induction n as [|n IH]; [reflexivity|].
  cbn [timer_rounds]. unfold process_queue. rewrite Hc, Hq. cbn.
  replace (set_update_queue [] self) with self; [exact IH|].
  destruct self; simpl in *; subst; reflexivity.
Qed.

(** Rounds enough for the Outcomes of the queue, eight a round, empty it:
    every Outcome has become a row, in queue order, and the bar reads the
    last fraction of the queue. *)
Lemma timer_rounds_spec (n : nat) (self : MainWindow) :
  cancel_event self = false ->
  (length (List.filter is_outcome (update_queue self)) < 8 * n)%nat ->
  update_queue (timer_rounds n self) = []
  /\ ui_results (timer_rounds n self)
     = (ui_results self ++ result_rows (update_queue self))%list
  /\ ui_errors (timer_rounds n self)
     = (ui_errors self ++ error_rows (update_queue self))%list
  /\ progress_bar_fraction (timer_rounds n self)
     = List.last (progress_fractions (update_queue self)) (progress_bar_fraction self)
  /\ cancel_event (timer_rounds n self) = false.
Proof.
  revert self. induction n as [|n IH]; intros self Hc Hlen; [lia|].
  cbn [timer_rounds]. unfold process_queue. rewrite Hc. cbn [fst snd].
  destruct (process_updates_spec (update_queue self) 0 self ltac:(lia))
    as (taken & rest & Hsplit & Hq & Hr & He & Hb & Hc' & _ & Hn & Hfull).
  set (self1 := process_updates (update_queue self) 0 self) in *.
  rewrite Hc in Hc'.
  rewrite Hsplit, result_rows_app, error_rows_app, progress_fractions_app,
    last_app_default, !app_assoc, <- Hr, <- He, <- Hb.
  destruct rest as [|u rest].
  - rewrite (timer_rounds_idle n self1 Hc' Hq). rewrite Hq.
    unfold result_rows, error_rows. simpl. rewrite !app_nil_r. auto.
  - assert (Hrest : (length (List.filter is_outcome (update_queue self1)) < 8 * n)%nat).
    { rewrite Hq. specialize (Hfull ltac:(discriminate)).
      rewrite Hsplit, List.filter_app, length_app in Hlen. lia. }
    destruct (IH self1 Hc' Hrest) as (Hq2 & Hr2 & He2 & Hb2 & Hc2).
    rewrite Hq in Hr2, He2, Hb2. auto.
Qed.

(** One call of [process_queue] without a cancellation takes a prefix of
    the queue and leaves the rest; the Digests taken become rows of
    [ui_results] and the Failures rows of [ui_errors], in queue order; the
    bar is left at the last fraction taken; progress items are not
    counted, and at most eight Outcomes are taken, exactly eight when
    something is left; the timer is kept. *)
Theorem process_queue_takes_a_prefix (self : MainWindow) :
  cancel_event self = false ->
  snd (process_queue self) = true
  /\ exists taken rest,
       update_queue self = (taken ++ rest)%list
       /\ update_queue (fst (process_queue self)) = rest
       /\ ui_results (fst (process_queue self))
          = (ui_results self ++ result_rows taken)%list
       /\ ui_errors (fst (process_queue self))
          = (ui_errors self ++ error_rows taken)%list
       /\ progress_bar_fraction (fst (process_queue self))
          = List.last (progress_fractions taken) (progress_bar_fraction self)
       /\ (length (List.filter is_outcome taken) <= 8)%nat
       /\ (rest <> [] -> length (List.filter is_outcome taken) = 8%nat).
Proof.
  intros Hc. unfold process_queue. rewrite Hc. cbn [fst snd].
  split; [reflexivity|].
  destruct (process_updates_spec (update_queue self) 0 self ltac:(lia))
    as (taken & rest & Hsplit & Hq & Hr & He & Hb & _ & _ & Hn & Hfull).
  exists taken, rest. repeat split; try assumption; [lia|].
  intros Hrest. specialize (Hfull Hrest). lia.
Qed.

(** Once "Cancel Job" is clicked, the next call of [process_queue]
    throws the queue away and stops its timer: whatever was queued, the
    Digests of the jobs that finished before the click included, never
    becomes a row, and the bar is left where it was. *)
Theorem cancel_discards_the_queue (n : nat) (self : MainWindow) :
  cancel_event self = true ->
  snd (process_queue self) = false
  /\ ui_results (timer_rounds n self) = ui_results self
  /\ ui_errors (timer_rounds n self) = ui_errors self
  /\ progress_bar_fraction (timer_rounds n self) = progress_bar_fraction self
  /\ (n <> O -> update_queue (timer_rounds n self) = []).
Proof.
  intros Hc. unfold process_queue. rewrite Hc. split; [reflexivity|].
  destruct n as [|n]; [repeat split; try reflexivity; congruence|].
  cbn [timer_rounds]. unfold process_queue. rewrite Hc. cbn.
  repeat split; reflexivity.
Qed.

(** Without a cancellation, [n] rounds of the timer with [8 * n] more than
    the Outcomes queued empty the queue: every Digest queued is a row of
    [ui_results] and every Failure a row of [ui_errors], in queue order
    and after the rows that were there, and the bar reads the last
    fraction queued. *)
Theorem timer_rounds_drain_the_queue (n : nat) (self : MainWindow) :
  cancel_event self = false ->
  (length (List.filter is_outcome (update_queue self)) < 8 * n)%nat ->
  update_queue (timer_rounds n self) = []
  /\ ui_results (timer_rounds n self)
     = (ui_results self ++ result_rows (update_queue self))%list
  /\ ui_errors (timer_rounds n self)
     = (ui_errors self ++ error_rows (update_queue self))%list
  /\ progress_bar_fraction (timer_rounds n self)
     = List.last (progress_fractions (update_queue self)) (progress_bar_fraction self).
Proof.
  intros Hc Hlen.
  destruct (timer_rounds_spec n self Hc Hlen) as (Hq & Hr & He & Hb & _).
  auto.
Qed.

(** [hide_progress] and [check_processing_complete] stop only when the bar
    reads exactly one or the job is cancelled.  So when the last fraction
    queued is not one, then once the queue is empty both keep their timers
    for ever: the spinner stays, "Open" and the drop-down of algorithms
    stay insensitive and "Cancel Job" stays visible, and further rounds
    change nothing. *)
Theorem timers_wait_for_a_full_bar (n m : nat) (self : MainWindow) :
  cancel_event self = false ->
  (length (List.filter is_outcome (update_queue self)) < 8 * n)%nat ->
  ~ (List.last (progress_fractions (update_queue self)) (progress_bar_fraction self)
     == 1)%Q ->
  timer_rounds (n + m) self = timer_rounds n self
  /\ hide_progress (timer_rounds (n + m) self) = true
  /\ check_processing_complete (timer_rounds (n + m) self) = true.
Proof.
  intros Hc Hlen Hlast.
  destruct (timer_rounds_spec n self Hc Hlen) as (Hq & _ & _ & Hb & Hc').
  assert (Hadd : forall k s, timer_rounds (k + m) s = timer_rounds m (timer_rounds k s)
                             \/ cancel_event s = true).
  { induction k as [|k IHk]; intros s; [left; reflexivity|].
    destruct (cancel_event s) eqn:Hs; [right; reflexivity | left].
    cbn [Nat.add timer_rounds]. unfold process_queue. rewrite Hs. cbn [fst snd].
    destruct (IHk (process_updates (update_queue s) 0 s)) as [->|Hx];
      [reflexivity|].
    destruct (process_updates_spec (update_queue s) 0 s ltac:(lia))
      as (_ & _ & _ & _ & _ & _ & _ & Hcs & _).
    congruence. }
  destruct (Hadd n self) as [Heq|Hx]; [|congruence].
  rewrite Heq, (timer_rounds_idle m _ Hc' Hq).
  split; [reflexivity|].
  unfold hide_progress, check_processing_complete, job_is_over.
  rewrite Hc', Hb.
  destruct (Qeq_bool _ 1) eqn:E; [|split; reflexivity].
  apply Qeq_bool_iff in E. contradiction.
Qed.

(** ** Buttons *)

(** With Failures and no Digest in the lists, [has_results] leaves "Copy"
    and "Save" sensitive, and both fail on the unbound [output] of
    [results_to_txt]: [on_copy_all_clicked] raises, and the handler of
    "Save", which has opened the chosen file for writing by then, leaves it
    empty and shows the failure. *)
Theorem export_of_errors_only_fails (now : string) (self : MainWindow)
  (e : HashResultRow) (es : list HashResultRow) :
  ui_results self = [] ->
  ui_errors self = e :: es ->
  button_copy_all (has_results self) = true
  /\ button_save (has_results self) = true
  /\ button_sort (has_results self) = false
  /\ on_copy_all_clicked now self = Raise (UnboundLocalError "output")
  /\ on_save_clicked None now self
     = (Some "",
        FailedToSave
          "cannot access local variable 'output' where it is not associated with a value").
Proof.
  intros Hr He.
  assert (Htxt : results_to_txt now (ui_results self) (ui_errors self)
                 = Raise (UnboundLocalError "output")).
  { rewrite Hr, He. unfold results_to_txt. rewrite rows_text_truthy. reflexivity. }
  unfold has_results, on_copy_all_clicked, on_save_clicked.
  rewrite Htxt, Hr, He. repeat split; reflexivity.
Qed.

(** With at least one Digest in the list, "Copy" and "Save" deliver the
    report: the Results section, whose last line ends in a blank, then
    the Errors section if there is a Failure; every widget [has_results]
    sets is sensitive ("Save", "Copy", "Sort", "Clear" and the view
    switcher) and the badges count the rows. *)
Theorem export_with_results_succeeds (now : string) (self : MainWindow)
  (r : HashResultRow) (rs : list HashResultRow) :
  ui_results self = r :: rs ->
  let output :=
    "Results - Saved on " ++ now ++ ":" ++ nl ++ str_mul "-" 40 ++ nl
    ++ String.concat nl (map HashResultRow_str (ui_results self)) ++ " "
    ++ match ui_errors self with
       | [] => nl
       | _ :: _ =>
           nl ++ nl ++ "Errors - Saved on " ++ now ++ ":" ++ nl
           ++ str_mul "-" 40 ++ nl
           ++ String.concat nl (map HashResultRow_str (ui_errors self)) ++ nl
       end in
  on_copy_all_clicked now self = Ok output
  /\ on_save_clicked None now self = (Some output, Saved)
  /\ button_copy_all (has_results self) = true
  /\ button_save (has_results self) = true
  /\ button_sort (has_results self) = true
  /\ button_clear (has_results self) = true
  /\ view_switcher (has_results self) = true
  /\ results_badge (has_results self) = length (ui_results self)
  /\ errors_badge (has_results self) = length (ui_errors self).
Proof.
  intros Hr output.
  assert (Htxt : results_to_txt now (ui_results self) (ui_errors self) = Ok output).
  { unfold output. rewrite Hr. apply results_to_txt_with_results_eq. }
  unfold has_results, on_copy_all_clicked, on_save_clicked.
  rewrite Htxt, Hr. repeat split; try reflexivity.
  destruct (ui_errors self); reflexivity.
Qed.

Lemma str_lt_irrefl (a : string) : ~ str_lt a a.
Proof.
  unfold str_lt. intros Hlt.
  pose proof (String.compare_antisym a a) as Hanti.
  rewrite Hlt in Hanti. discriminate Hanti.
Qed.

Lemma sorted_without (R : string -> string -> Prop) (l1 l2 : list string)
  (x : string) :
  StronglySorted R (l1 ++ x :: l2) ->
  StronglySorted R (l1 ++ l2)
  /\ Forall (fun a => R a x) l1 /\ Forall (R x) l2.
Proof.
  induction l1 as [|a l1 IH]; simpl; intros Hs.
  - inversion Hs; subst. auto.
  - inversion Hs as [|? ? Hs' Ha]; subst.
    destruct (IH Hs') as (Hs1 & H1 & H2).
    apply Forall_app in Ha as [Ha1 Ha2].
    inversion Ha2 as [|? ? Hax Ha2']; subst.
    split; [|split; [constructor|]]; auto.
    constructor; [exact Hs1|]. apply Forall_app. auto.
Qed.

Lemma filter_all (keep : string -> bool) (l : list string) :
  Forall (fun a => keep a = true) l -> List.filter keep l = l.
Proof.
  induction 1 as [|a l Ha _ IH]; simpl; [reflexivity|].
  rewrite Ha, IH. reflexivity.
Qed.

Lemma available_algorithms_sorted : StronglySorted str_lt available_algorithms.
Proof.
  assert (Heq : available_algorithms = algorithms_guaranteed) by reflexivity.
  rewrite Heq. unfold algorithms_guaranteed, str_lt.
  repeat (constructor; [|repeat constructor]). constructor.
Qed.

(** "Multi-Hash" on a row whose algorithm is one of the drop-down calls
    [start_job] thirteen times: once for each other algorithm of the
    drop-down, in the order of the drop-down, which is the sorted order
    of the names, each time with the file of the row as the only path;
    the algorithm of the row is not computed again. *)
Theorem multi_hash_skips_the_algorithm_of_the_row (row : HashResultRow)
  (before after : list string) :
  available_algorithms = (before ++ algo row :: after)%list ->
  on_click_make_hashes available_algorithms row
  = map (fun a => ([file_name row], Some a)) (before ++ after)
  /\ length (before ++ after) = 13%nat
  /\ StronglySorted str_lt (before ++ after)
  /\ ~ In (algo row) (before ++ after)
  /\ (forall a, In a (before ++ after)
                <-> In a algorithms_guaranteed /\ a <> algo row).
Proof.
  intros Hsplit.
  pose proof available_algorithms_sorted as Hsorted. rewrite Hsplit in Hsorted.
  destruct (sorted_without _ _ _ _ Hsorted) as (Hrest & Hbefore & Hafter).
  assert (Hb : Forall (fun a => a <> algo row) before).
  { eapply Forall_impl; [exact Hbefore|]. simpl. intros a Ha ->.
    exact (str_lt_irrefl _ Ha). }
  assert (Ha : Forall (fun a => a <> algo row) after).
  { eapply Forall_impl; [exact Hafter|]. simpl. intros a Hlt ->.
    exact (str_lt_irrefl _ Hlt). }
  assert (Hnot : ~ In (algo row) (before ++ after)).
  { intros Hin. apply in_app_or in Hin as [Hin|Hin].
    - rewrite Forall_forall in Hb. exact (Hb _ (proj2 (list_elem_of_In _ _) Hin) eq_refl).
    - rewrite Forall_forall in Ha. exact (Ha _ (proj2 (list_elem_of_In _ _) Hin) eq_refl). }
  assert (Hkeep : forall l, Forall (fun a => a <> algo row) l ->
            List.filter (fun a => negb (String.eqb a (algo row))) l = l).
  { intros l Hl. apply filter_all. eapply Forall_impl; [exact Hl|]. simpl.
    intros a Hne. destruct (String.eqb_spec a (algo row)); [contradiction|reflexivity]. }
  split; [|split; [|split; [exact Hrest|split; [exact Hnot|]]]].
  - unfold on_click_make_hashes. rewrite Hsplit, List.filter_app. cbn [List.filter].
    rewrite String.eqb_refl. cbn [negb]. rewrite (Hkeep _ Hb), (Hkeep _ Ha).
    reflexivity.
  - assert (Hlen : length available_algorithms = 14%nat) by reflexivity.
    rewrite Hsplit, length_app in Hlen. cbn [length] in Hlen.
    rewrite length_app. lia.
  - intros a.
    assert (Hall : In a algorithms_guaranteed <-> In a (before ++ algo row :: after)).
    { rewrite <- Hsplit. assert (Heq : available_algorithms = algorithms_guaranteed)
        by reflexivity. rewrite Heq. reflexivity. }
    rewrite Hall, !in_app_iff. cbn [In]. split.
    + intros Hin. split; [tauto|]. intros ->. apply Hnot.
      apply in_or_app. exact Hin.
    + intros [[Hin|[Heq|Hin]] Hne]; [auto| |auto]. congruence.
Qed.

(** *** On a concrete window *)

(** The window after the two workers of [desktop] have hashed [/d] with
    the progress items put out of order. *)
Lemma process_queue_takes_a_prefix_witness :
  let self := window (start_job (H := Reference.hashlib) desktop fresh_window
                        ["/d"] None
                        (serial 0 6 ++ serial 1 7 ++ [Worker 0]
                         ++ serial 1 3 ++ serial 0 3)) in
  snd (process_queue self) = true
  /\ exists taken rest,
       update_queue self = (taken ++ rest)%list
       /\ update_queue (fst (process_queue self)) = rest
       /\ ui_results (fst (process_queue self))
          = (ui_results self ++ result_rows taken)%list
       /\ ui_errors (fst (process_queue self))
          = (ui_errors self ++ error_rows taken)%list
       /\ progress_bar_fraction (fst (process_queue self))
          = List.last (progress_fractions taken) (progress_bar_fraction self)
       /\ (length (List.filter is_outcome taken) <= 8)%nat
       /\ (rest <> [] -> length (List.filter is_outcome taken) = 8%nat).
Proof.
  intros self. apply (process_queue_takes_a_prefix self). reflexivity.
Defined.

(** The job of [/hello] is finished and its Digest queued when "Cancel
    Job" is clicked: the Digest is never shown. *)
Lemma cancel_discards_the_queue_witness :
  let self := window (start_job (H := Reference.hashlib) desktop fresh_window
                        ["/hello"] None (serial 0 10 ++ [CancelClicked])) in
  List.filter is_outcome (update_queue self)
  = [Result "/hello"
       "936a185caaa266bb9cbe981e9e05cb78cd732b0b3280eb944412bb6f8f8f07af" "sha256"]
  /\ ui_results (timer_rounds 3 self) = []
  /\ update_queue (timer_rounds 3 self) = [].
Proof.
  intros self.
  destruct (cancel_discards_the_queue 3 self eq_refl) as (_ & Hr & _ & _ & Hq).
  split; [vm_compute; reflexivity|]. split.
  - rewrite Hr. reflexivity.
  - apply Hq. discriminate.
Defined.

Lemma timer_rounds_drain_the_queue_witness :
  let self := window (start_job (H := Reference.hashlib) desktop fresh_window
                        ["/d"; "/nope"] None
                        (serial 0 8 ++ serial 1 8)) in
  update_queue (timer_rounds 1 self) = []
  /\ ui_results (timer_rounds 1 self)
     = [ {| file_name := "/d/a";
            hash_value := "2d711642b726b04401627ca9fbac32f5c8530fb1903cc4db02258717921a4881";
            algo := "sha256" |};
         {| file_name := "/d/b";
            hash_value := "a1fce4363854ff888cff4b8e7875d600c2682390412a8cf79b37d0b11148b0fa";
            algo := "sha256" |} ]
  /\ ui_errors (timer_rounds 1 self)
     = [ {| file_name := "/nope";
            hash_value := "[Errno 2] No such file or directory: '/nope'";
            algo := "sha256" |} ]
  /\ (progress_bar_fraction (timer_rounds 1 self) == 1)%Q.
Proof.
  intros self.
  destruct (timer_rounds_drain_the_queue 1 self eq_refl) as (Hq & Hr & He & Hb).
  - vm_compute. lia.
  - split; [exact Hq|]. split; [|split].
    + rewrite Hr. vm_compute. reflexivity.
    + rewrite He. vm_compute. reflexivity.
    + rewrite Hb. vm_compute. reflexivity.
Defined.

(** After the run of [progress_can_go_backwards] the bar is left at 1/2
    and the timers never stop. *)
Lemma timers_wait_for_a_full_bar_witness :
  let self := window (start_job (H := Reference.hashlib) desktop fresh_window
                        ["/d"] None
                        (serial 0 6 ++ serial 1 7 ++ [Worker 0]
                         ++ serial 1 3 ++ serial 0 3)) in
  (progress_bar_fraction (timer_rounds 1 self) == 1 # 2)%Q
  /\ length (ui_results (timer_rounds 1 self)) = 2%nat
  /\ forall m, check_processing_complete (timer_rounds (1 + m) self) = true.
Proof.
  intros self.
  assert (Hlen : (length (List.filter is_outcome (update_queue self)) < 8 * 1)%nat)
    by (vm_compute; lia).
  assert (Hlast : ~ (List.last (progress_fractions (update_queue self))
                       (progress_bar_fraction self) == 1)%Q)
    by (vm_compute; discriminate).
  split; [vm_compute; reflexivity|]. split; [vm_compute; reflexivity|].
  intros m.
  destruct (timers_wait_for_a_full_bar 1 m self eq_refl Hlen Hlast) as (_ & _ & Hcheck).
  exact Hcheck.
Defined.

Lemma export_of_errors_only_fails_witness :
  let self := timer_rounds 1
                (window (start_job (H := Reference.hashlib) desktop fresh_window
                           ["/nope"] None [])) in
  ui_errors self
  = [ {| file_name := "/nope";
         hash_value := "[Errno 2] No such file or directory: '/nope'";
         algo := "sha256" |} ]
  /\ button_copy_all (has_results self) = true
  /\ on_copy_all_clicked "January 01, 2025 at 12:00:00 " self
     = Raise (UnboundLocalError "output").
Proof.
  intros self.
  destruct (export_of_errors_only_fails "January 01, 2025 at 12:00:00 " self
              {| file_name := "/nope";
                 hash_value := "[Errno 2] No such file or directory: '/nope'";
                 algo := "sha256" |} [] eq_refl eq_refl)
    as (Hcopy & _ & _ & Hraise & _).
  split; [reflexivity|]. split; [exact Hcopy | exact Hraise].
Defined.

Lemma export_with_results_succeeds_witness :
  let self := timer_rounds 1
                (window (start_job (H := Reference.hashlib) desktop fresh_window
                           ["/empty"] None (serial 0 4))) in
  on_copy_all_clicked "now" self
  = Ok ("Results - Saved on now:" ++ nl ++ str_mul "-" 40 ++ nl
        ++ "/empty:e3b0c44298fc1c149afbf4c8996fb92427ae41e4649b934ca495991b7852b855:sha256 "
        ++ nl).
Proof.
  intros self.
  exact (proj1 (export_with_results_succeeds "now" self
                  {| file_name := "/empty";
                     hash_value := "e3b0c44298fc1c149afbf4c8996fb92427ae41e4649b934ca495991b7852b855";
                     algo := "sha256" |} [] eq_refl)).
Defined.

Lemma multi_hash_skips_the_algorithm_of_the_row_witness :
  on_click_make_hashes available_algorithms
    {| file_name := "/hello"; hash_value := "936a"; algo := "sha256" |}
  = map (fun a => (["/hello"], Some a))
      [ "blake2b"; "blake2s"; "md5"; "sha1"; "sha224"; "sha384";
        "sha3_224"; "sha3_256"; "sha3_384"; "sha3_512"; "sha512";
        "shake_128"; "shake_256" ].
Proof.
  exact (proj1 (multi_hash_skips_the_algorithm_of_the_row
                  {| file_name := "/hello"; hash_value := "936a"; algo := "sha256" |}
                  [ "blake2b"; "blake2s"; "md5"; "sha1"; "sha224" ]
                  [ "sha384"; "sha3_224"; "sha3_256"; "sha3_384"; "sha3_512";
                    "sha512"; "shake_128"; "shake_256" ]
                  eq_refl)).
Defined.

(** ** More on the enumeration *)

Lemma scan_entries_jobs (fs : filesystem) (entries : list path) (st : enumeration) :
  exists new,
    jobs (fst (scan_entries fs entries st)) = (jobs st ++ new)%list
    /\ total_bytes (fst (scan_entries fs entries st))
       = total_bytes st + fold_right Z.add 0 (map (fun f => node_size (fs f)) new)
    /\ Forall (fun f => In f entries /\ is_file fs f = Ok true) new.
Proof.
  revert st. induction entries as [|f rest IH]; intros st.
  - exists []. simpl. rewrite app_nil_r. repeat split; [lia | constructor].
  - simpl. destruct (is_file fs f) as [[|]|e] eqn:Ef.
    + assert (Hsize : stat_size fs f = Ok (node_size (fs f))).
      { unfold is_file in Ef. unfold stat_size, node_size.
        destruct (fs f); try discriminate; reflexivity. }
      rewrite Hsize.
      destruct (IH (add_job f (node_size (fs f)) st)) as (new & Hj & Ht & HF).
      exists (f :: new). rewrite Hj, Ht. simpl. rewrite <- app_assoc.
      repeat split; [lia|]. constructor; [auto|].
      eapply Forall_impl; [exact HF|]. simpl. intros g [Hg1 Hg2]. auto.
    + destruct (IH st) as (new & Hj & Ht & HF).
      exists new. repeat split; try assumption.
      eapply Forall_impl; [exact HF|]. simpl. intros g [Hg1 Hg2]. auto.
    + exists []. simpl. rewrite app_nil_r. repeat split; [lia | constructor].
Qed.

(** The exception the [try] of an input path ends with does not depend on
    what was enumerated before it. *)
Lemma scan_entries_raised (fs : filesystem) (entries : list path)
  (st st' : enumeration) :
  snd (scan_entries fs entries st) = snd (scan_entries fs entries st').
Proof.
  revert st st'. induction entries as [|f rest IH]; intros st st'; simpl;
    [reflexivity|].
  destruct (is_file fs f) as [[|]|e]; simpl; auto.
  destruct (stat_size fs f) as [size|e]; simpl; auto.
Qed.

Lemma scan_path_raised (fs : filesystem) (p : path) (st st' : enumeration) :
  snd (scan_path fs p st) = snd (scan_path fs p st').
Proof.
  unfold scan_path. destruct (is_dir fs p) as [[|]|e]; simpl; auto.
  - destruct (iterdir fs p) as [entries|e]; simpl; auto using scan_entries_raised.
  - destruct (stat_size fs p) as [size|e]; reflexivity.
Qed.

(** The loop over the entries raises exactly at the first entry [is_file]
    raises on. *)
Lemma scan_entries_raises_iff (fs : filesystem) (entries : list path)
  (st : enumeration) (e : exn) :
  snd (scan_entries fs entries st) = Some e
  <-> exists seen bad rest,
        entries = (seen ++ bad :: rest)%list
        /\ Forall (fun f => exists b, is_file fs f = Ok b) seen
        /\ is_file fs bad = Raise e.
Proof.
  revert st. induction entries as [|f entries IH]; intros st; simpl.
  - split; [discriminate|].
    intros (seen & bad & rest & Heq & _). destruct seen; discriminate Heq.
  - assert (Hstat : is_file fs f = Ok true -> stat_size fs f = Ok (node_size (fs f))).
    { unfold is_file, stat_size, node_size. destruct (fs f); try discriminate;
        reflexivity. }
    split.
    + destruct (is_file fs f) as [[|]|e'] eqn:Ef.
      * rewrite (Hstat eq_refl). intros Hr.
        apply IH in Hr as (seen & bad & rest & -> & Hseen & Hbad).
        exists (f :: seen), bad, rest. split; [reflexivity|].
        split; [constructor; eauto | exact Hbad].
      * intros Hr. apply IH in Hr as (seen & bad & rest & -> & Hseen & Hbad).
        exists (f :: seen), bad, rest. split; [reflexivity|].
        split; [constructor; eauto | exact Hbad].
      * simpl. intros He. injection He as ->.
        exists [], f, entries. split; [reflexivity|]. split; [constructor | exact Ef].
    + intros (seen & bad & rest & Heq & Hseen & Hbad).
      destruct seen as [|f' seen]; simpl in Heq; injection Heq as -> ->.
      * rewrite Hbad. reflexivity.
      * apply Forall_cons in Hseen as [[b Hb] Hseen]. rewrite Hb.
        assert (Hrest : forall st', snd (scan_entries fs (seen ++ bad :: rest) st')
                                    = Some e).
        { intros st'. apply IH. exists seen, bad, rest. auto. }
        destruct b; [rewrite (Hstat Hb)|]; apply Hrest.
Qed.

(** The queue after the enumeration is the queue before it followed by
    exactly one Failure for each input path whose [try] raised, in the
    order of the input paths, keyed on the input path, carrying the text
    of the exception and tagged with the algorithm of the job set:
    nothing that was queued is lost or reordered, a path whose [try] did
    not raise puts nothing, and the enumeration puts neither a Digest nor
    a progress item.  The [try] of a path raises when [is_dir] raises,
    when the path is not a directory and [stat] raises, when the listing
    of the directory raises, or at the first entry [is_file] raises on. *)
Theorem enumeration_reports_failures_only (fs : filesystem) (algo : string)
  (paths : list path) (st : enumeration) :
  exists raised : path -> option exn,
    queued (enumerate fs algo paths st)
    = (queued st
       ++ flat_map (fun p => match raised p with
                             | Some e => [Error p (exn_str e) algo]
                             | None => []
                             end) paths)%list
    /\ (forall p st', snd (scan_path fs p st') = raised p)
    /\ (forall p e,
          raised p = Some e
          <-> is_dir fs p = Raise e
              \/ (is_dir fs p = Ok false /\ stat_size fs p = Raise e)
              \/ (is_dir fs p = Ok true /\ iterdir fs p = Raise e)
              \/ (is_dir fs p = Ok true
                  /\ exists seen bad rest,
                       iterdir fs p = Ok (seen ++ bad :: rest)%list
                       /\ Forall (fun f => exists b, is_file fs f = Ok b) seen
                       /\ is_file fs bad = Raise e)).
Proof.
  exists (fun p => snd (scan_path fs p st)).
  split; [|split].
  - revert st. induction paths as [|p rest IH]; intros st; simpl.
    + rewrite app_nil_r. reflexivity.
    + pose proof (scan_path_queued fs p st) as Hq.
      assert (Hrest : forall st1,
                flat_map (fun p0 => match snd (scan_path fs p0 st1) with
                                    | Some e => [Error p0 (exn_str e) algo]
                                    | None => []
                                    end) rest
                = flat_map (fun p0 => match snd (scan_path fs p0 st) with
                                      | Some e => [Error p0 (exn_str e) algo]
                                      | None => []
                                      end) rest).
      { intros st1. apply flat_map_ext. intros p0.
        rewrite (scan_path_raised fs p0 st1 st). reflexivity. }
      destruct (scan_path fs p st) as [st' [e|]] eqn:Es; cbn [fst snd] in *.
      * rewrite IH, Hrest. cbn [put_error queued]. rewrite Hq, <- app_assoc.
        reflexivity.
      * rewrite IH, Hrest, Hq. reflexivity.
  - intros p st'. apply scan_path_raised.
  - intros p e. unfold scan_path.
    destruct (is_dir fs p) as [[|]|e'] eqn:Ed.
    + destruct (iterdir fs p) as [entries|e'] eqn:Ei.
      * rewrite scan_entries_raises_iff. split.
        -- intros (seen & bad & rest & -> & Hseen & Hbad).
           right. right. right. split; [reflexivity|].
           exists seen, bad, rest. auto.
        -- intros [Hx|[[Hx _]|[[_ Hx]|[_ (seen & bad & rest & Hx & Hseen & Hbad)]]]];
             try discriminate Hx.
           injection Hx as ->. exists seen, bad, rest. auto.
      * cbn [snd]. split.
        -- intros He. injection He as ->. right. right. left. auto.
        -- intros [Hx|[[Hx _]|[[_ Hx]|[_ (seen & bad & rest & Hx & _)]]]];
             try discriminate Hx.
           injection Hx as ->. reflexivity.
    + destruct (stat_size fs p) as [size|e'] eqn:Es; cbn [snd].
      * split; [discriminate|].
        intros [Hx|[[_ Hx]|[[Hx _]|[Hx _]]]]; discriminate Hx.
      * split.
        -- intros He. injection He as ->. right. left. auto.
        -- intros [Hx|[[_ Hx]|[[Hx _]|[Hx _]]]]; try discriminate Hx.
           injection Hx as ->. reflexivity.
    + cbn [snd]. split.
      * intros He. injection He as ->. left. reflexivity.
      * intros [Hx|[[Hx _]|[[Hx _]|[Hx _]]]]; try discriminate Hx.
        injection Hx as ->. reflexivity.
Qed.

(** Every job is an input path that is not a directory and that [stat]
    accepts, or a regular file named by one of the names the listing of
    an input directory gives, joined to that directory: the enumeration
    never lists anything but the input directories themselves.  The jobs
    are added after those already there, and [total_bytes] grows by the
    sum of the sizes [stat] reports for them. *)
Theorem jobs_are_inputs_or_their_entries (fs : filesystem) (algo : string)
  (paths : list path) (st : enumeration) :
  exists new,
    jobs (enumerate fs algo paths st) = (jobs st ++ new)%list
    /\ total_bytes (enumerate fs algo paths st) = total_bytes st + sizes fs new
    /\ Forall (fun f =>
                 (In f paths /\ is_dir fs f = Ok false
                  /\ stat_size fs f = Ok (node_size (fs f)))
                 \/ (exists dir size names name,
                        In dir paths /\ fs dir = Directory size (Ok names)
                        /\ In name names
                        /\ f = joinpath dir name /\ is_file fs f = Ok true)) new.
Proof.
  unfold sizes. revert st. induction paths as [|p rest IH]; intros st; simpl.
  - exists []. simpl. rewrite app_nil_r. repeat split; [lia | constructor].
  - assert (Hscan : exists new,
              jobs (fst (scan_path fs p st)) = (jobs st ++ new)%list
              /\ total_bytes (fst (scan_path fs p st))
                 = total_bytes st
                   + fold_right Z.add 0 (map (fun f => node_size (fs f)) new)
              /\ Forall (fun f =>
                   (f = p /\ is_dir fs f = Ok false
                    /\ stat_size fs f = Ok (node_size (fs f)))
                   \/ (exists size names name,
                          fs p = Directory size (Ok names) /\ In name names
                          /\ f = joinpath p name /\ is_file fs f = Ok true)) new).
    { unfold scan_path. destruct (is_dir fs p) as [[|]|e] eqn:Ed; simpl.
      - destruct (iterdir fs p) as [entries|e] eqn:Ei; simpl.
        + destruct (scan_entries_jobs fs entries st) as (new & Hj & Ht & HF).
          exists new. repeat split; try assumption.
          eapply Forall_impl; [exact HF|]. simpl. intros f [Hin Hfile]. right.
          unfold iterdir in Ei. destruct (fs p) as [| | | |size listing];
            try discriminate.
          destruct listing as [names|]; [|discriminate]. injection Ei as <-.
          apply in_map_iff in Hin as (name & <- & Hname).
          exists size, names, name. auto.
        + exists []. simpl. rewrite app_nil_r. repeat split; [lia | constructor].
      - destruct (stat_size fs p) as [size|e] eqn:Es; simpl.
        + assert (size = node_size (fs p)) as ->.
          { unfold stat_size in Es. unfold node_size.
            destruct (fs p); try discriminate; congruence. }
          exists [p]. simpl. repeat split; [lia|].
          constructor; [left; auto | constructor].
        + exists []. simpl. rewrite app_nil_r. repeat split; [lia | constructor].
      - exists []. simpl. rewrite app_nil_r. repeat split; [lia | constructor]. }
    destruct Hscan as (new1 & Hj1 & Ht1 & HF1).
    destruct (scan_path fs p st) as [st' raised]. simpl in Hj1, Ht1.
    assert (Hrest : exists new2,
              jobs (enumerate fs algo rest
                      match raised with
                      | Some e => put_error p e algo st'
                      | None => st'
                      end) = (jobs st' ++ new2)%list
              /\ total_bytes (enumerate fs algo rest
                      match raised with
                      | Some e => put_error p e algo st'
                      | None => st'
                      end)
                 = total_bytes st'
                   + fold_right Z.add 0 (map (fun f => node_size (fs f)) new2)
              /\ Forall (fun f =>
                   (In f rest /\ is_dir fs f = Ok false
                    /\ stat_size fs f = Ok (node_size (fs f)))
                   \/ (exists dir size names name,
                          In dir rest /\ fs dir = Directory size (Ok names)
                          /\ In name names
                          /\ f = joinpath dir name /\ is_file fs f = Ok true)) new2).
    { destruct raised as [e|]; [apply (IH (put_error p e algo st')) | apply IH]. }
    destruct Hrest as (new2 & Hj2 & Ht2 & HF2).
    exists (new1 ++ new2)%list. rewrite Hj2, Ht2, Hj1, Ht1.
    rewrite map_app, fold_right_app, <- app_assoc.
    split; [reflexivity|]. split.
    + clear. induction (map (fun f => node_size (fs f)) new1) as [|x l IHl];
        simpl; lia.
    + apply Forall_app. split.
      * eapply Forall_impl; [exact HF1|]. simpl.
        intros f [(-> & Hd & Hs)|(size & names & name & Hd & Hn & -> & Hf)].
        -- left. auto.
        -- right. exists p, size, names, name. auto.
      * eapply Forall_impl; [exact HF2|]. simpl.
        intros f [(Hin & Hd & Hs)|(dir & size & names & name & Hin & Hd & Hn & Hf)].
        -- left. auto.
        -- right. exists dir, size, names, name. auto.
Qed.

(** A listing that meets an entry [is_file] raises on stops there: the
    regular files listed before it are the jobs of the directory, counted
    in [total_bytes]; the entries after it are not looked at, so that none
    of them is a job unless it was listed before as well; and one Failure
    keyed on the directory, with the text of the exception, is put.  The
    paths that follow are enumerated as usual. *)
Theorem directory_listing_stops_at_first_error (fs : filesystem) (algo : string)
  (before after : list path) (dir : path) (st : enumeration) (size : Z)
  (names : list string) (taken rest : list path) (bad : path) (e : exn) :
  fs dir = Directory size (Ok names) ->
  map (joinpath dir) names = (taken ++ bad :: rest)%list ->
  Forall (inspectable fs) taken ->
  fs bad = Forbidden e ->
  let st0 := enumerate fs algo before st in
  let files := List.filter (fun f => is_regular (fs f)) taken in
  enumerate fs algo (before ++ dir :: after) st
  = enumerate fs algo after
      {| total_bytes := total_bytes st0 + sizes fs files;
         jobs := jobs st0 ++ files;
         queued := queued st0 ++ [Error dir (exn_str e) algo] |}
  /\ ~ In bad files
  /\ (forall f, In f rest -> ~ In f taken -> ~ In f files).
Proof.
  intros Hdir Hnames Htaken Hbad st0 files. split; [|split].
  - rewrite enumerate_one. fold st0.
    assert (Hscan : scan_path fs dir st0
                    = scan_entries fs (bad :: rest) (add_jobs fs files st0)).
    { unfold scan_path, is_dir, iterdir. rewrite Hdir. cbn. rewrite Hnames.
      apply scan_entries_seen. exact Htaken. }
    rewrite Hscan. cbn [scan_entries]. unfold is_file. rewrite Hbad.
    rewrite add_jobs_eq. reflexivity.
  - unfold files. rewrite List.filter_In, Hbad. intros [_ Hr]. discriminate Hr.
  - intros f _ Hf. unfold files. rewrite List.filter_In. tauto.
Qed.

(** ** Chunks *)

Lemma take_length (n : Z) (l : bytes) :
  0 <= n -> Z.of_nat (length (take n l)) <= n.
Proof.
  revert n. induction l as [|b l IH]; intros n Hn; simpl; [lia|].
  destruct (Z.leb_spec n 0); simpl; [lia|].
  specialize (IH (n - 1)). lia.
Qed.

Lemma chunks_upto_bounds (fuel : nat) (n : Z) (l : bytes) :
  0 < n ->
  Forall (fun c => c <> [] /\ Z.of_nat (length c) <= n) (chunks_upto fuel n l).
Proof.
  intros Hn. revert l. induction fuel as [|fuel IH]; intros l; simpl; [constructor|].
  destruct (take n l) as [|b c] eqn:E; [constructor|].
  constructor; [|apply IH].
  split; [discriminate|]. rewrite <- E. apply take_length. lia.
Qed.

Lemma take_nonpos (n : Z) (l : bytes) : n <= 0 -> take n l = [].
Proof.
  intros Hn. destruct l as [|b l]; simpl; [reflexivity|].
  destruct (Z.leb_spec n 0); [reflexivity | lia].
Qed.

(** [read(n)] returns [n] bytes unless the end of the file is reached. *)
Lemma take_full (n : Z) (l : bytes) :
  0 < n -> drop n l <> [] -> Z.of_nat (length (take n l)) = n.
Proof.
  revert n. induction l as [|b l IH]; intros n Hn Hd; simpl in *; [congruence|].
  destruct (Z.leb_spec n 0); [lia|]. simpl.
  destruct (Z.eq_dec n 1) as [->|Hne].
  - rewrite take_nonpos by lia. reflexivity.
  - rewrite Nat2Z.inj_succ, (IH (n - 1)); [lia | lia | exact Hd].
Qed.

Lemma chunks_upto_nil (fuel : nat) (n : Z) : chunks_upto fuel n [] = [].
Proof. destruct fuel; reflexivity. Qed.

Lemma chunks_upto_full (fuel : nat) (n : Z) (l : bytes) (front : list bytes)
  (c : bytes) :
  0 < n ->
  chunks_upto fuel n l = (front ++ [c])%list ->
  Forall (fun c' => Z.of_nat (length c') = n) front.
Proof.
  intros Hn. revert l front. induction fuel as [|fuel IH]; intros l front Heq;
    simpl in Heq.
  - destruct front; discriminate Heq.
  - destruct (take n l) as [|b chunk] eqn:E; [destruct front; discriminate Heq|].
    destruct front as [|c0 front]; [constructor|].
    simpl in Heq. injection Heq as <- Heq.
    constructor; [|exact (IH _ _ Heq)].
    rewrite <- E. apply take_full; [exact Hn|].
    intros Hd. rewrite Hd, chunks_upto_nil in Heq.
    destruct front; discriminate Heq.
Qed.

(** ** More on one task *)

Lemma runs_trace_alone {A} (counter : Z) (p : prog A) :
  runs p (fst (trace_alone counter p)) (snd (trace_alone counter p)).
Proof.
  revert counter. induction p as [a|e|k IH|k IH|v k IH|u k IH]; intros counter;
    simpl.
  - constructor.
  - constructor.
  - specialize (IH false counter). destruct (trace_alone counter (k false)).
    constructor. exact IH.
  - specialize (IH counter counter). destruct (trace_alone counter (k counter)).
    constructor. exact IH.
  - specialize (IH v). destruct (trace_alone v k). constructor. exact IH.
  - specialize (IH counter). destruct (trace_alone counter k). constructor. exact IH.
Qed.

Section OneTask.
Context {H : Hashlib}.
Variable fs : filesystem.
Variable algo : string.
Variable total_bytes : Z.

(** [file.stat()] and [hashlib.new(algo)] stand before the [try]: when
    one of them raises, the task, unless it saw the cancellation flag
    set, puts nothing, neither a Failure nor anything else, and the
    exception leaves [hash_task]; that of [stat] comes first. *)
Theorem stat_or_new_failure_escapes (file : path) (shake_length : Z)
  (tr : list action) (r : result unit) :
  runs (hash_task fs algo total_bytes file shake_length) tr r ->
  ~ observed_cancel tr ->
  (forall e, stat_size fs file = Raise e -> tr = [AIsSet false] /\ r = Raise e)
  /\ (forall size e, stat_size fs file = Ok size -> hashlib_new algo = Raise e ->
        tr = [AIsSet false] /\ r = Raise e).
Proof.
  intros Hr Hc. unfold hash_task in Hr.
  apply runs_bind_inv in Hr as [(tr1 & b & tr2 & H1 & Hr & ->)|(e & H1 & ->)];
    [|runs_inv].
  apply runs_is_set_inv in H1 as (b' & -> & Hb). injection Hb as <-.
  destruct b.
  { exfalso. apply Hc. left. reflexivity. }
  split.
  - intros e Hs. rewrite Hs in Hr. cbn in Hr. runs_inv. split; reflexivity.
  - intros size e Hs Hn. rewrite Hs, Hn in Hr. cbn in Hr. runs_inv.
    split; reflexivity.
Qed.
(** The accesses of a loop whose reads all succeed and that never sees
    the flag set: one turn per chunk. *)
Lemma read_loop_turns (cs : list bytes) (h : HASH) tr r :
  runs (read_loop total_bytes (map Ok cs) h) tr r ->
  ~ observed_cancel tr ->
  total_bytes <> 0 ->
  exists zs,
    length zs = length cs
    /\ tr = flat_map (chunk_accesses total_bytes) (combine cs zs)
    /\ r = Ok (Some (fold_left hash_update cs h)).
Proof.
  revert h tr r. induction cs as [|chunk cs IH]; intros h tr r Hr Hn Hz.
  - cbn in Hr. runs_inv. exists []. repeat split.
  - cbn in Hr. inversion Hr as [| |k b tr' r' Hk| | |]; subst; clear Hr.
    destruct b.
    + exfalso. apply Hn. left. reflexivity.
    + runs_inv.
      * match goal with Hd : _ = true_div _ _ |- _ =>
          unfold true_div in Hd;
          destruct (Z.eqb_spec total_bytes 0); [contradiction|];
          injection Hd as ->
        end.
        match goal with Hl : runs (read_loop _ _ _) _ _ |- _ =>
          apply IH in Hl as (zs & Hlen & -> & ->); [| |exact Hz]
        end.
        -- exists ((z, z0) :: zs). simpl. rewrite Hlen. repeat split.
        -- intros Hc. apply Hn. unfold observed_cancel in *. simpl. tauto.
      * match goal with Hd : _ = true_div _ _ |- _ =>
          unfold true_div in Hd;
          destruct (Z.eqb_spec total_bytes 0); [contradiction|discriminate]
        end.
Qed.

(** A task that does not see the flag set, on a file that opens and whose
    reads succeed, with [total_bytes] not 0, hashes the content of the
    file cut in order into chunks of [chunk_size] bytes, the last one
    possibly shorter and none empty, where [chunk_size] is 4 MiB when
    [stat] reports more than 100 MiB and 1 MiB otherwise.  For each chunk
    it checks the flag, adds the length of the chunk to the counter and
    puts one progress item, computed from the counter read again; then
    it puts the digest of the chunks fed in this order (or the Failure of
    [hexdigest]) and returns. *)
Theorem read_chunks_cover_the_content (f : file) (file : path)
  (shake_length size : Z) (h0 : HASH) (tr : list action) (r : result unit) :
  runs (hash_task fs algo total_bytes file shake_length) tr r ->
  ~ observed_cancel tr ->
  stat_size fs file = Ok size ->
  hashlib_new algo = Ok h0 ->
  open_rb fs file = Ok f ->
  read_error f = None ->
  total_bytes <> 0 ->
  let chunk_size := if (104857600 <? size)%Z then 4194304 else 1048576 in
  exists (cs : list bytes) (zs : list (Z * Z)),
    concat cs = content f
    /\ Forall (fun c => c <> [] /\ Z.of_nat (length c) <= chunk_size) cs
    /\ (forall front c, cs = (front ++ [c])%list ->
          Forall (fun c' => Z.of_nat (length c') = chunk_size) front)
    /\ length zs = length cs
    /\ tr = (AIsSet false
             :: flat_map (chunk_accesses total_bytes) (combine cs zs)
             ++ match hexdigest_of algo (fold_left hash_update cs h0) shake_length with
                | Ok digest => [APut (Result file digest algo)]
                | Raise e => [APut (Error file (exn_str e) algo)]
                end)%list
    /\ r = Ok tt.
Proof.
  intros Hr Hn Hsize Hnew Hopen Hread Hz chunk_size.
  assert (Hchunk : chunk_size_of size = chunk_size).
  { unfold chunk_size_of, chunk_size.
    destruct (Z.gtb_spec size (1024 * 1024 * 100)), (Z.ltb_spec 104857600 size);
      lia. }
  assert (Hpos : 0 < chunk_size) by (rewrite <- Hchunk; apply chunk_size_of_pos).
  apply hash_task_inv in Hr
    as [[-> _]|[(e & _ & _ & [He|He])|(size' & h & Hs & Hh & -> & Hrun)]].
  - exfalso. apply Hn. left. reflexivity.
  - rewrite Hsize in He. discriminate He.
  - rewrite Hnew in He. discriminate He.
  - rewrite Hsize in Hs. injection Hs as <-. rewrite Hnew in Hh. injection Hh as <-.
    destruct Hrun as [(e & He & _)|(f' & trl & loop & Hf & Hl & ->)].
    { rewrite Hopen in He. discriminate He. }
    rewrite Hopen in Hf. injection Hf as <-.
    rewrite Hchunk, read_calls_no_error in Hl by exact Hread.
    apply read_loop_turns in Hl as (zs & Hlen & -> & ->); [| |exact Hz].
    + exists (chunks chunk_size (content f)), zs.
      split; [apply chunks_concat; exact Hpos|].
      split; [apply chunks_upto_bounds; exact Hpos|].
      split; [intros front c Hc; exact (chunks_upto_full _ _ _ _ _ Hpos Hc)|].
      split; [exact Hlen|]. split; reflexivity.
    + intros Hc. apply Hn. right. apply in_or_app. left. exact Hc.
Qed.
End OneTask.

(** ** More on the job set *)

Lemma exec_app {H : Hashlib} (fs : filesystem) (algo : string)
  (total_bytes max_workers : Z) (s1 s2 : list event) (c : pool) :
  exec fs algo total_bytes max_workers (s1 ++ s2) c
  = exec fs algo total_bytes max_workers s2
      (exec fs algo total_bytes max_workers s1 c).
Proof.
  revert c. induction s1 as [|ev s1 IH]; intros c; simpl; [reflexivity | apply IH].
Qed.

(** A step of the pool leaves the rows, the algorithm and the bar of the
    window alone, and only a click sets the flag. *)
Lemma step_frame {H : Hashlib} (fs : filesystem) (algo : string)
  (total_bytes max_workers : Z) (ev : event) (c : pool) :
  ui_results (window (step fs algo total_bytes max_workers ev c))
  = ui_results (window c)
  /\ ui_errors (window (step fs algo total_bytes max_workers ev c))
     = ui_errors (window c)
  /\ window_algo (window (step fs algo total_bytes max_workers ev c))
     = window_algo (window c)
  /\ cancel_event (window (step fs algo total_bytes max_workers ev c))
     = cancel_event (window c) || is_click ev.
Proof.
  destruct ev as [i| |]; simpl.
  - rewrite orb_false_r.
    destruct (tasks c !! i) as [[file|p|r|]|]; try (repeat split; reflexivity).
    + destruct (may_start max_workers (tasks c) i); repeat split; reflexivity.
    + destruct p; repeat split; reflexivity.
  - rewrite orb_true_r. repeat split; reflexivity.
  - rewrite orb_false_r.
    destruct (first_failure_raised (tasks c)); repeat split; reflexivity.
Qed.

Lemma exec_frame {H : Hashlib} (fs : filesystem) (algo : string)
  (total_bytes max_workers : Z) (schedule : list event) (c : pool) :
  ui_results (window (exec fs algo total_bytes max_workers schedule c))
  = ui_results (window c)
  /\ ui_errors (window (exec fs algo total_bytes max_workers schedule c))
     = ui_errors (window c)
  /\ window_algo (window (exec fs algo total_bytes max_workers schedule c))
     = window_algo (window c)
  /\ cancel_event (window (exec fs algo total_bytes max_workers schedule c))
     = cancel_event (window c) || existsb is_click schedule.
Proof.
  revert c. induction schedule as [|ev schedule IH]; intros c; simpl.
  - rewrite orb_false_r. repeat split; reflexivity.
  - destruct (IH (step fs algo total_bytes max_workers ev c)) as (-> & -> & -> & ->).
    destruct (step_frame fs algo total_bytes max_workers ev c) as (-> & -> & -> & ->).
    rewrite orb_assoc. repeat split; reflexivity.
Qed.

Lemma filter_Permutation {A} (f : A -> bool) (l l' : list A) :
  Permutation l l' -> Permutation (List.filter f l) (List.filter f l').
Proof.
  induction 1 as [|x l l' _ IH|x y l|l l' l'' _ IH1 _ IH2]; simpl.
  - constructor.
  - destruct (f x); [constructor|]; exact IH.
  - destruct (f x), (f y); try reflexivity. constructor.
  - etransitivity; eassumption.
Qed.

Lemma filter_concat {A} (f : A -> bool) (ls : list (list A)) :
  List.filter f (concat ls) = concat (map (List.filter f) ls).
Proof.
  induction ls as [|l ls IH]; simpl; [reflexivity|].
  rewrite List.filter_app, IH. reflexivity.
Qed.

(** When every task has put exactly the Outcome [item] of its job, the
    Outcomes the queue has gained are one per job. *)
Lemma pool_one_outcome_per_job {H : Hashlib} (fs : filesystem) (algo : string)
  (total_bytes : Z) (submitted_jobs : list path) (queue0 : list update)
  (c : pool) (item : path -> update) :
  pool_inv fs algo total_bytes submitted_jobs queue0 c ->
  (forall i file, submitted_jobs !! i = Some file ->
     outcomes (trace_of i (history c)) = [item file]) ->
  Permutation (List.filter is_outcome (puts (map snd (history c))))
    (map item submitted_jobs).
Proof.
  intros Hc Hitem.
  rewrite (filter_Permutation is_outcome _ _
             (puts_history_perm (length submitted_jobs) (history c)
                (inv_bound _ _ _ _ _ _ Hc))).
  rewrite filter_concat, map_map.
  assert (Heq : map (fun i => List.filter is_outcome (puts (trace_of i (history c))))
                  (seq 0 (length submitted_jobs))
                = map (fun file => [item file]) submitted_jobs).
  { apply list_eq. intros i.
    change (map ?f ?l) with (f <$> l). rewrite !list_lookup_fmap.
    destruct (submitted_jobs !! i) as [file|] eqn:Hi; simpl.
    - rewrite lookup_seq_lt by (eapply lookup_lt_Some; exact Hi). simpl.
      f_equal. apply Hitem. exact Hi.
    - rewrite lookup_seq_ge; [reflexivity|].
      apply lookup_ge_None. exact Hi. }
  rewrite Heq. clear. induction submitted_jobs as [|file l IH]; simpl.
  - constructor.
  - constructor. exact IH.
Qed.

(** The first read of a job set with [total_bytes = 0] ends in the
    division by zero, unless the flag is seen set. *)
Lemma read_loop_zero_division {H : Hashlib} (chunk : bytes)
  (reads : list (result bytes)) (h : HASH) tr r :
  runs (read_loop 0 (Ok chunk :: reads) h) tr r ->
  ~ observed_cancel tr ->
  r = Raise ZeroDivisionError.
Proof.
  intros Hr Hc. cbn in Hr.
  inversion Hr as [| |k b tr' r' Hk| | |]; subst; clear Hr.
  destruct b.
  - exfalso. apply Hc. left. reflexivity.
  - runs_inv. reflexivity.
Qed.

Section MoreJobSet.
Context {H : Hashlib}.
Variable w : world.

(** Whatever the schedule, the queue after [calculate_hash] is the queue
    as it was, then the Failures of the enumeration, then what the tasks
    have put: progress items whose fraction is at most one, and Digests
    and Failures of jobs of this job set under its algorithm.  Nothing
    that was queued before is removed. *)
Theorem calculate_hash_queue_items (self : MainWindow) (paths : list path)
  (algo : string) (schedule : list event) :
  exists errors new,
    update_queue (window (calculate_hash w self paths algo schedule))
    = (update_queue self ++ errors ++ new)%list
    /\ queued (fst (submitted w self paths algo))
       = (update_queue self ++ errors)%list
    /\ Forall (fun u => is_error u = true) errors
    /\ Forall (fun u =>
                 match u with
                 | Progress fraction => (fraction <= 1)%Q
                 | Result fname _ a | Error fname _ a =>
                     In fname (jobs (fst (submitted w self paths algo)))
                     /\ a = algo
                 end) new.
Proof.
  pose proof (calculate_hash_inv w self paths algo schedule) as Hinv.
  destruct (pool_queue_items _ _ _ _ _ _ Hinv) as (new & Hq & Hnew).
  destruct (enumerate_queued (fs_enum w) algo paths
              {| total_bytes := 0; jobs := []; queued := update_queue self |})
    as (errors & He & Herr).
  exists errors, new. rewrite Hq. cbn [fst submitted] in *. rewrite He.
  split; [symmetry; apply app_assoc|]. split; [reflexivity|].
  split; [exact Herr|].
  eapply Forall_impl; [exact Hnew|]. simpl.
  intros u [(q & ->)|(file & Hin & [(d & ->)|(err & ->)])]; [|auto..].
  apply Q.le_min_r.
Qed.

(** The worker threads and the thread of [calculate_hash] touch the queue
    and, when [total_bytes] is 0, the bar, and nothing else of the window:
    the rows of both lists and the algorithm of the drop-down are as they
    were, the bar is as it was unless [total_bytes] is 0, and the flag is
    set exactly when it was set or "Cancel Job" was clicked. *)
Theorem workers_touch_only_the_queue (self : MainWindow) (paths : list path)
  (algo : string) (schedule : list event) :
  let c := calculate_hash w self paths algo schedule in
  ui_results (window c) = ui_results self
  /\ ui_errors (window c) = ui_errors self
  /\ window_algo (window c) = window_algo self
  /\ cancel_event (window c) = cancel_event self || existsb is_click schedule
  /\ progress_bar_fraction (window c)
     = if (total_bytes (fst (submitted w self paths algo)) =? 0)%Z
       then 1%Q else progress_bar_fraction self.
Proof.
  intros c. unfold c, calculate_hash, submitted.
  match goal with
  | |- context [exec ?fs ?a ?t ?m ?s ?c0] =>
      destruct (exec_frame fs a t m s c0) as (-> & -> & -> & ->);
      rewrite (exec_progress_bar fs a t m s c0)
  end.
  repeat split; reflexivity.
Qed.

(** Without a cancellation, with an algorithm [hashlib] knows, files that
    open and read to their end and [total_bytes] not 0, a job set run
    until every task is finished has every task returned, and the
    Outcomes the queue has gained are exactly one Digest per job, the
    hexadecimal digest of the bytes of its file, whatever the schedule
    and whatever the sizes [stat] reported. *)
Theorem every_job_yields_its_digest {HS : HashlibSpec H} (self : MainWindow)
  (paths : list path) (algo : string) (schedule : list event) (h0 : HASH)
  (digest_of : path -> string) :
  let en := fst (submitted w self paths algo) in
  let c := calculate_hash w self paths algo schedule in
  hashlib_new algo = Ok h0 ->
  total_bytes en <> 0 ->
  Forall (fun file =>
            exists data, readable (fs_hash w) file data
                         /\ hexdigest_of algo (hash_update h0 data) 32
                            = Ok (digest_of file)) (jobs en) ->
  cancel_event self = false ->
  Forall (fun ev => ev <> CancelClicked) schedule ->
  Forall (fun t => is_done t = true) (tasks c) ->
  Forall (fun t => t = Done (Ok tt)) (tasks c)
  /\ exists new,
       update_queue (window c) = (queued en ++ new)%list
       /\ Permutation (List.filter is_outcome new)
            (map (fun file => Result file (digest_of file) algo) (jobs en)).
Proof.
  intros en c Hnew Htotal Hfiles Hflag Hsched Hdone.
  pose proof (calculate_hash_inv w self paths algo schedule) as Hinv.
  fold en in Hinv. fold c in Hinv.
  pose proof (calculate_hash_unclicked w self paths algo schedule Hflag Hsched)
    as Hun. fold c in Hun.
  assert (Htask : forall i file, jobs en !! i = Some file ->
            tasks c !! i = Some (Done (Ok tt))
            /\ outcomes (trace_of i (history c))
               = [Result file (digest_of file) algo]).
  { intros i file Hfile.
    destruct (inv_tasks _ _ _ _ _ _ Hinv i file Hfile) as (t & Hi & Hok).
    rewrite Forall_forall in Hdone.
    pose proof (Hdone t (list_elem_of_lookup_2 _ _ _ Hi)) as Ht.
    destruct t as [file'|p|r|]; try discriminate Ht. simpl in Hok.
    rewrite Forall_forall in Hfiles.
    destruct (Hfiles file (list_elem_of_lookup_2 _ _ _ Hfile))
      as (data & (f & Ho & He & Hdata) & Hd).
    pose proof (open_rb_stat_size _ _ _ Ho) as Hs.
    destruct (hash_task_digest (fs_hash w) algo (total_bytes en) file 32 _ r
                (st_size f) h0 f (digest_of file) Hok (unclicked_trace c i Hun)
                Hs Hnew Ho He (or_introl Htotal)) as [Hout ->].
    - rewrite hash_update_chunks, chunks_concat by apply chunk_size_of_pos.
      rewrite Hdata. exact Hd.
    - split; [exact Hi | exact Hout]. }
  split.
  - apply Forall_forall. intros t Ht.
    apply list_elem_of_lookup_1 in Ht as [i Hi].
    assert (Hlt : (i < length (jobs en))%nat).
    { rewrite <- (inv_length _ _ _ _ _ _ Hinv). eapply lookup_lt_Some. exact Hi. }
    destruct (lookup_lt_is_Some_2 _ _ Hlt) as [file Hfile].
    destruct (Htask i file Hfile) as [Hi' _]. congruence.
  - exists (puts (map snd (history c))).
    split; [apply (inv_queue _ _ _ _ _ _ Hinv)|].
    apply (pool_one_outcome_per_job (fs_hash w) algo (total_bytes en) (jobs en)
             (queued en) c (fun file => Result file (digest_of file) algo) Hinv).
    intros i file Hfile. apply (Htask i file Hfile).
Qed.
End MoreJobSet.

Section ZeroDivision.
Context {H : Hashlib}.
Variable fs : filesystem.
Variable algo : string.

(** A file that was empty when the job set was enumerated, alone or with
    other empty files, and holds bytes when it is read: the division by
    [total_bytes = 0] raises after the first chunk, inside the [try], and
    the task puts the Failure "division by zero" for the file, no
    progress item and no Digest. *)
Theorem grown_file_fails_with_division_by_zero (f : file) (file : path)
  (shake_length : Z) (h0 : HASH) (tr : list action) (r : result unit) :
  runs (hash_task fs algo 0 file shake_length) tr r ->
  ~ observed_cancel tr ->
  hashlib_new algo = Ok h0 ->
  open_rb fs file = Ok f ->
  read_error f = None ->
  content f <> [] ->
  puts tr = [Error file "division by zero" algo] /\ r = Ok tt.
Proof.
  intros Hr Hc Hn Ho He Hdata.
  pose proof (open_rb_stat_size _ _ _ Ho) as Hs.
  apply hash_task_inv in Hr
    as [(-> & ->)|[(e & -> & -> & Hraise)|(size & h0' & Hs' & Hn' & -> & Hr)]].
  - exfalso. apply Hc. left. reflexivity.
  - destruct Hraise; congruence.
  - split; [|reflexivity].
    destruct Hr as [(e & Ho' & ->)|(f' & trl & loop & Ho' & Hl & ->)];
      [congruence|].
    assert (f' = f) as -> by congruence.
    pose proof (finish_no_is_set algo file shake_length loop) as Hfin.
    rewrite (observed_cancel_task trl _ Hfin) in Hc.
    pose proof (read_loop_zero_total _ _ _ _ Hl) as Hputs.
    rewrite (read_calls_no_error f _ He) in Hl.
    destruct (content f) as [|b data] eqn:Ec; [contradiction|].
    assert (Hchunks : exists chunk cs,
              chunks (chunk_size_of size) (b :: data) = chunk :: cs).
    { unfold chunks. cbn [length chunks_upto].
      rewrite take_cons by apply chunk_size_of_pos. eauto. }
    destruct Hchunks as (chunk & cs & Hcs). rewrite Hcs in Hl. cbn [map] in Hl.
    rewrite (read_loop_zero_division _ _ _ _ _ Hl Hc).
    simpl. rewrite puts_app, Hputs. reflexivity.
Qed.
End ZeroDivision.

(** ** Cancellation before a task starts *)

Section CancelBeforeStart.
Context {H : Hashlib}.
Variable fs : filesystem.
Variable algo : string.
Variable total_bytes : Z.
Variable max_workers : Z.

Lemma trace_of_other (i j : nat) (a : action) (h : list (nat * action)) :
  j <> i -> trace_of i (h ++ [(j, a)]) = trace_of i h.
Proof.
  intros Hne. rewrite trace_of_app. simpl.
  destruct (Nat.eqb_spec j i); [contradiction | apply app_nil_r].
Qed.

Lemma trace_of_own (i : nat) (a : action) (h : list (nat * action)) :
  trace_of i (h ++ [(i, a)]) = (trace_of i h ++ [a])%list.
Proof. rewrite trace_of_app. simpl. rewrite Nat.eqb_refl. reflexivity. Qed.

Lemma stopped_at_start_step (i : nat) (file : path) (ev : event) (c : pool) :
  stopped_at_start fs algo total_bytes i file c ->
  stopped_at_start fs algo total_bytes i file
    (step fs algo total_bytes max_workers ev c).
Proof.
  intros [Hflag Hi]. destruct ev as [j| |].
  - destruct (Nat.eq_dec j i) as [->|Hne].
    + (* the worker of the task itself *)
      cbn [step]. revert Hi.
      destruct (tasks c !! i) as [[file'|p|r|]|] eqn:Ei; intros Hi;
        [| |split; [exact Hflag | rewrite Ei; exact Hi]..|destruct Hi].
      * destruct Hi as [-> Htr].
        destruct (may_start max_workers (tasks c) i);
          [|split; [exact Hflag | rewrite Ei; auto]].
        split; [exact Hflag|]. cbn [set_task tasks history].
        rewrite list_lookup_insert_eq by (eapply lookup_lt_Some; exact Ei).
        left. auto.
      * pose proof (lookup_lt_Some _ _ _ Ei) as Hlt.
        destruct Hi as [[-> Htr]|[-> Htr]].
        -- unfold hash_task. cbn. rewrite Hflag. split; [exact Hflag|].
           unfold set_task, log. cbn [tasks history].
           rewrite list_lookup_insert_eq by exact Hlt.
           right. split; [reflexivity|]. rewrite trace_of_own, Htr. reflexivity.
        -- cbn [access]. split; [exact Hflag|].
           unfold set_task. cbn [tasks history].
           rewrite list_lookup_insert_eq by exact Hlt. auto.
    + (* the worker of another task *)
      assert (Hkeep : forall c',
                cancel_event (window c') = cancel_event (window c) ->
                tasks c' !! i = tasks c !! i ->
                trace_of i (history c') = trace_of i (history c) ->
                stopped_at_start fs algo total_bytes i file c').
      { intros c' Hf Ht Hh. split; [rewrite Hf; exact Hflag|].
        rewrite Ht, Hh. exact Hi. }
      cbn [step]. destruct (tasks c !! j) as [[file'|p|r|]|] eqn:Ej;
        try (apply Hkeep; reflexivity).
      * destruct (may_start max_workers (tasks c) j);
          [|apply Hkeep; reflexivity].
        apply Hkeep; [reflexivity| |reflexivity].
        unfold set_task. cbn [tasks]. apply list_lookup_insert_ne. exact Hne.
      * destruct p as [a|e|k|k|v k|u k]; cbn [access]; apply Hkeep;
          try reflexivity;
          unfold set_task, log, set_bytes_read, queue_put;
          cbn [tasks history window];
          try (apply list_lookup_insert_ne; exact Hne);
          apply trace_of_other; exact Hne.
  - split; [reflexivity | exact Hi].
  - cbn [step]. destruct (first_failure_raised (tasks c));
      [|split; [exact Hflag | exact Hi]].
    split; [exact Hflag|]. cbn [tasks history].
    change (map cancel_pending (tasks c)) with (cancel_pending <$> tasks c).
    rewrite list_lookup_fmap.
    destruct (tasks c !! i) as [[file'|p|r|]|]; simpl; try exact Hi.
    destruct Hi as [_ Htr]. exact Htr.
Qed.

Lemma stopped_at_start_exec (i : nat) (file : path) (schedule : list event)
  (c : pool) :
  stopped_at_start fs algo total_bytes i file c ->
  stopped_at_start fs algo total_bytes i file
    (exec fs algo total_bytes max_workers schedule c).
Proof.
  revert c. induction schedule as [|ev schedule IH]; intros c Hc; simpl.
  - exact Hc.
  - apply IH, stopped_at_start_step, Hc.
Qed.
End CancelBeforeStart.

Section CancelJob.
Context {H : Hashlib}.
Variable w : world.

(** A job whose task has not started when "Cancel Job" is clicked never
    puts anything, whatever the schedule before and after the click: its
    task stays queued or is cancelled, or it starts, sees the flag at its
    first [is_set()] call and returns without looking at its file. *)
Theorem jobs_not_started_at_cancel_put_nothing (self : MainWindow)
  (paths : list path) (algo : string) (before after : list event)
  (i : nat) (file : path) :
  tasks (calculate_hash w self paths algo before) !! i = Some (Pending file) ->
  let c := calculate_hash w self paths algo (before ++ CancelClicked :: after) in
  puts (trace_of i (history c)) = []
  /\ (trace_of i (history c) = [] \/ trace_of i (history c) = [AIsSet true])
  /\ (forall r, tasks c !! i = Some (Done r) -> r = Ok tt).
Proof.
  intros Hi c.
  pose proof (calculate_hash_inv w self paths algo before) as Hinv.
  assert (Hstart : stopped_at_start (fs_hash w) algo
                     (total_bytes (fst (submitted w self paths algo))) i file c).
  { unfold c, calculate_hash in *.
    destruct (submitted w self paths algo) as [en c0] eqn:E. cbn [fst] in *.
    rewrite exec_app. cbn [exec]. apply stopped_at_start_exec.
    split; [reflexivity|]. cbn [step tasks history]. rewrite Hi.
    assert (Hlt : (i < length (jobs en))%nat).
    { rewrite <- (inv_length _ _ _ _ _ _ Hinv). eapply lookup_lt_Some. exact Hi. }
    destruct (lookup_lt_is_Some_2 _ _ Hlt) as [file' Hfile].
    destruct (inv_tasks _ _ _ _ _ _ Hinv i file' Hfile) as (t & Ht & Hok).
    rewrite Hi in Ht. injection Ht as <-. destruct Hok as [-> Htr]. auto. }
  destruct Hstart as [_ Hstate].
  destruct (tasks c !! i) as [[file'|p|r|]|]; [| | | |destruct Hstate].
  - destruct Hstate as [_ ->]. repeat split; [left; reflexivity | discriminate].
  - destruct Hstate as [[_ ->]|[_ ->]];
      (repeat split; [auto | discriminate]).
  - destruct Hstate as [-> ->].
    repeat split; [right; reflexivity | congruence].
  - rewrite Hstate. repeat split; [left; reflexivity | discriminate].
Qed.
End CancelJob.

(** ** More runs on the concrete machine *)

(** [/locked/secret] cannot be inspected: [/locked/a] stays a job,
    [/locked/b] is not looked at, and the directory gets a Failure. *)
Lemma directory_listing_stops_at_first_error_witness :
  enumerate home "sha256" ["/locked"; "/hello"]
    {| total_bytes := 0; jobs := []; queued := [] |}
  = {| total_bytes := 11; jobs := ["/locked/a"; "/hello"];
       queued := [Error "/locked" "[Errno 13] Permission denied: '/locked/secret'"
                    "sha256"] |}
  /\ ~ In "/locked/b" ["/locked/a"].
Proof.
  pose proof (directory_listing_stops_at_first_error home "sha256" [] ["/hello"]
                "/locked" {| total_bytes := 0; jobs := []; queued := [] |}
                4096 ["a"; "secret"; "b"] ["/locked/a"] ["/locked/b"]
                "/locked/secret" (eacces "/locked/secret")
                eq_refl eq_refl) as Hthm.
  cbv zeta in Hthm. destruct Hthm as (Heq & _ & Hrest).
  - repeat constructor. intros e. discriminate.
  - reflexivity.
  - split.
    + refine (eq_trans Heq _). reflexivity.
    + apply (Hrest "/locked/b"); [left; reflexivity|].
      simpl. intros [Heq'|[]]. discriminate Heq'.
Defined.

(** The task of [/hello], ten bytes read in one chunk, in a job set of
    ten bytes: one turn of the loop, then the Digest. *)
Lemma read_chunks_cover_the_content_witness :
  exists (cs : list bytes) (zs : list (Z * Z)),
    concat cs = list_byte_of_string "helloworld"
    /\ Forall (fun c => c <> [] /\ Z.of_nat (length c) <= 1048576) cs
    /\ (forall front c, cs = (front ++ [c])%list ->
          Forall (fun c' => Z.of_nat (length c') = 1048576) front)
    /\ length zs = length cs
    /\ [AIsSet false; AIsSet false; ALoad 0; AStore 10; ALoad 10;
        APut (Progress (Qmin (inject_Z 10 / inject_Z 10) 1));
        APut (Result "/hello"
                "936a185caaa266bb9cbe981e9e05cb78cd732b0b3280eb944412bb6f8f8f07af"
                "sha256")]
       = (AIsSet false
          :: flat_map (chunk_accesses 10) (combine cs zs)
          ++ match hexdigest_of (H := Reference.hashlib) "sha256"
                     (fold_left (hash_update (Hashlib := Reference.hashlib)) cs
                        {| Reference.alg := Reference.SHA256;
                           Reference.absorbed := [] |}) 32 with
             | Ok digest => [APut (Result "/hello" digest "sha256")]
             | Raise e => [APut (Error "/hello" (exn_str e) "sha256")]
             end)%list
    /\ Ok tt = Ok tt.
Proof.
  pose proof (runs_trace_alone 0
                (hash_task (H := Reference.hashlib) home "sha256" 10 "/hello" 32))
    as Hrun.
  assert (Htr : fst (trace_alone 0
                       (hash_task (H := Reference.hashlib) home "sha256" 10
                          "/hello" 32))
                = [AIsSet false; AIsSet false; ALoad 0; AStore 10; ALoad 10;
                   APut (Progress (Qmin (inject_Z 10 / inject_Z 10) 1));
                   APut (Result "/hello"
                           "936a185caaa266bb9cbe981e9e05cb78cd732b0b3280eb944412bb6f8f8f07af"
                           "sha256")])
    by (vm_compute; reflexivity).
  assert (Hres : snd (trace_alone 0
                        (hash_task (H := Reference.hashlib) home "sha256" 10
                           "/hello" 32)) = Ok tt)
    by (vm_compute; reflexivity).
  rewrite Htr, Hres in Hrun.
  refine (read_chunks_cover_the_content (H := Reference.hashlib) home "sha256" 10
            (plain (list_byte_of_string "helloworld")) "/hello" 32 10
            {| Reference.alg := Reference.SHA256; Reference.absorbed := [] |}
            _ (Ok tt) Hrun _ eq_refl eq_refl eq_refl eq_refl _).
  - unfold observed_cancel. simpl. intuition discriminate.
  - discriminate.
Defined.

(** [/d/a] is removed after the enumeration. *)
Lemma stat_or_new_failure_escapes_witness :
  run_with false 0
    (hash_task (H := Reference.hashlib) home_without_a "sha256" 2 "/d/a" 32)
  = ([AIsSet false], Raise (enoent "/d/a"))
  /\ run_with false 0
       (hash_task (H := Reference.hashlib) home "crc32" 10 "/hello" 32)
     = ([AIsSet false], Raise (ValueError "unsupported hash type crc32")).
Proof.
  split.
  - pose proof (runs_run_with false 0
                  (hash_task (H := Reference.hashlib) home_without_a "sha256" 2
                     "/d/a" 32)) as Hr.
    destruct (stat_or_new_failure_escapes (H := Reference.hashlib)
                home_without_a "sha256" 2 "/d/a" 32 _ _ Hr) as [Hstat _].
    + vm_compute. intuition discriminate.
    + destruct (Hstat (enoent "/d/a") eq_refl) as [Htr Hres].
      destruct (run_with false 0 _) as [tr r]. simpl in Htr, Hres.
      rewrite Htr, Hres. reflexivity.
  - pose proof (runs_run_with false 0
                  (hash_task (H := Reference.hashlib) home "crc32" 10
                     "/hello" 32)) as Hr.
    destruct (stat_or_new_failure_escapes (H := Reference.hashlib)
                home "crc32" 10 "/hello" 32 _ _ Hr) as [_ Hnew].
    + vm_compute. intuition discriminate.
    + destruct (Hnew 10 (ValueError "unsupported hash type crc32") eq_refl eq_refl)
        as [Htr Hres].
      destruct (run_with false 0 _) as [tr r]. simpl in Htr, Hres.
      rewrite Htr, Hres. reflexivity.
Defined.

(** [/noperm] cannot be opened and the first read of [/bad] fails. *)
Lemma open_or_read_failure_is_isolated_witness :
  outcomes (fst (run_with false 3
                   (hash_task (H := Reference.hashlib) home "sha256" 6 "/noperm" 32)))
  = [Error "/noperm" "[Errno 13] Permission denied: '/noperm'" "sha256"]
  /\ outcomes (fst (run_with false 3
                      (hash_task (H := Reference.hashlib) home "sha256" 6 "/bad" 32)))
     = [Error "/bad" "[Errno 5] Input/output error" "sha256"].
Proof.
  split.
  - refine (proj1 (open_or_read_failure_is_isolated (H := Reference.hashlib)
                     home "sha256" 6 "/noperm" 32 _ _ 3 _ (eacces "/noperm")
                     (runs_run_with false 3 _) _ eq_refl eq_refl _)).
    + vm_compute. intuition discriminate.
    + left. reflexivity.
  - refine (proj1 (open_or_read_failure_is_isolated (H := Reference.hashlib)
                     home "sha256" 6 "/bad" 32 _ _ 3 _
                     (OSError "[Errno 5] Input/output error")
                     (runs_run_with false 3 _) _ eq_refl eq_refl _)).
    + vm_compute. intuition discriminate.
    + right. eexists _, O. split; [reflexivity|]. split; [reflexivity|].
      split; [apply Nat.le_0_l | left; discriminate].
Defined.

(** The two files of [/d], hashed by two workers whose steps alternate. *)
Lemma every_job_yields_its_digest_witness :
  let c := calculate_hash (H := Reference.hashlib) desktop fresh_window ["/d"]
             "sha256"
             (serial 0 6 ++ serial 1 7 ++ [Worker 0] ++ serial 1 3 ++ serial 0 3) in
  Permutation (List.filter is_outcome (update_queue (window c)))
    [Result "/d/a"
       "2d711642b726b04401627ca9fbac32f5c8530fb1903cc4db02258717921a4881" "sha256";
     Result "/d/b"
       "a1fce4363854ff888cff4b8e7875d600c2682390412a8cf79b37d0b11148b0fa" "sha256"].
Proof.
  intros c.
  destruct (every_job_yields_its_digest (H := Reference.hashlib)
              (HS := ReferenceFacts.hashlib_spec) desktop fresh_window ["/d"]
              "sha256"
              (serial 0 6 ++ serial 1 7 ++ [Worker 0] ++ serial 1 3 ++ serial 0 3)
              {| Reference.alg := Reference.SHA256; Reference.absorbed := [] |}
              (fun file =>
                 if String.eqb file "/d/a"
                 then "2d711642b726b04401627ca9fbac32f5c8530fb1903cc4db02258717921a4881"
                 else "a1fce4363854ff888cff4b8e7875d600c2682390412a8cf79b37d0b11148b0fa")
              eq_refl) as (_ & new & Hq & Hperm).
  - vm_compute. discriminate.
  - repeat constructor.
    + exists (list_byte_of_string "x"). split.
      * eexists. repeat split; reflexivity.
      * vm_compute. reflexivity.
    + exists (list_byte_of_string "y"). split.
      * eexists. repeat split; reflexivity.
      * vm_compute. reflexivity.
  - reflexivity.
  - repeat constructor; discriminate.
  - vm_compute. repeat constructor.
  - fold c in Hq. rewrite Hq. exact Hperm.
Defined.

(** [/empty] was empty when enumerated and holds four bytes when read. *)
Lemma grown_file_fails_with_division_by_zero_witness :
  total_bytes (enumerate home "sha256" ["/empty"]
                 {| total_bytes := 0; jobs := []; queued := [] |}) = 0
  /\ puts (fst (run_with false 0
                  (hash_task (H := Reference.hashlib) home_grown "sha256" 0
                     "/empty" 32)))
     = [Error "/empty" "division by zero" "sha256"].
Proof.
  split; [reflexivity|].
  refine (proj1 (grown_file_fails_with_division_by_zero (H := Reference.hashlib)
                   home_grown "sha256" (plain (list_byte_of_string "late"))
                   "/empty" 32 _ _ _ (runs_run_with false 0 _) _
                   eq_refl eq_refl eq_refl _)).
  - vm_compute. intuition discriminate.
  - discriminate.
Defined.

(** Three jobs on two workers; "Cancel Job" is clicked while the tasks of
    [/d/a] and [/d/b] are in their first steps and that of [/hello] is
    still queued. *)
Lemma jobs_not_started_at_cancel_put_nothing_witness :
  let c := calculate_hash (H := Reference.hashlib) desktop fresh_window
             ["/d"; "/hello"] "sha256"
             ((serial 0 3 ++ serial 1 3)
              ++ CancelClicked :: (serial 0 9 ++ serial 1 9 ++ serial 2 4)) in
  tasks c !! 2%nat = Some (Done (Ok tt))
  /\ trace_of 2 (history c) = [AIsSet true]
  /\ puts (trace_of 2 (history c)) = [].
Proof.
  intros c.
  destruct (jobs_not_started_at_cancel_put_nothing (H := Reference.hashlib)
              desktop fresh_window ["/d"; "/hello"] "sha256"
              (serial 0 3 ++ serial 1 3) (serial 0 9 ++ serial 1 9 ++ serial 2 4)
              2 "/hello" eq_refl) as (Hputs & _ & _).
  split; [vm_compute; reflexivity|]. split; [vm_compute; reflexivity|].
  exact Hputs.
Defined.

(** ** One worker: the progress never goes back *)

Lemma run_alone_bind {A B} (f : A -> prog B) (p : prog A) (c : Z) :
  run_alone c (p ≫= f)
  = let '(us, c', r) := run_alone c p in
    match r with
    | Ok a => let '(us2, c'', r2) := run_alone c' (f a) in ((us ++ us2)%list, c'', r2)
    | Raise e => (us, c', Raise e)
    end.
Proof.
  revert c. induction p as [a|e|k IH|k IH|v k IH|u k IH]; intros c; cbn.
  - destruct (run_alone c (f a)) as [[us c'] r]. reflexivity.
  - reflexivity.
  - apply IH.
  - apply IH.
  - apply IH.
  - change (prog_bind_def f k) with (k ≫= f). rewrite IH.
    destruct (run_alone c k) as [[us c'] [a|e]]; [|reflexivity].
    destruct (run_alone c' (f a)) as [[us2 c''] r2]. reflexivity.
Qed.

Lemma run_alone_try_except {A} (p : prog A) (handler : exn -> prog A) (c : Z) :
  run_alone c (try_except p handler)
  = let '(us, c', r) := run_alone c p in
    match r with
    | Ok a => (us, c', Ok a)
    | Raise e =>
        let '(us2, c'', r2) := run_alone c' (handler e) in ((us ++ us2)%list, c'', r2)
    end.
Proof.
  revert c. induction p as [a|e|k IH|k IH|v k IH|u k IH]; intros c; cbn.
  - reflexivity.
  - destruct (run_alone c (handler e)) as [[us c'] r]. reflexivity.
  - apply IH.
  - apply IH.
  - apply IH.
  - rewrite IH. destruct (run_alone c k) as [[us c'] [a|e]]; [reflexivity|].
    destruct (run_alone c' (handler e)) as [[us2 c''] r2]. reflexivity.
Qed.

Lemma rising_weaken (lo lo' : Q) (l : list Q) :
  (lo' <= lo)%Q -> rising lo l -> rising lo' l.
Proof.
  destruct l as [|q l]; simpl; [auto|]. intros Hle [Hq Hl].
  split; [|exact Hl]. eapply Qle_trans; eassumption.
Qed.

Lemma rising_last (lo : Q) (l : list Q) :
  rising lo l -> (lo <= List.last l lo)%Q.
Proof.
  revert lo. induction l as [|q l IH]; intros lo; cbn [rising].
  - intros _. apply Qle_refl.
  - intros [Hq Hl]. rewrite last_cons_default.
    eapply Qle_trans; [exact Hq | apply IH, Hl].
Qed.

Lemma rising_app (lo : Q) (l1 l2 : list Q) :
  rising lo l1 -> rising (List.last l1 lo) l2 -> rising lo (l1 ++ l2).
Proof.
  revert lo. induction l1 as [|q l1 IH]; intros lo; cbn [rising app].
  - auto.
  - intros [Hq Hl1] Hl2. split; [exact Hq|]. apply IH; [exact Hl1|].
    rewrite last_cons_default in Hl2. exact Hl2.
Qed.

Lemma rising_app_inv (lo : Q) (l1 l2 : list Q) :
  rising lo (l1 ++ l2) -> rising lo l1.
Proof.
  revert lo. induction l1 as [|q l1 IH]; intros lo; simpl; [auto|].
  intros [Hq Hl]. split; [exact Hq | apply IH, Hl].
Qed.

Lemma rising_Forall (lo : Q) (l : list Q) :
  rising lo l -> Forall (fun q => (lo <= q)%Q) l.
Proof.
  revert lo. induction l as [|q l IH]; intros lo; simpl; [constructor|].
  intros [Hq Hl]. constructor; [exact Hq|].
  eapply Forall_impl; [apply IH, Hl|]. simpl. intros x Hx.
  eapply Qle_trans; eassumption.
Qed.

Lemma rising_sorted (lo : Q) (l : list Q) :
  rising lo l -> StronglySorted Qle l.
Proof.
  revert lo. induction l as [|q l IH]; intros lo; simpl; [constructor|].
  intros [Hq Hl]. constructor; [apply (IH q), Hl|].
  apply rising_Forall, Hl.
Qed.

Section Fractions.
Variable total_bytes : Z.
Hypothesis total_bytes_pos : 0 < total_bytes.

Lemma fraction_of_mono (c c' : Z) :
  c <= c' -> (fraction_of total_bytes c <= fraction_of total_bytes c')%Q.
Proof.
  intros Hc. unfold fraction_of. apply Q.min_le_compat_r.
  unfold Qdiv. apply Qmult_le_compat_r.
  - rewrite <- Zle_Qle. exact Hc.
  - apply Qinv_le_0_compat. change 0%Q with (inject_Z 0). rewrite <- Zle_Qle. lia.
Qed.

Lemma steady_nil (lo : Q) (c : Z) :
  (lo <= fraction_of total_bytes c)%Q -> steady total_bytes lo [] c.
Proof. intros Hlo. split; [exact I | exact Hlo]. Qed.

Lemma steady_app (lo : Q) (us1 us2 : list update) (c : Z) :
  rising lo (progress_fractions us1) ->
  steady total_bytes (List.last (progress_fractions us1) lo) us2 c ->
  steady total_bytes lo (us1 ++ us2) c.
Proof.
  intros H1 [H2 Hlast]. unfold steady.
  rewrite progress_fractions_app, last_app_default.
  split; [apply rising_app; assumption | exact Hlast].
Qed.

Lemma steady_ready (lo : Q) (us : list update) (c : Z) :
  steady total_bytes lo us c -> (lo <= fraction_of total_bytes c)%Q.
Proof.
  intros [Hr Hlast]. eapply Qle_trans; [apply rising_last, Hr | exact Hlast].
Qed.

Lemma good_bind {A B} (lo : Q) (c : Z) (p : prog A) (f : A -> prog B) :
  good total_bytes lo c p ->
  (forall a us c', run_alone c p = (us, c', Ok a) ->
     good total_bytes (List.last (progress_fractions us) lo) c' (f a)) ->
  good total_bytes lo c (p ≫= f).
Proof.
  unfold good. intros Hp Hf. rewrite run_alone_bind.
  destruct (run_alone c p) as [[us c'] [a|e]] eqn:E; cbn [fst snd] in *.
  - specialize (Hf a us c' eq_refl).
    destruct (run_alone c' (f a)) as [[us2 c''] r2]. cbn [fst snd] in *.
    apply steady_app; [apply Hp | exact Hf].
  - exact Hp.
Qed.

Lemma good_try_except {A} (lo : Q) (c : Z) (p : prog A) (handler : exn -> prog A) :
  good total_bytes lo c p ->
  (forall e us c', run_alone c p = (us, c', Raise e) ->
     good total_bytes (List.last (progress_fractions us) lo) c' (handler e)) ->
  good total_bytes lo c (try_except p handler).
Proof.
  unfold good. intros Hp Hh. rewrite run_alone_try_except.
  destruct (run_alone c p) as [[us c'] [a|e]] eqn:E; cbn [fst snd] in *.
  - exact Hp.
  - specialize (Hh e us c' eq_refl).
    destruct (run_alone c' (handler e)) as [[us2 c''] r2]. cbn [fst snd] in *.
    apply steady_app; [apply Hp | exact Hh].
Qed.

Lemma good_lift {A} (lo : Q) (c : Z) (r : result A) :
  (lo <= fraction_of total_bytes c)%Q -> good total_bytes lo c (lift r).
Proof. intros Hlo. destruct r; apply steady_nil; exact Hlo. Qed.

Lemma good_outcome (lo : Q) (c : Z) (u : update) :
  is_outcome u = true ->
  (lo <= fraction_of total_bytes c)%Q -> good total_bytes lo c (put u).
Proof.
  intros Hu Hlo. unfold good. cbn.
  destruct u; try discriminate; apply steady_nil; exact Hlo.
Qed.

Lemma good_done {A} (lo : Q) (c : Z) (p : prog A) us c' r :
  good total_bytes lo c p -> run_alone c p = (us, c', r) ->
  (List.last (progress_fractions us) lo <= fraction_of total_bytes c')%Q.
Proof. unfold good. intros [_ Hlast] E. rewrite E in Hlast. exact Hlast. Qed.

Context {H : Hashlib}.

Lemma read_loop_good (reads : list (result bytes)) (h : HASH) (lo : Q) (c : Z) :
  (lo <= fraction_of total_bytes c)%Q ->
  good total_bytes lo c (read_loop total_bytes reads h).
Proof.
  revert h lo c. induction reads as [|[chunk|e] reads IH]; intros h lo c Hlo.
  - apply steady_nil. exact Hlo.
  - unfold good. cbn. unfold true_div.
    destruct (Z.eqb_spec total_bytes 0) as [Hz|_]; [lia|]. cbn.
    specialize (IH (hash_update h chunk)
                  (fraction_of total_bytes (c + Z.of_nat (length chunk)))
                  (c + Z.of_nat (length chunk)) (Qle_refl _)).
    unfold good in IH.
    destruct (run_alone (c + Z.of_nat (length chunk))
                (read_loop total_bytes reads (hash_update h chunk)))
      as [[us c'] r]. cbn [fst snd] in *.
    destruct IH as [Hr Hlast]. split.
    + cbn [progress_fractions rising]. split; [|exact Hr].
      eapply Qle_trans; [exact Hlo|]. apply fraction_of_mono. lia.
    + cbn [progress_fractions]. rewrite last_cons_default. exact Hlast.
  - apply steady_nil. exact Hlo.
Qed.

Lemma hash_task_good (fs : filesystem) (algo : string) (file : path)
  (shake_length : Z) (lo : Q) (c : Z) :
  (lo <= fraction_of total_bytes c)%Q ->
  good total_bytes lo c (hash_task fs algo total_bytes file shake_length).
Proof.
  intros Hlo. unfold hash_task, good. cbn [run_alone is_set mbind prog_bind prog_bind_def].
  change (steady total_bytes lo
            (fst (fst (run_alone c
               (size ← lift (stat_size fs file);
                hash_obj ← lift (hashlib_new algo);
                try_except
                  (f ← lift (open_rb fs file);
                   finished ← read_loop total_bytes
                                (read_calls f (chunk_size_of size)) hash_obj;
                   match finished with
                   | None => mret tt
                   | Some hash_obj =>
                       digest ← lift (if str_contains "shake" algo
                                      then hash_hexdigest hash_obj (Some shake_length)
                                      else hash_hexdigest hash_obj None);
                       put (Result file digest algo)
                   end)
                  (fun e => put (Error file (exn_str e) algo))))))
            (snd (fst (run_alone c
               (size ← lift (stat_size fs file);
                hash_obj ← lift (hashlib_new algo);
                try_except
                  (f ← lift (open_rb fs file);
                   finished ← read_loop total_bytes
                                (read_calls f (chunk_size_of size)) hash_obj;
                   match finished with
                   | None => mret tt
                   | Some hash_obj =>
                       digest ← lift (if str_contains "shake" algo
                                      then hash_hexdigest hash_obj (Some shake_length)
                                      else hash_hexdigest hash_obj None);
                       put (Result file digest algo)
                   end)
                  (fun e => put (Error file (exn_str e) algo))))))).
  apply good_bind; [apply good_lift; exact Hlo|].
  intros size us1 c1 E1.
  assert (us1 = [] /\ c1 = c) as [-> ->].
  { destruct (stat_size fs file); cbn in E1; [|discriminate].
    injection E1 as <- <- _. auto. }
  cbn [progress_fractions List.last].
  apply good_bind; [apply good_lift; exact Hlo|].
  intros hash_obj us2 c2 E2.
  assert (us2 = [] /\ c2 = c) as [-> ->].
  { destruct (hashlib_new algo); cbn in E2; [|discriminate].
    injection E2 as <- <- _. auto. }
  cbn [progress_fractions List.last].
  apply good_try_except.
  - apply good_bind; [apply good_lift; exact Hlo|].
    intros f us3 c3 E3.
    assert (us3 = [] /\ c3 = c) as [-> ->].
    { destruct (open_rb fs file); cbn in E3; [|discriminate].
      injection E3 as <- <- _. auto. }
    cbn [progress_fractions List.last].
    apply good_bind; [apply read_loop_good; exact Hlo|].
    intros finished us4 c4 E4.
    pose proof (good_done _ _ _ _ _ _ (read_loop_good _ _ _ _ Hlo) E4) as Hlast.
    destruct finished as [hash_obj'|].
    + apply good_bind; [apply good_lift; exact Hlast|].
      intros digest us5 c5 E5.
      assert (us5 = [] /\ c5 = c4) as [-> ->].
      { destruct (if str_contains "shake" algo then _ else _); cbn in E5;
          [|discriminate]. injection E5 as <- <- _. auto. }
      cbn [progress_fractions List.last].
      apply good_outcome; [reflexivity | exact Hlast].
    + apply steady_nil. exact Hlast.
  - intros e us c' E. apply good_outcome; [reflexivity|].
    match type of E with
    | run_alone c ?p = _ =>
        assert (Hp : good total_bytes lo c p)
    end.
    { apply good_bind; [apply good_lift; exact Hlo|].
      intros f us3 c3 E3.
      assert (us3 = [] /\ c3 = c) as [-> ->].
      { destruct (open_rb fs file); cbn in E3; [|discriminate].
        injection E3 as <- <- _. auto. }
      cbn [progress_fractions List.last].
      apply good_bind; [apply read_loop_good; exact Hlo|].
      intros finished us4 c4 E4.
      pose proof (good_done _ _ _ _ _ _ (read_loop_good _ _ _ _ Hlo) E4) as Hlast.
      destruct finished as [hash_obj'|].
      + apply good_bind; [apply good_lift; exact Hlast|].
        intros digest us5 c5 E5.
        assert (us5 = [] /\ c5 = c4) as [-> ->].
        { destruct (if str_contains "shake" algo then _ else _); cbn in E5;
            [|discriminate]. injection E5 as <- <- _. auto. }
        cbn [progress_fractions List.last].
        apply good_outcome; [reflexivity | exact Hlast].
      + apply steady_nil. exact Hlast. }
    exact (good_done _ _ _ _ _ _ Hp E).
Qed.
End Fractions.

Lemma running_or_idle (ts : list task) :
  Forall (fun t => is_running t = false) ts
  \/ exists i p, ts !! i = Some (Running p).
Proof.
  induction ts as [|t ts IH]; [left; constructor|].
  destruct t as [file|p|r|]; try (destruct IH as [IH|(i & p & IH)];
    [left; constructor; [reflexivity | exact IH]
    | right; exists (S i), p; exact IH]).
  right. exists O, p. reflexivity.
Qed.

Lemma may_start_one_idle (ts : list task) (i : nat) :
  may_start 1 ts i = true -> Forall (fun t => is_running t = false) ts.
Proof.
  unfold may_start. intros Hm. apply andb_prop in Hm as [_ Hm].
  apply Z.ltb_lt in Hm.
  assert (Hnil : List.filter is_running ts = []).
  { destruct (List.filter is_running ts); [reflexivity | simpl in Hm; lia]. }
  clear Hm. induction ts as [|t ts IH]; [constructor|].
  simpl in Hnil. destruct (is_running t) eqn:E; [discriminate|].
  constructor; [exact E | apply IH, Hnil].
Qed.

Section OneWorker.
Context {H : Hashlib}.
Variable fs : filesystem.
Variable algo : string.
Variable total_bytes : Z.
Hypothesis total_bytes_pos : 0 < total_bytes.

(** The step of a running task that stays running. *)
Lemma alone_inv_access (lo : Q) (c c' : pool) (i : nat) (p p' : prog unit) :
  alone_inv total_bytes lo c ->
  tasks c !! i = Some (Running p) ->
  cancel_event (window c') = false ->
  tasks c' = <[i := Running p']> (tasks c) ->
  (puts (map snd (history c')) ++ fst (fst (run_alone (bytes_read c') p')))%list
  = (puts (map snd (history c)) ++ fst (fst (run_alone (bytes_read c) p)))%list ->
  snd (fst (run_alone (bytes_read c') p')) = snd (fst (run_alone (bytes_read c) p)) ->
  alone_inv total_bytes lo c'.
Proof.
  intros (Hflag & Hone & Hrun & Hidle) Hi Hflag' Htasks Hputs Hcount.
  pose proof (lookup_lt_Some _ _ _ Hi) as Hlt.
  assert (Honly : forall k q, tasks c' !! k = Some (Running q) -> k = i /\ q = p').
  { intros k q Hk. rewrite Htasks in Hk.
    destruct (Nat.eq_dec k i) as [->|Hne].
    - rewrite list_lookup_insert_eq in Hk by exact Hlt.
      injection Hk as <-. auto.
    - rewrite list_lookup_insert_ne in Hk by (intros ->; contradiction).
      exfalso. apply Hne. exact (Hone k i q p Hk Hi). }
  split; [|split; [|split]].
  - exact Hflag'.
  - intros k j q1 q2 Hk Hj.
    destruct (Honly k q1 Hk) as [-> _]. destruct (Honly j q2 Hj) as [-> _].
    reflexivity.
  - intros k q Hk. destruct (Honly k q Hk) as [-> ->].
    rewrite Hputs, Hcount. exact (Hrun i p Hi).
  - intros Hall. exfalso. rewrite Forall_forall in Hall.
    assert (Hin : tasks c' !! i = Some (Running p')).
    { rewrite Htasks. apply list_lookup_insert_eq. exact Hlt. }
    pose proof (Hall _ (list_elem_of_lookup_2 _ _ _ Hin)) as Hr. discriminate Hr.
Qed.

(** The step in which a running task finishes. *)
Lemma alone_inv_stop (lo : Q) (c c' : pool) (i : nat) (p : prog unit)
  (r : result unit) :
  alone_inv total_bytes lo c ->
  tasks c !! i = Some (Running p) ->
  run_alone (bytes_read c) p = ([], bytes_read c, r) ->
  cancel_event (window c') = false ->
  tasks c' = <[i := Done r]> (tasks c) ->
  history c' = history c ->
  bytes_read c' = bytes_read c ->
  alone_inv total_bytes lo c'.
Proof.
  intros (Hflag & Hone & Hrun & Hidle) Hi Hp Hflag' Htasks Hhist Hbytes.
  pose proof (lookup_lt_Some _ _ _ Hi) as Hlt.
  assert (Hnone : forall k q, tasks c' !! k = Some (Running q) -> False).
  { intros k q Hk. rewrite Htasks in Hk.
    destruct (Nat.eq_dec k i) as [->|Hne].
    - rewrite list_lookup_insert_eq in Hk by exact Hlt. discriminate Hk.
    - rewrite list_lookup_insert_ne in Hk by (intros ->; contradiction).
      apply Hne. exact (Hone k i q p Hk Hi). }
  split; [|split; [|split]].
  - exact Hflag'.
  - intros k j q1 q2 Hk _. destruct (Hnone k q1 Hk).
  - intros k q Hk. destruct (Hnone k q Hk).
  - intros _. rewrite Hhist, Hbytes.
    specialize (Hrun i p Hi). rewrite Hp in Hrun. cbn [fst snd] in Hrun.
    rewrite app_nil_r in Hrun. exact Hrun.
Qed.

Lemma alone_inv_step (lo : Q) (ev : event) (c : pool) :
  ev <> CancelClicked ->
  alone_inv total_bytes lo c ->
  alone_inv total_bytes lo (step fs algo total_bytes 1 ev c).
Proof.
  intros Hev Hc. destruct ev as [i| |]; [|congruence|]; cbn [step].
  - destruct (tasks c !! i) as [[file|p|r|]|] eqn:Hi; try exact Hc.
    + (* a queued task is taken *)
      destruct (may_start 1 (tasks c) i) eqn:Hm; [|exact Hc].
      apply may_start_one_idle in Hm.
      destruct Hc as (Hflag & Hone & Hrun & Hidle).
      specialize (Hidle Hm).
      pose proof (lookup_lt_Some _ _ _ Hi) as Hlt.
      assert (Honly : forall k q,
                tasks (set_task i (Running (hash_task fs algo total_bytes file 32)) c)
                  !! k = Some (Running q) ->
                k = i /\ q = hash_task fs algo total_bytes file 32).
      { intros k q Hk. unfold set_task in Hk. cbn [tasks] in Hk.
        destruct (Nat.eq_dec k i) as [->|Hne].
        - rewrite list_lookup_insert_eq in Hk by exact Hlt.
          injection Hk as <-. auto.
        - rewrite list_lookup_insert_ne in Hk by (intros ->; contradiction).
          exfalso. rewrite Forall_forall in Hm.
          pose proof (Hm _ (list_elem_of_lookup_2 _ _ _ Hk)) as Hr.
          discriminate Hr. }
      split; [|split; [|split]].
      * exact Hflag.
      * intros k j q1 q2 Hk Hj.
        destruct (Honly k q1 Hk) as [-> _]. destruct (Honly j q2 Hj) as [-> _].
        reflexivity.
      * intros k q Hk. destruct (Honly k q Hk) as [-> ->].
        unfold set_task. cbn [history bytes_read].
        destruct Hidle as [Hrise Hlast].
        apply steady_app; [exact Hrise|].
        apply (hash_task_good total_bytes total_bytes_pos). exact Hlast.
      * intros Hall. exfalso. rewrite Forall_forall in Hall.
        assert (Hin : tasks (set_task i (Running (hash_task fs algo total_bytes file 32)) c)
                        !! i = Some (Running (hash_task fs algo total_bytes file 32))).
        { unfold set_task. cbn [tasks]. apply list_lookup_insert_eq. exact Hlt. }
        pose proof (Hall _ (list_elem_of_lookup_2 _ _ _ Hin)) as Hr. discriminate Hr.
    + (* the running task performs an access *)
      pose proof Hc as (Hflag & _).
      destruct p as [a|e|k|k|v k|u k]; cbn [access].
      * eapply alone_inv_stop; eauto; reflexivity.
      * eapply alone_inv_stop; eauto; reflexivity.
      * eapply alone_inv_access; eauto; unfold set_task, log;
          cbn [tasks history bytes_read window]; rewrite ?Hflag;
          rewrite ?map_app, ?puts_app; cbn [map snd puts];
          rewrite ?app_nil_r; reflexivity.
      * eapply alone_inv_access; eauto; unfold set_task, log;
          cbn [tasks history bytes_read window];
          rewrite ?map_app, ?puts_app; cbn [map snd puts];
          rewrite ?app_nil_r; reflexivity.
      * eapply alone_inv_access; eauto; unfold set_task, log, set_bytes_read;
          cbn [tasks history bytes_read window];
          rewrite ?map_app, ?puts_app; cbn [map snd puts];
          rewrite ?app_nil_r; reflexivity.
      * eapply alone_inv_access; eauto; unfold set_task, log, queue_put;
          cbn [tasks history bytes_read window cancel_event];
          rewrite ?map_app, ?puts_app; cbn [map snd puts run_alone];
          try reflexivity;
          destruct (run_alone (bytes_read c) k) as [[us c'] r]; cbn [fst snd];
          rewrite <- ?app_assoc; reflexivity.
  - destruct (first_failure_raised (tasks c)); [|exact Hc].
    destruct Hc as (Hflag & Hone & Hrun & Hidle).
    assert (Hsame : forall k q,
              (cancel_pending <$> tasks c) !! k = Some (Running q) ->
              tasks c !! k = Some (Running q)).
    { intros k q Hk. rewrite list_lookup_fmap in Hk.
      destruct (tasks c !! k) as [[file|p|r|]|]; simpl in Hk;
        try discriminate Hk; exact Hk. }
    split; [|split; [|split]]; cbn [tasks history bytes_read window].
    + exact Hflag.
    + intros k j q1 q2 Hk Hj. eapply Hone; apply Hsame; eassumption.
    + intros k q Hk. apply Hrun with (i := k). apply Hsame. exact Hk.
    + intros Hall. apply Hidle. clear -Hall.
      induction (tasks c) as [|t ts IH]; [constructor|].
      apply Forall_cons in Hall as [Ht Hall].
      constructor; [destruct t; simpl in *; congruence | apply IH, Hall].
Qed.

Lemma alone_inv_exec (lo : Q) (schedule : list event) (c : pool) :
  Forall (fun ev => ev <> CancelClicked) schedule ->
  alone_inv total_bytes lo c ->
  alone_inv total_bytes lo (exec fs algo total_bytes 1 schedule c).
Proof.
  intros Hs. revert c. induction Hs as [|ev schedule Hev _ IH]; intros c Hc; simpl.
  - exact Hc.
  - apply IH, alone_inv_step; assumption.
Qed.

Lemma alone_inv_rising (lo : Q) (c : pool) :
  alone_inv total_bytes lo c ->
  rising lo (progress_fractions (puts (map snd (history c)))).
Proof.
  intros (_ & _ & Hrun & Hidle).
  destruct (running_or_idle (tasks c)) as [Hall|(i & p & Hi)].
  - apply Hidle, Hall.
  - destruct (Hrun i p Hi) as [Hrise _].
    rewrite progress_fractions_app in Hrise.
    eapply rising_app_inv. exact Hrise.
Qed.
End OneWorker.

Section OneWorkerJobSet.
Context {H : Hashlib}.
Variable w : world.

(** On a machine with one or two CPUs the pool has one worker, and then,
    without a cancellation and with [total_bytes] above 0, the fractions
    of the progress items the job set puts never decrease, and none is
    negative, whatever the schedule and whatever happens to the files. *)
Theorem one_worker_progress_never_goes_back (self : MainWindow)
  (paths : list path) (algo : string) (schedule : list event) :
  cpu_count w <= 2 ->
  cancel_event self = false ->
  Forall (fun ev => ev <> CancelClicked) schedule ->
  0 < total_bytes (fst (submitted w self paths algo)) ->
  exists new,
    update_queue (window (calculate_hash w self paths algo schedule))
    = (queued (fst (submitted w self paths algo)) ++ new)%list
    /\ StronglySorted Qle (progress_fractions new)
    /\ Forall (fun q => (0 <= q)%Q) (progress_fractions new).
Proof.
  intros Hcpu Hflag Hsched Hpos.
  pose proof (calculate_hash_inv w self paths algo schedule) as Hinv.
  exists (puts (map snd (history (calculate_hash w self paths algo schedule)))).
  split; [apply (inv_queue _ _ _ _ _ _ Hinv)|].
  assert (Hrise : rising 0
            (progress_fractions
               (puts (map snd (history (calculate_hash w self paths algo schedule)))))).
  { assert (Hexec : calculate_hash w self paths algo schedule
                    = exec (fs_hash w) algo
                        (total_bytes (fst (submitted w self paths algo))) 1 schedule
                        (snd (submitted w self paths algo))).
    { unfold calculate_hash. destruct (submitted w self paths algo) as [en c0].
      cbn [fst snd]. replace (Z.max 1 (cpu_count w - 1)) with 1 by lia.
      reflexivity. }
    rewrite Hexec.
    apply (alone_inv_rising (total_bytes (fst (submitted w self paths algo)))).
    apply alone_inv_exec; [exact Hpos | exact Hsched|].
    unfold submitted. cbn [snd].
    split; [|split; [|split]]; cbn [tasks history bytes_read window cancel_event].
    - exact Hflag.
    - intros i j p q Hi. exfalso.
      change (map Pending ?l) with (Pending <$> l) in Hi.
      rewrite list_lookup_fmap in Hi.
      destruct (_ !! i); discriminate Hi.
    - intros i p Hi. exfalso.
      change (map Pending ?l) with (Pending <$> l) in Hi.
      rewrite list_lookup_fmap in Hi.
      destruct (_ !! i); discriminate Hi.
    - intros _. apply steady_nil. unfold fraction_of. apply Q.min_glb; [|discriminate].
      unfold Qdiv. rewrite Qmult_0_l. apply Qle_refl. }
  split; [eapply rising_sorted; exact Hrise | apply rising_Forall; exact Hrise].
Qed.
End OneWorkerJobSet.

(** ** One worker: the progress ends at one *)

Lemma pending_bytes_insert (fs : filesystem) (ts : list task) (i : nat)
  (t t' : task) :
  ts !! i = Some t ->
  pending_bytes fs (<[i := t']> ts)
  = pending_bytes fs ts - task_bytes fs t + task_bytes fs t'.
Proof.
  unfold pending_bytes. revert i. induction ts as [|x ts IH]; intros i Hi.
  - discriminate Hi.
  - destruct i as [|i]; simpl in *.
    + injection Hi as ->. lia.
    + rewrite (IH i Hi). lia.
Qed.

Lemma pending_bytes_done (fs : filesystem) (ts : list task) :
  Forall (fun t => is_done t = true) ts -> pending_bytes fs ts = 0.
Proof.
  unfold pending_bytes. induction 1 as [|t ts Ht _ IH]; [reflexivity|].
  simpl. rewrite IH. destruct t; try discriminate Ht; reflexivity.
Qed.

Lemma first_failure_raised_Done (ts : list task) :
  first_failure_raised ts = true -> exists i e, ts !! i = Some (Done (Raise e)).
Proof.
  induction ts as [|t ts IH]; [discriminate|]. simpl.
  destruct t as [file|p|[a|e]|]; try discriminate.
  - intros Hf. destruct (IH Hf) as (i & e & Hi). exists (S i), e. exact Hi.
  - intros _. exists O, e. reflexivity.
Qed.

Section ExactFractions.
Context {H : Hashlib}.
Variable total_bytes : Z.
Hypothesis total_bytes_pos : 0 < total_bytes.

(** Alone and on reads that succeed, the loop ends with the counter
    advanced by the bytes read, and its last fraction is that of the
    counter. *)
Lemma read_loop_alone (cs : list bytes) (h : HASH) (c : Z) (lo : Q) :
  snd (run_alone c (read_loop total_bytes (map Ok cs) h))
  = Ok (Some (fold_left hash_update cs h))
  /\ snd (fst (run_alone c (read_loop total_bytes (map Ok cs) h)))
     = c + Z.of_nat (length (concat cs))
  /\ List.last
       (progress_fractions (fst (fst (run_alone c (read_loop total_bytes (map Ok cs) h)))))
       lo
     = match cs with
       | [] => lo
       | _ :: _ => fraction_of total_bytes (c + Z.of_nat (length (concat cs)))
       end.
Proof.
  revert h c lo. induction cs as [|chunk cs IH]; intros h c lo.
  - cbn. repeat split; [f_equal; lia].
  - cbn [map read_loop]. cbn. unfold true_div.
    destruct (Z.eqb_spec total_bytes 0) as [Hz|_]; [lia|]. cbn.
    specialize (IH (hash_update h chunk) (c + Z.of_nat (length chunk))
                  (fraction_of total_bytes (c + Z.of_nat (length chunk)))).
    destruct (run_alone (c + Z.of_nat (length chunk))
                (read_loop total_bytes (map Ok cs) (hash_update h chunk)))
      as [[us c'] r]. cbn [fst snd] in *.
    destruct IH as (-> & -> & Hlast).
    rewrite length_app, Nat2Z.inj_add.
    split; [reflexivity|]. split; [lia|].
    cbn [progress_fractions]. rewrite last_cons_default.
    change (Qmin (inject_Z (c + Z.of_nat (length chunk)) / inject_Z total_bytes) 1)
      with (fraction_of total_bytes (c + Z.of_nat (length chunk))).
    rewrite Hlast. destruct cs as [|chunk' cs].
    + cbn. f_equal. lia.
    + f_equal. lia.
Qed.

Lemma hash_task_alone (fs : filesystem) (algo : string) (file : path)
  (data : bytes) (h0 : HASH) (c : Z) (lo : Q) :
  readable fs file data ->
  hashlib_new algo = Ok h0 ->
  snd (run_alone c (hash_task fs algo total_bytes file 32)) = Ok tt
  /\ snd (fst (run_alone c (hash_task fs algo total_bytes file 32)))
     = c + Z.of_nat (length data)
  /\ List.last
       (progress_fractions
          (fst (fst (run_alone c (hash_task fs algo total_bytes file 32))))) lo
     = match data with
       | [] => lo
       | _ :: _ => fraction_of total_bytes (c + Z.of_nat (length data))
       end.
Proof.
  intros (f & Ho & He & Hdata) Hnew.
  pose proof (open_rb_stat_size _ _ _ Ho) as Hs.
  destruct (read_loop_alone (chunks (chunk_size_of (st_size f)) (content f)) h0 c lo)
    as (Hr & Hc & Hlast).
  rewrite chunks_concat in Hc, Hlast by apply chunk_size_of_pos.
  assert (Hfin : List.last
                   (progress_fractions
                      (fst (fst (run_alone c
                         (read_loop total_bytes
                            (map Ok (chunks (chunk_size_of (st_size f)) (content f)))
                            h0))))) lo
                 = match data with
                   | [] => lo
                   | _ :: _ => fraction_of total_bytes (c + Z.of_nat (length data))
                   end).
  { rewrite Hlast, <- Hdata. destruct (content f) as [|b l] eqn:Ec.
    - reflexivity.
    - unfold chunks. cbn [length chunks_upto].
      rewrite take_cons by apply chunk_size_of_pos. reflexivity. }
  clear Hlast.
  unfold hash_task. cbn [run_alone is_set mbind prog_bind prog_bind_def].
  rewrite Hs, Hnew. cbn [lift].
  rewrite run_alone_bind. cbn [run_alone app].
  rewrite run_alone_bind. cbn [run_alone app].
  rewrite run_alone_try_except, run_alone_bind, Ho. cbn [lift run_alone].
  rewrite run_alone_bind, (read_calls_no_error f _ He).
  remember (run_alone c
              (read_loop total_bytes
                 (map Ok (chunks (chunk_size_of (st_size f)) (content f))) h0))
    as alone eqn:Ealone. clear Ealone.
  destruct alone as [[us c'] r]. cbn [fst snd] in *. subst r c'.
  rewrite Hdata. rewrite run_alone_bind.
  destruct (if str_contains "shake" algo then _ else _) as [digest|e];
    cbn [lift run_alone app fst snd put];
    rewrite ?progress_fractions_app; cbn [progress_fractions];
    rewrite ?app_nil_r; auto.
Qed.
End ExactFractions.

Lemma last_nonempty_default {A} (l : list A) (d d' : A) :
  l <> [] -> List.last l d = List.last l d'.
Proof.
  destruct l as [|a l]; [congruence|]. intros _.
  rewrite !last_cons_default. reflexivity.
Qed.

Lemma fraction_of_zero (total_bytes : Z) : (fraction_of total_bytes 0 == 0)%Q.
Proof.
  unfold fraction_of.
  assert (Hz : (inject_Z 0 / inject_Z total_bytes == 0)%Q).
  { unfold Qdiv. apply Qmult_0_l. }
  rewrite Hz. apply Q.min_l. discriminate.
Qed.

Lemma fraction_of_total (total_bytes : Z) :
  0 < total_bytes -> (fraction_of total_bytes total_bytes == 1)%Q.
Proof.
  intros Hpos. unfold fraction_of.
  assert (Hz : (inject_Z total_bytes / inject_Z total_bytes == 1)%Q).
  { unfold Qdiv. apply Qmult_inv_r. intros Heq.
    unfold Qeq in Heq. simpl in Heq. lia. }
  rewrite Hz. apply Q.min_l. apply Qle_refl.
Qed.

Section OneWorkerExact.
Context {H : Hashlib}.
Variable fs : filesystem.
Variable algo : string.
Variable total_bytes : Z.
Variable h0 : HASH.
Hypothesis total_bytes_pos : 0 < total_bytes.
Hypothesis algo_known : hashlib_new algo = Ok h0.

Lemma exact_inv_access (c c' : pool) (i : nat) (p p' : prog unit) :
  exact_inv fs total_bytes c ->
  tasks c !! i = Some (Running p) ->
  cancel_event (window c') = false ->
  tasks c' = <[i := Running p']> (tasks c) ->
  (puts (map snd (history c')) ++ fst (fst (run_alone (bytes_read c') p')))%list
  = (puts (map snd (history c)) ++ fst (fst (run_alone (bytes_read c) p)))%list ->
  snd (fst (run_alone (bytes_read c') p')) = snd (fst (run_alone (bytes_read c) p)) ->
  snd (run_alone (bytes_read c') p') = snd (run_alone (bytes_read c) p) ->
  exact_inv fs total_bytes c'.
Proof.
  intros (Hflag & Hone & Hrun & Hidle & Hpend & Hdone) Hi Hflag' Htasks Hputs
    Hcount Hres.
  pose proof (lookup_lt_Some _ _ _ Hi) as Hlt.
  assert (Honly : forall k q, tasks c' !! k = Some (Running q) -> k = i /\ q = p').
  { intros k q Hk. rewrite Htasks in Hk.
    destruct (Nat.eq_dec k i) as [->|Hne].
    - rewrite list_lookup_insert_eq in Hk by exact Hlt.
      injection Hk as <-. auto.
    - rewrite list_lookup_insert_ne in Hk by (intros ->; contradiction).
      exfalso. apply Hne. exact (Hone k i q p Hk Hi). }
  assert (Hother : forall k t, is_running t = false ->
            tasks c' !! k = Some t -> tasks c !! k = Some t).
  { intros k t Ht Hk. rewrite Htasks in Hk.
    destruct (Nat.eq_dec k i) as [->|Hne].
    - rewrite list_lookup_insert_eq in Hk by exact Hlt.
      injection Hk as <-. discriminate Ht.
    - rewrite list_lookup_insert_ne in Hk by (intros ->; contradiction).
      exact Hk. }
  split; [|split; [|split; [|split; [|split]]]].
  - exact Hflag'.
  - intros k j q1 q2 Hk Hj.
    destruct (Honly k q1 Hk) as [-> _]. destruct (Honly j q2 Hj) as [-> _].
    reflexivity.
  - intros k q Hk. destruct (Honly k q Hk) as [-> ->].
    rewrite Hputs, Hcount, Hres, Htasks, (pending_bytes_insert fs _ _ _ _ Hi).
    cbn [task_bytes]. rewrite Z.sub_0_r, Z.add_0_r. exact (Hrun i p Hi).
  - intros Hall. exfalso. rewrite Forall_forall in Hall.
    assert (Hin : tasks c' !! i = Some (Running p')).
    { rewrite Htasks. apply list_lookup_insert_eq. exact Hlt. }
    pose proof (Hall _ (list_elem_of_lookup_2 _ _ _ Hin)) as Hr. discriminate Hr.
  - intros k file Hk. apply (Hpend k). apply Hother; [reflexivity | exact Hk].
  - intros k r Hk. apply (Hdone k). apply Hother; [reflexivity | exact Hk].
Qed.

Lemma exact_inv_step (ev : event) (c : pool) :
  ev <> CancelClicked ->
  exact_inv fs total_bytes c ->
  exact_inv fs total_bytes (step fs algo total_bytes 1 ev c).
Proof.
  intros Hev Hc. destruct ev as [i| |]; [|congruence|]; cbn [step].
  - destruct (tasks c !! i) as [[file|p|r|]|] eqn:Hi; try exact Hc.
    + (* a queued task is taken *)
      destruct (may_start 1 (tasks c) i) eqn:Hm; [|exact Hc].
      apply may_start_one_idle in Hm.
      destruct Hc as (Hflag & Hone & Hrun & Hidle & Hpend & Hdone).
      destruct (Hidle Hm) as [Hlast Hsum].
      destruct (Hpend i file Hi) as [data Hdata].
      pose proof (lookup_lt_Some _ _ _ Hi) as Hlt.
      assert (Honly : forall k q,
                <[i := Running (hash_task fs algo total_bytes file 32)]> (tasks c)
                  !! k = Some (Running q) ->
                k = i /\ q = hash_task fs algo total_bytes file 32).
      { intros k q Hk.
        destruct (Nat.eq_dec k i) as [->|Hne].
        - rewrite list_lookup_insert_eq in Hk by exact Hlt.
          injection Hk as <-. auto.
        - rewrite list_lookup_insert_ne in Hk by (intros ->; contradiction).
          exfalso. rewrite Forall_forall in Hm.
          pose proof (Hm _ (list_elem_of_lookup_2 _ _ _ Hk)) as Hr.
          discriminate Hr. }
      assert (Hother : forall k t, is_running t = false ->
                <[i := Running (hash_task fs algo total_bytes file 32)]> (tasks c)
                  !! k = Some t -> tasks c !! k = Some t).
      { intros k t Ht Hk.
        destruct (Nat.eq_dec k i) as [->|Hne].
        - rewrite list_lookup_insert_eq in Hk by exact Hlt.
          injection Hk as <-. discriminate Ht.
        - rewrite list_lookup_insert_ne in Hk by (intros ->; contradiction).
          exact Hk. }
      unfold set_task.
      split; [|split; [|split; [|split; [|split]]]];
        cbn [tasks history bytes_read window].
      * exact Hflag.
      * intros k j q1 q2 Hk Hj.
        destruct (Honly k q1 Hk) as [-> _]. destruct (Honly j q2 Hj) as [-> _].
        reflexivity.
      * intros k q Hk. destruct (Honly k q Hk) as [-> ->].
        destruct (hash_task_alone total_bytes total_bytes_pos fs algo file data h0
                    (bytes_read c)
                    (List.last (progress_fractions (puts (map snd (history c)))) 0%Q)
                    Hdata algo_known) as (Hres & Hcount & Hfin).
        rewrite Hres, Hcount, progress_fractions_app, last_app_default, Hfin,
          (pending_bytes_insert fs _ _ _ _ Hi).
        cbn [task_bytes].
        assert (Hlen : content_length fs file = Z.of_nat (length data)).
        { destruct Hdata as (f & Ho & _ & <-). unfold content_length.
          rewrite Ho. reflexivity. }
        split; [reflexivity|]. split; [|lia].
        destruct data as [|b data].
        -- cbn [length Z.of_nat]. rewrite Z.add_0_r. exact Hlast.
        -- apply Qeq_refl.
      * intros Hall. exfalso. rewrite Forall_forall in Hall.
        assert (Hin : <[i := Running (hash_task fs algo total_bytes file 32)]>
                        (tasks c) !! i
                      = Some (Running (hash_task fs algo total_bytes file 32))).
        { apply list_lookup_insert_eq. exact Hlt. }
        pose proof (Hall _ (list_elem_of_lookup_2 _ _ _ Hin)) as Hr. discriminate Hr.
      * intros k file' Hk. apply (Hpend k). apply Hother; [reflexivity | exact Hk].
      * intros k r Hk. apply (Hdone k). apply Hother; [reflexivity | exact Hk].
    + (* the running task performs an access *)
      pose proof Hc as (Hflag & Hone & Hrun & Hidle & Hpend & Hdone).
      pose proof (lookup_lt_Some _ _ _ Hi) as Hlt.
      destruct p as [a|e|k|k|v k|u k]; cbn [access].
      * (* it returns *)
        destruct (Hrun i _ Hi) as (Hres & Hlast & Hsum). cbn in Hres, Hlast, Hsum.
        injection Hres as ->. rewrite app_nil_r in Hlast.
        assert (Hother : forall j t,
                  <[i := Done (Ok tt)]> (tasks c) !! j = Some t ->
                  t = Done (Ok tt) \/ (j <> i /\ tasks c !! j = Some t)).
        { intros j t Hj. destruct (Nat.eq_dec j i) as [->|Hne].
          - rewrite list_lookup_insert_eq in Hj by exact Hlt.
            injection Hj as <-. auto.
          - rewrite list_lookup_insert_ne in Hj by (intros ->; contradiction).
            auto. }
        unfold set_task.
        split; [|split; [|split; [|split; [|split]]]];
          cbn [tasks history bytes_read window].
        -- exact Hflag.
        -- intros j1 j2 q1 q2 H1 H2.
           destruct (Hother _ _ H1) as [?|[Hn1 H1']]; [discriminate|].
           exfalso. apply Hn1. exact (Hone j1 i q1 _ H1' Hi).
        -- intros j q Hj.
           destruct (Hother _ _ Hj) as [?|[Hn1 H1']]; [discriminate|].
           exfalso. apply Hn1. exact (Hone j i q _ H1' Hi).
        -- intros _. split; [exact Hlast|].
           rewrite (pending_bytes_insert fs _ _ _ _ Hi). cbn [task_bytes]. lia.
        -- intros j file Hj.
           destruct (Hother _ _ Hj) as [?|[_ H1']]; [discriminate|].
           exact (Hpend j file H1').
        -- intros j r Hj.
           destruct (Hother _ _ Hj) as [Hr|[_ H1']]; [congruence|].
           exact (Hdone j r H1').
      * destruct (Hrun i _ Hi) as (Hres & _). cbn in Hres. discriminate Hres.
      * eapply exact_inv_access; eauto; unfold set_task, log;
          cbn [tasks history bytes_read window]; rewrite ?Hflag;
          rewrite ?map_app, ?puts_app; cbn [map snd puts];
          rewrite ?app_nil_r; reflexivity.
      * eapply exact_inv_access; eauto; unfold set_task, log;
          cbn [tasks history bytes_read window];
          rewrite ?map_app, ?puts_app; cbn [map snd puts];
          rewrite ?app_nil_r; reflexivity.
      * eapply exact_inv_access; eauto; unfold set_task, log, set_bytes_read;
          cbn [tasks history bytes_read window];
          rewrite ?map_app, ?puts_app; cbn [map snd puts];
          rewrite ?app_nil_r; reflexivity.
      * eapply exact_inv_access; eauto; unfold set_task, log, queue_put;
          cbn [tasks history bytes_read window cancel_event];
          rewrite ?map_app, ?puts_app; cbn [map snd puts run_alone];
          try reflexivity;
          destruct (run_alone (bytes_read c) k) as [[us c'] r]; cbn [fst snd];
          rewrite <- ?app_assoc; reflexivity.
  - destruct (first_failure_raised (tasks c)) eqn:Hf; [|exact Hc].
    exfalso. destruct Hc as (_ & _ & _ & _ & _ & Hdone).
    destruct (first_failure_raised_Done _ Hf) as (i & e & Hi).
    pose proof (Hdone i _ Hi) as Hr. discriminate Hr.
Qed.

Lemma exact_inv_exec (schedule : list event) (c : pool) :
  Forall (fun ev => ev <> CancelClicked) schedule ->
  exact_inv fs total_bytes c ->
  exact_inv fs total_bytes (exec fs algo total_bytes 1 schedule c).
Proof.
  intros Hs. revert c. induction Hs as [|ev schedule Hev _ IH]; intros c Hc; simpl.
  - exact Hc.
  - apply IH, exact_inv_step; assumption.
Qed.
End OneWorkerExact.

(** *** The sizes the enumeration adds up *)

Lemma sum_sizes_app (g : path -> Z) (l1 l2 : list path) :
  fold_right Z.add 0 (map g (l1 ++ l2))
  = fold_right Z.add 0 (map g l1) + fold_right Z.add 0 (map g l2).
Proof.
  induction l1 as [|a l1 IH]; simpl; [reflexivity|]. rewrite IH. lia.
Qed.

Lemma scan_path_total_bytes (fs : filesystem) (p : path) (st : enumeration) :
  total_bytes st = fold_right Z.add 0 (map (fun f => node_size (fs f)) (jobs st)) ->
  total_bytes (fst (scan_path fs p st))
  = fold_right Z.add 0
      (map (fun f => node_size (fs f)) (jobs (fst (scan_path fs p st)))).
Proof.
  intros Hst. unfold scan_path.
  destruct (is_dir fs p) as [[|]|e] eqn:Ed; [| |exact Hst].
  - destruct (iterdir fs p) as [entries|e]; [|exact Hst].
    destruct (scan_entries_jobs fs entries st) as (new & Hj & Ht & _).
    rewrite Hj, Ht, sum_sizes_app. lia.
  - destruct (stat_size fs p) as [size|e] eqn:Es; [|exact Hst].
    assert (Hsize : size = node_size (fs p)).
    { unfold stat_size in Es. unfold node_size.
      destruct (fs p); try discriminate Es; injection Es as <-; reflexivity. }
    cbn [fst add_job jobs total_bytes]. rewrite sum_sizes_app.
    cbn [map fold_right]. lia.
Qed.

Lemma enumerate_total_bytes (fs : filesystem) (algo : string) (paths : list path)
  (st : enumeration) :
  total_bytes st = fold_right Z.add 0 (map (fun f => node_size (fs f)) (jobs st)) ->
  total_bytes (enumerate fs algo paths st)
  = fold_right Z.add 0
      (map (fun f => node_size (fs f)) (jobs (enumerate fs algo paths st))).
Proof.
  revert st. induction paths as [|p rest IH]; intros st Hst; simpl; [exact Hst|].
  pose proof (scan_path_total_bytes fs p st Hst) as Hp.
  destruct (scan_path fs p st) as [st' [e|]]; apply IH; exact Hp.
Qed.

Section OneWorkerFullBar.
Context {H : Hashlib}.
Variable w : world.

(** On a machine with one or two CPUs, a job set that is not cancelled,
    whose algorithm [hashlib] knows and whose files read to their end and
    hold the bytes [stat] counted, leaves, once every task is finished, a
    last progress item of fraction one.  So, after rounds enough to empty
    the queue, the bar reads one and [hide_progress] and
    [check_processing_complete] return [False]: the job set is shown as
    finished. *)
Theorem one_worker_job_set_fills_the_bar (self : MainWindow)
  (paths : list path) (algo : string) (schedule : list event) (h0 : HASH)
  (n : nat) :
  let en := fst (submitted w self paths algo) in
  let c := calculate_hash w self paths algo schedule in
  cpu_count w <= 2 ->
  cancel_event self = false ->
  Forall (fun ev => ev <> CancelClicked) schedule ->
  hashlib_new algo = Ok h0 ->
  0 < total_bytes en ->
  Forall (fun file =>
            exists data, readable (fs_hash w) file data
                         /\ node_size (fs_enum w file) = Z.of_nat (length data))
    (jobs en) ->
  Forall (fun t => is_done t = true) (tasks c) ->
  (length (List.filter is_outcome (update_queue (window c))) < 8 * n)%nat ->
  (exists new,
      update_queue (window c) = (queued en ++ new)%list
      /\ (List.last (progress_fractions new) 0 == 1)%Q)
  /\ (progress_bar_fraction (timer_rounds n (window c)) == 1)%Q
  /\ hide_progress (timer_rounds n (window c)) = false
  /\ check_processing_complete (timer_rounds n (window c)) = false.
Proof.
  intros en c Hcpu Hflag Hsched Hnew Hpos Hfiles Hdone Hlen.
  pose proof (calculate_hash_inv w self paths algo schedule) as Hinv.
  fold en in Hinv. fold c in Hinv.
  assert (Hexec : c = exec (fs_hash w) algo (total_bytes en) 1 schedule
                        (snd (submitted w self paths algo))).
  { unfold c, en, calculate_hash. destruct (submitted w self paths algo) as [e c0].
    cbn [fst snd]. replace (Z.max 1 (cpu_count w - 1)) with 1 by lia.
    reflexivity. }
  assert (Hsum : total_bytes en
                 = fold_right Z.add 0
                     (map (fun f => node_size (fs_enum w f)) (jobs en))).
  { unfold en, submitted. cbn [fst]. apply enumerate_total_bytes. reflexivity. }
  assert (Hpending : pending_bytes (fs_hash w) (map Pending (jobs en))
                     = total_bytes en).
  { rewrite Hsum. clear Hsum Hinv Hexec Hdone Hlen Hpos. unfold pending_bytes.
    induction Hfiles as [|file files (data & (f & Ho & Hr & Hc) & Hsize) _ IH];
      [reflexivity|].
    cbn [map fold_right task_bytes]. rewrite IH, Hsize. unfold content_length.
    rewrite Ho, Hc. reflexivity. }
  assert (Hexact : exact_inv (fs_hash w) (total_bytes en) c).
  { rewrite Hexec. apply (exact_inv_exec (fs_hash w) algo (total_bytes en) h0 Hpos Hnew);
      [exact Hsched|].
    change (snd (submitted w self paths algo))
      with {| window := window (snd (submitted w self paths algo));
              bytes_read := 0; tasks := map Pending (jobs en); history := [] |}.
    split; [|split; [|split; [|split; [|split]]]];
      cbn [tasks history bytes_read].
    - exact Hflag.
    - intros i j p q Hi. exfalso.
      change (map Pending ?l) with (Pending <$> l) in Hi.
      rewrite list_lookup_fmap in Hi. destruct (_ !! i); discriminate Hi.
    - intros i p Hi. exfalso.
      change (map Pending ?l) with (Pending <$> l) in Hi.
      rewrite list_lookup_fmap in Hi. destruct (_ !! i); discriminate Hi.
    - intros _. split; [|rewrite Z.add_0_l; exact Hpending].
      cbn [map snd puts progress_fractions List.last]. symmetry.
      apply fraction_of_zero.
    - intros i file Hi.
      change (map Pending ?l) with (Pending <$> l) in Hi.
      rewrite list_lookup_fmap in Hi.
      destruct (jobs en !! i) as [file'|] eqn:Hj; [|discriminate Hi].
      injection Hi as ->. rewrite Forall_forall in Hfiles.
      destruct (Hfiles _ (list_elem_of_lookup_2 _ _ _ Hj)) as (data & Hdata & _).
      exists data. exact Hdata.
    - intros i r Hi. exfalso.
      change (map Pending ?l) with (Pending <$> l) in Hi.
      rewrite list_lookup_fmap in Hi. destruct (_ !! i); discriminate Hi. }
  destruct Hexact as (Hflag' & _ & _ & Hidle & _ & _).
  destruct Hidle as [Hlast Hbytes].
  { eapply Forall_impl; [exact Hdone|]. intros [| | |]; simpl; congruence. }
  rewrite (pending_bytes_done (fs_hash w) (tasks c) Hdone), Z.add_0_r in Hbytes.
  rewrite Hbytes, (fraction_of_total _ Hpos) in Hlast.
  pose proof (inv_queue _ _ _ _ _ _ Hinv) as Hqueue.
  assert (Hbar : (progress_bar_fraction (timer_rounds n (window c)) == 1)%Q).
  { destruct (timer_rounds_spec n (window c) Hflag' Hlen) as (_ & _ & _ & Hb & _).
    rewrite Hb, Hqueue, progress_fractions_app, last_app_default.
    rewrite (last_nonempty_default _ _ 0%Q); [exact Hlast|].
    intros Hnil. rewrite Hnil in Hlast. discriminate Hlast. }
  split; [exists (puts (map snd (history c))); split; [exact Hqueue | exact Hlast]|].
  split; [exact Hbar|].
  unfold hide_progress, check_processing_complete, job_is_over.
  apply Qeq_bool_iff in Hbar. rewrite Hbar. split; reflexivity.
Qed.
End OneWorkerFullBar.

(** ** One worker *)

(** The laptop has two CPUs and so one worker: the three files of [/d]
    and [/hello], one task after the other. *)
Lemma one_worker_progress_never_goes_back_witness :
  exists new,
    update_queue (window (calculate_hash (H := Reference.hashlib) laptop
                            fresh_window ["/d"; "/hello"] "sha256"
                            (serial 0 9 ++ serial 1 9 ++ serial 2 5)))
    = (queued (fst (submitted laptop fresh_window ["/d"; "/hello"] "sha256"))
       ++ new)%list
    /\ StronglySorted Qle (progress_fractions new)
    /\ Forall (fun q => (0 <= q)%Q) (progress_fractions new).
Proof.
  apply (one_worker_progress_never_goes_back (H := Reference.hashlib) laptop
           fresh_window ["/d"; "/hello"] "sha256"
           (serial 0 9 ++ serial 1 9 ++ serial 2 5)).
  - vm_compute. discriminate.
  - reflexivity.
  - repeat constructor; discriminate.
  - vm_compute. reflexivity.
Defined.

Lemma one_worker_job_set_fills_the_bar_witness :
  let c := calculate_hash (H := Reference.hashlib) laptop fresh_window
             ["/d"; "/hello"] "sha256"
             (serial 0 9 ++ serial 1 9 ++ serial 2 9) in
  (progress_bar_fraction (timer_rounds 1 (window c)) == 1)%Q
  /\ hide_progress (timer_rounds 1 (window c)) = false
  /\ check_processing_complete (timer_rounds 1 (window c)) = false.
Proof.
  intros c.
  refine (proj2 (one_worker_job_set_fills_the_bar (H := Reference.hashlib) laptop
                   fresh_window ["/d"; "/hello"] "sha256"
                   (serial 0 9 ++ serial 1 9 ++ serial 2 9)
                   {| Reference.alg := Reference.SHA256; Reference.absorbed := [] |}
                   1 _ eq_refl _ eq_refl _ _ _ _)).
  - vm_compute. discriminate.
  - repeat constructor; discriminate.
  - vm_compute. reflexivity.
  - repeat constructor.
    + exists (list_byte_of_string "x"). split;
        [eexists; repeat split; reflexivity | reflexivity].
    + exists (list_byte_of_string "y"). split;
        [eexists; repeat split; reflexivity | reflexivity].
    + exists (list_byte_of_string "helloworld"). split;
        [eexists; repeat split; reflexivity | reflexivity].
  - vm_compute. repeat constructor.
  - vm_compute. lia.
Defined.
